(** * Multi-agent task distribution: SPSA brokers over a connectivity graph

    A shallow embedding of [core/graph.py] (class [GraphService]) and
    [agents/controller.py] (class [Broker]) together with the properties
    of the optimisation and consensus core.

    Conventions of the embedding.
    - Python floats are exact rationals ([Q]); rounding, infinities and
      NaN are outside the model.
    - The pseudo random generator and the wall clock are oracles: an
      infinite tape of draws of [random.random()] in the order the code
      asks for them, and a tape of readings of [time.time()].  Every
      theorem quantifies over all tapes, also over tapes whose values lie
      outside [0, 1).
    - A Python [dict] whose iteration order is observable is an insertion
      ordered association list ([PyDict]); the [neighbors] table, whose
      key set never changes, is a [gmap].
    - An exception is a value of type [exn]; code that can raise lives in
      a state and exception monad in which the state written before the
      raise is kept, as in Python. *)

From Stdlib Require Import QArith Qround Qminmax Lia ZArith Lqa.
From stdpp Require Import gmap list strings pretty.

(** ** The oracles: [random] and [time] *)

Module Rand.

Record Oracle := mkOracle {
  tape : nat -> Q;      (* successive results of random.random() *)
  cursor : nat;         (* number of draws made so far *)
  clock : nat -> Q;     (* successive results of time.time() *)
  reads : nat           (* number of clock readings so far *)
}.

(* a < b on floats, as a test *)
Definition Qltb (a b : Q) : bool := negb (Qle_bool b a).

(* random.random() *)
Definition random (o : Oracle) : Q * Oracle :=
  (tape o (cursor o), mkOracle (tape o) (S (cursor o)) (clock o) (reads o)).

(* random.uniform(a, b) = a + (b - a) * random() *)
Definition uniform (a b : Q) (o : Oracle) : Q * Oracle :=
  let (u, o') := random o in ((a + (b - a) * u)%Q, o').

(* index picked among n alternatives by one draw *)
Definition randbelow (n : nat) (u : Q) : nat :=
  (Z.to_nat (Qfloor (u * inject_Z (Z.of_nat n))) `mod` n)%nat.

(* random.choice(x :: xs); the callers test for emptiness beforehand *)
Definition choice {A} (x : A) (xs : list A) (o : Oracle) : A * Oracle :=
  let (u, o') := random o in
  (nth (randbelow (S (length xs)) u) (x :: xs) x, o').

(* one component of np.random.choice([-1, 1], ...) *)
Definition sign_of_draw (u : Q) : Q :=
  if Qlt_le_dec u 0.5 then (-1)%Q else 1%Q.

(* np.random.choice([-1, 1], size=n) *)
Fixpoint random_signs (n : nat) (o : Oracle) : list Q * Oracle :=
  match n with
  | O => ([], o)
  | S n' =>
      let (u, o1) := random o in
      let (rest, o2) := random_signs n' o1 in
      (sign_of_draw u :: rest, o2)
  end.

(* np.random.uniform(a, b, n) *)
Fixpoint uniform_vector (a b : Q) (n : nat) (o : Oracle) : list Q * Oracle :=
  match n with
  | O => ([], o)
  | S n' =>
      let (x, o1) := uniform a b o in
      let (rest, o2) := uniform_vector a b n' o1 in
      (x :: rest, o2)
  end.

(* time.time() *)
Definition time_time (o : Oracle) : Q * Oracle :=
  (clock o (reads o), mkOracle (tape o) (cursor o) (clock o) (S (reads o))).

(* an oracle that replays a finite list of draws, then [d] for ever *)
Definition replay (draws : list Q) (d : Q) : Oracle :=
  mkOracle (fun n => nth n draws d) 0 (fun n => inject_Z (Z.of_nat n)) 0.

End Rand.

(** ** Insertion ordered dictionaries *)

Module PyDict.
Section Dict.
Context {K V : Type} `{EqDecision K}.

Definition t := list (K * V).

(* d.get(k) *)
Fixpoint get (k : K) (d : list (K * V)) : option V :=
  match d with
  | [] => None
  | (k', v) :: d' => if decide (k' = k) then Some v else get k d'
  end.

(* k in d *)
Definition mem (k : K) (d : list (K * V)) : bool :=
  match get k d with Some _ => true | None => false end.

(* d[k] = v : an existing key keeps its place, a new key goes last *)
Fixpoint set (k : K) (v : V) (d : list (K * V)) : list (K * V) :=
  match d with
  | [] => [(k, v)]
  | (k', v') :: d' =>
      if decide (k' = k) then (k, v) :: d' else (k', v') :: set k v d'
  end.

(* del d[k] *)
Fixpoint del (k : K) (d : list (K * V)) : list (K * V) :=
  match d with
  | [] => []
  | (k', v') :: d' =>
      if decide (k' = k) then d' else (k', v') :: del k d'
  end.

(* list(d.keys()) *)
Definition keys (d : list (K * V)) : list K := map fst d.

(* for k, v in d.items(): d[k] = f(v) *)
Definition map_values (f : V -> V) (d : list (K * V)) : list (K * V) :=
  map (fun kv => (fst kv, f (snd kv))) d.
End Dict.
End PyDict.

(** ** core/graph.py : GraphService *)

Module Graph.

Record GraphService := mkGraph {
  num_brokers : nat;
  adjacency_matrix : list (list nat);
  weights : list ((nat * nat) * Q);
  neighbors : gmap nat (list nat);
  edge_probability : Q;
  min_neighbors : nat;
  max_neighbors : nat;
  weight_decay : Q
}.

Definition with_adjacency (m : list (list nat)) (g : GraphService) :=
  mkGraph (num_brokers g) m (weights g) (neighbors g) (edge_probability g)
          (min_neighbors g) (max_neighbors g) (weight_decay g).

Definition with_weights (w : list ((nat * nat) * Q)) (g : GraphService) :=
  mkGraph (num_brokers g) (adjacency_matrix g) w (neighbors g)
          (edge_probability g) (min_neighbors g) (max_neighbors g)
          (weight_decay g).

Definition with_neighbors (nb : gmap nat (list nat)) (g : GraphService) :=
  mkGraph (num_brokers g) (adjacency_matrix g) (weights g) nb
          (edge_probability g) (min_neighbors g) (max_neighbors g)
          (weight_decay g).

(* self.neighbors[i]; every i in range(num_brokers) is a key *)
Definition nbrs (g : GraphService) (i : nat) : list nat :=
  default [] (neighbors g !! i).

(* len(self.neighbors[i]) *)
Definition degree (g : GraphService) (i : nat) : nat := length (nbrs g i).

(* self.adjacency_matrix[i][j] *)
Definition adj (g : GraphService) (i j : nat) : nat :=
  default 0%nat (row ← adjacency_matrix g !! i; row !! j).

(* self.adjacency_matrix[i][j] = v, for i, j in range *)
Definition mat_set (i j v : nat) (m : list (list nat)) : list (list nat) :=
  match m !! i with
  | Some row => <[i := <[j := v]> row]> m
  | None => m
  end.

(* j in l, for a list of node numbers *)
Definition memb (j : nat) (l : list nat) : bool := bool_decide (j ∈ l).

(* l.remove(j): the first occurrence goes *)
Fixpoint list_remove (j : nat) (l : list nat) : list nat :=
  match l with
  | [] => []
  | x :: l' => if decide (x = j) then l' else x :: list_remove j l'
  end.

Definition _add_edge (i j : nat) (g : GraphService) : GraphService :=
  let g1 := with_adjacency (mat_set j i 1 (mat_set i j 1 (adjacency_matrix g))) g in
  let g2 := if memb j (nbrs g1 i) then g1
            else with_neighbors (<[i := nbrs g1 i ++ [j]]> (neighbors g1)) g1 in
  if memb i (nbrs g2 j) then g2
  else with_neighbors (<[j := nbrs g2 j ++ [i]]> (neighbors g2)) g2.

Definition _remove_edge (i j : nat) (g : GraphService) : GraphService :=
  let g1 := with_adjacency (mat_set j i 0 (mat_set i j 0 (adjacency_matrix g))) g in
  let g2 := if memb j (nbrs g1 i)
            then with_neighbors (<[i := list_remove j (nbrs g1 i)]> (neighbors g1)) g1
            else g1 in
  if memb i (nbrs g2 j)
  then with_neighbors (<[j := list_remove i (nbrs g2 j)]> (neighbors g2)) g2
  else g2.

(* the pairs (i, j) of  for i in range(n): for j in range(i + 1, n) *)
Definition upper_pairs (n : nat) : list (nat * nat) :=
  i ← seq 0 n; ((fun j => (i, j)) <$> seq (S i) (n - S i)).

(* first loop of _generate_initial_graph *)
Fixpoint random_connections (ps : list (nat * nat)) (g : GraphService)
    (o : Rand.Oracle) : GraphService * Rand.Oracle :=
  match ps with
  | [] => (g, o)
  | (i, j) :: ps' =>
      let (u, o1) := Rand.random o in
      random_connections ps' (if Rand.Qltb u (edge_probability g) then _add_edge i j g else g) o1
  end.

(* the candidates of one round of the while loop of _ensure_connectivity *)
Definition connect_candidates (g : GraphService) (i : nat) : list nat :=
  filter (fun j => j ≠ i ∧ (j ∉ nbrs g i) ∧ (degree g j < max_neighbors g)%nat)
         (seq 0 (num_brokers g)).

(* the while loop of _ensure_connectivity for node i; every round that
   does not leave the loop lengthens neighbors[i] by one, so that
   [min_neighbors] rounds are enough (see [ensure_node_exit]) *)
Fixpoint ensure_node (fuel : nat) (i : nat) (g : GraphService)
    (o : Rand.Oracle) : GraphService * Rand.Oracle :=
  match fuel with
  | O => (g, o)
  | S fuel' =>
      if (degree g i <? min_neighbors g)%nat then
        match connect_candidates g i with
        | c :: cs =>
            let (j, o1) := Rand.choice c cs o in
            ensure_node fuel' i (_add_edge i j g) o1
        | [] => (g, o)
        end
      else (g, o)
  end.

Fixpoint ensure_nodes (nodes : list nat) (g : GraphService) (o : Rand.Oracle)
    : GraphService * Rand.Oracle :=
  match nodes with
  | [] => (g, o)
  | i :: nodes' =>
      let (g1, o1) := ensure_node (min_neighbors g) i g o in
      ensure_nodes nodes' g1 o1
  end.

Definition _ensure_connectivity (g : GraphService) (o : Rand.Oracle) :=
  ensure_nodes (seq 0 (num_brokers g)) g o.

(* weights[(i, j)] = weights[(j, i)] = w *)
Definition set_both (i j : nat) (w : Q) (d : list ((nat * nat) * Q)) :=
  PyDict.set (j, i) w (PyDict.set (i, j) w d).

(* the body of the inner loop of _initialize_weights *)
Definition init_weight (degrees : list nat) (i j : nat)
    (d : list ((nat * nat) * Q)) : list ((nat * nat) * Q) :=
  if (i <? j)%nat then
    let s := (default 0 (degrees !! i) + default 0 (degrees !! j))%nat in
    let w := if (0 <? s)%nat then (2.0 / inject_Z (Z.of_nat s))%Q else 0.0%Q in
    set_both i j w d
  else d.

Definition _initialize_weights (g : GraphService) : GraphService :=
  let degrees := (fun i => degree g i) <$> seq 0 (num_brokers g) in
  with_weights
    (foldl (fun d i => foldl (fun d' j => init_weight degrees i j d') d (nbrs g i))
           (weights g) (seq 0 (num_brokers g)))
    g.

Definition _generate_initial_graph (g : GraphService) (o : Rand.Oracle)
    : GraphService * Rand.Oracle :=
  let (g1, o1) := random_connections (upper_pairs (num_brokers g)) g o in
  let (g2, o2) := _ensure_connectivity g1 o1 in
  (_initialize_weights g2, o2).

(* GraphService.__init__ *)
Definition init (n : nat) (o : Rand.Oracle) : GraphService * Rand.Oracle :=
  _generate_initial_graph
    (mkGraph n (replicate n (replicate n 0%nat)) []
             (list_to_map ((fun i => (i, [])) <$> seq 0 n))
             0.3 2 5 0.95) o.

Definition get_neighbors (g : GraphService) (broker_id : nat) : list nat :=
  default [] (neighbors g !! broker_id).

Definition get_weight (g : GraphService) (i j : nat) : Q :=
  default 0.0%Q (PyDict.get (i, j) (weights g)).

Definition add_candidates (g : GraphService) : list (nat * nat) :=
  filter (fun p => adj g p.1 p.2 = 0%nat ∧
                   (degree g p.1 < max_neighbors g)%nat ∧
                   (degree g p.2 < max_neighbors g)%nat)
         (upper_pairs (num_brokers g)).

Definition _add_random_edge (g : GraphService) (o : Rand.Oracle) :=
  match add_candidates g with
  | c :: cs =>
      let '((i, j), o1) := Rand.choice c cs o in
      let g1 := _add_edge i j g in
      let (w, o2) := Rand.uniform 0.1 1.0 o1 in
      (with_weights (set_both i j w (weights g1)) g1, o2)
  | [] => (g, o)
  end.

Definition remove_candidates (g : GraphService) : list (nat * nat) :=
  i ← filter (fun i => (min_neighbors g < degree g i)%nat) (seq 0 (num_brokers g));
  ((fun j => (i, j)) <$> filter (fun j => (min_neighbors g < degree g j)%nat) (nbrs g i)).

Definition _remove_random_edge (g : GraphService) (o : Rand.Oracle) :=
  match remove_candidates g with
  | c :: cs =>
      let '((i, j), o1) := Rand.choice c cs o in
      let g1 := _remove_edge i j g in
      let w1 := if PyDict.mem (i, j) (weights g1)
                then PyDict.del (i, j) (weights g1) else weights g1 in
      let w2 := if PyDict.mem (j, i) w1 then PyDict.del (j, i) w1 else w1 in
      (with_weights w2 g1, o1)
  | [] => (g, o)
  end.

Definition _modify_random_weight (g : GraphService) (o : Rand.Oracle) :=
  match PyDict.keys (weights g) with
  | e :: es =>
      let (edge, o1) := Rand.choice e es o in
      let (new_weight, o2) := Rand.uniform 0.1 1.0 o1 in
      let w1 := PyDict.set edge new_weight (weights g) in
      let reverse_edge := (edge.2, edge.1) in
      let w2 := if PyDict.mem reverse_edge w1
                then PyDict.set reverse_edge new_weight w1 else w1 in
      (with_weights w2 g, o2)
  | [] => (g, o)
  end.

Inductive action := Add | Remove | ModifyWeight.

Definition _random_graph_modification (g : GraphService) (o : Rand.Oracle) :=
  let (a, o1) := Rand.choice Add [Remove; ModifyWeight] o in
  match a with
  | Add => _add_random_edge g o1
  | Remove => _remove_random_edge g o1
  | ModifyWeight => _modify_random_weight g o1
  end.

(* the first loop of update_graph: every weight times weight_decay *)
Definition decay_weights (g : GraphService) : GraphService :=
  with_weights (PyDict.map_values (fun w => (w * weight_decay g)%Q) (weights g)) g.

Definition update_graph (g : GraphService) (o : Rand.Oracle) :=
  let g1 := decay_weights g in
  let (u, o1) := Rand.random o in
  if Rand.Qltb u 0.1 then _random_graph_modification g1 o1 else (g1, o1).

(* the weight table is a dictionary (no key twice) whose entries (i, j)
   and (j, i) agree *)
Definition weights_ok (d : list ((nat * nat) * Q)) : Prop :=
  NoDup (PyDict.keys d) ∧ ∀ i j, PyDict.get (i, j) d = PyDict.get (j, i) d.

(* the two guarded deletions of _remove_random_edge *)
Definition del_both (i j : nat) (d : list ((nat * nat) * Q)) :=
  let w1 := if PyDict.mem (i, j) d then PyDict.del (i, j) d else d in
  if PyDict.mem (j, i) w1 then PyDict.del (j, i) w1 else w1.

(* an n by n matrix *)
Definition mat_dims (n : nat) (m : list (list nat)) : Prop :=
  length m = n ∧ Forall (λ r, length r = n) m.

Definition mat_get (m : list (list nat)) (a b : nat) : nat :=
  default 0%nat (row ← m !! a; row !! b).

(* the neighbour lists: symmetric, without self loops, without
   duplicates, over the nodes 0 .. num_brokers - 1 *)
Definition neighbors_ok (g : GraphService) : Prop :=
  (∀ i j, j ∈ nbrs g i → i ∈ nbrs g j) ∧
  (∀ i, i ∉ nbrs g i) ∧
  (∀ i, NoDup (nbrs g i)) ∧
  (∀ i j, j ∈ nbrs g i → (i < num_brokers g)%nat ∧ (j < num_brokers g)%nat).

(* the matrix is num_brokers by num_brokers and holds a 1 exactly at the
   pairs of neighbours *)
Definition adjacency_ok (g : GraphService) : Prop :=
  mat_dims (num_brokers g) (adjacency_matrix g) ∧
  ∀ i j, (i < num_brokers g)%nat → (j < num_brokers g)%nat →
         adj g i j = if decide (j ∈ nbrs g i) then 1%nat else 0%nat.

Definition graph_ok (g : GraphService) : Prop := neighbors_ok g ∧ adjacency_ok g.

(* the size and the degree bounds are those of g *)
Definition same_params (g g' : GraphService) : Prop :=
  num_brokers g' = num_brokers g ∧ min_neighbors g' = min_neighbors g
  ∧ max_neighbors g' = max_neighbors g.

(* after the repair pass node i has min_neighbors neighbours, or every
   node it is not linked to is saturated *)
Definition repaired (g : GraphService) (i : nat) : Prop :=
  (min_neighbors g ≤ degree g i)%nat
  ∨ ∀ j, (j < num_brokers g)%nat → j ≠ i → j ∉ nbrs g i →
         (max_neighbors g ≤ degree g j)%nat.

(* g' has the edges of g and possibly more *)
Definition grows (g g' : GraphService) : Prop :=
  same_params g g' ∧ ∀ k, nbrs g k ⊆ nbrs g' k ∧ (degree g k ≤ degree g' k)%nat.

(* the weight given to the edge between a and b by _initialize_weights *)
Definition initial_weight (degrees : list nat) (a b : nat) : Q :=
  let s := (default 0 (degrees !! a) + default 0 (degrees !! b))%nat in
  if (0 <? s)%nat then (2.0 / inject_Z (Z.of_nat s))%Q else 0.0%Q.

(* sample data: the graph of four brokers built when every draw is 0.9 *)
Definition sample_graph : GraphService := (init 4 (Rand.replay [] 0.9%Q)).1.

(* the graphs the service can hold: the one built by the constructor and
   those obtained from it by the decay pass and the three mutations *)
Inductive reachable : GraphService -> Prop :=
  | reach_init n o : reachable (init n o).1
  | reach_decay g : reachable g -> reachable (decay_weights g)
  | reach_add g o : reachable g -> reachable (_add_random_edge g o).1
  | reach_remove g o : reachable g -> reachable (_remove_random_edge g o).1
  | reach_modify g o : reachable g -> reachable (_modify_random_weight g o).1.

(* k calls of update_graph *)
Fixpoint ticks (k : nat) (g : GraphService) (o : Rand.Oracle) :=
  match k with
  | O => (g, o)
  | S k' => let (g1, o1) := update_graph g o in ticks k' g1 o1
  end.

End Graph.

(** ** The view consensus_update has of the brokers

    [consensus_update] reads and writes one attribute of each broker,
    [theta], and asks whether it is there ([hasattr]).  A broker is seen
    here as [Some theta] or [None]; [broker_dict] is the ordered
    dictionary from broker ids to these views.  The objects are mutated
    in place: a later read of [broker_dict[j].theta] sees an earlier
    write. *)

Module Consensus.
Import Graph.

(* numpy arithmetic on one dimensional arrays, with broadcasting of an
   array of length one; [None] is the ValueError of incompatible shapes *)
Definition broadcast2 (f : Q -> Q -> Q) (a b : list Q) : option (list Q) :=
  if (length a =? length b)%nat then Some (zip_with f a b)
  else if (length a =? 1)%nat then Some (map (f (hd 0%Q a)) b)
  else if (length b =? 1)%nat then Some (map (fun x => f x (hd 0%Q b)) a)
  else None.

(* acc += x : the result keeps the shape of acc *)
Definition iadd (acc x : list Q) : option (list Q) :=
  if (length x =? length acc)%nat then Some (zip_with Qplus acc x)
  else if (length x =? 1)%nat then Some (map (fun a => (a + hd 0%Q x)%Q) acc)
  else None.

Definition scale (c : Q) (v : list Q) : list Q := map (Qmult c) v.

(* the inner loop: the consensus term accumulated over the neighbours *)
Fixpoint consensus_term (g : GraphService) (broker_dict : list (nat * option (list Q)))
    (broker_id : nat) (theta_i : list Q) (nbs : list nat) (acc : list Q)
    : option (list Q) :=
  match nbs with
  | [] => Some acc
  | neighbor_id :: nbs' =>
      match PyDict.get neighbor_id broker_dict with
      | Some (Some neighbor_theta) =>
          d ← broadcast2 Qminus neighbor_theta theta_i;
          acc' ← iadd acc (scale (get_weight g broker_id neighbor_id) d);
          consensus_term g broker_dict broker_id theta_i nbs' acc'
      | _ => consensus_term g broker_dict broker_id theta_i nbs' acc
      end
  end.

(* updated_theta of one broker, from the thetas now in broker_dict *)
Definition updated_theta (g : GraphService) (gamma_consensus : Q)
    (broker_dict : list (nat * option (list Q))) (broker_id : nat)
    (theta_i : list Q) : option (list Q) :=
  term ← consensus_term g broker_dict broker_id theta_i
            (get_neighbors g broker_id) (map (fun _ => 0%Q) theta_i);
  broadcast2 Qplus theta_i (scale gamma_consensus term).

(* one round of the outer loop *)
Definition consensus_step (g : GraphService) (gamma_consensus : Q)
    (broker_dict : list (nat * option (list Q))) (broker_id : nat)
    : option (list (nat * option (list Q))) :=
  match get_neighbors g broker_id, PyDict.get broker_id broker_dict with
  | _ :: _, Some (Some theta_i) =>
      th ← updated_theta g gamma_consensus broker_dict broker_id theta_i;
      Some (PyDict.set broker_id (Some th) broker_dict)
  | _, _ => Some broker_dict
  end.

Fixpoint consensus_loop (g : GraphService) (gamma_consensus : Q)
    (ids : list nat) (broker_dict : list (nat * option (list Q)))
    : option (list (nat * option (list Q))) :=
  match ids with
  | [] => Some broker_dict
  | broker_id :: ids' =>
      d ← consensus_step g gamma_consensus broker_dict broker_id;
      consensus_loop g gamma_consensus ids' d
  end.

(* consensus_update(brokers, gamma_consensus) on a dict; [None] when a
   numpy operation raises *)
Definition consensus_update (g : GraphService)
    (broker_dict : list (nat * option (list Q))) (gamma_consensus : Q) :=
  consensus_loop g gamma_consensus (PyDict.keys broker_dict) broker_dict.

(* the conversion  {i: broker for i, broker in enumerate(brokers)} *)
Definition enumerate (brokers : list (option (list Q))) : list (nat * option (list Q)) :=
  imap (fun i b => (i, b)) brokers.

(* the update the specification describes: every correction is computed
   from the thetas the brokers had on entry *)
Definition snapshot_theta (g : GraphService) (gamma_consensus : Q)
    (snapshot : list (nat * option (list Q))) (broker_id : nat)
    : option (option (list Q)) :=
  match get_neighbors g broker_id, PyDict.get broker_id snapshot with
  | _ :: _, Some (Some theta_i) =>
      th ← updated_theta g gamma_consensus snapshot broker_id theta_i; Some (Some th)
  | _, b => b
  end.

(* every parameter vector of the table has length D *)
Definition same_dimension (D : nat) (d : list (nat * option (list Q))) : Prop :=
  ∀ i th, PyDict.get i d = Some (Some th) → length th = D.

(* every parameter vector of the table equals th0, component by component *)
Definition agree (th0 : list Q) (d : list (nat * option (list Q))) : Prop :=
  ∀ i th, PyDict.get i d = Some (Some th) → Forall2 Qeq th th0.

(* every component of every parameter vector of the table within [lo, hi] *)
Definition within (lo hi : Q) (d : list (nat * option (list Q))) : Prop :=
  ∀ i th, PyDict.get i d = Some (Some th) →
          Forall (λ x, (lo <= x)%Q ∧ (x <= hi)%Q) th.

(* the sum of the weights of the edges from i to the nodes of nbs *)
Definition total_weight (g : GraphService) (i : nat) (nbs : list nat) : Q :=
  foldr (λ n s, (get_weight g i n + s)%Q) 0%Q nbs.

(* sample data: a table with a broker that has no theta, a table whose
   brokers agree, and a graph of two linked brokers written out *)
Definition thetas_with_gap : list (nat * option (list Q)) :=
  [(0%nat, Some [0%Q]); (1%nat, Some [1%Q]); (2%nat, None)].

Definition thetas_equal : list (nat * option (list Q)) :=
  [(0%nat, Some [1%Q]); (1%nat, Some [1%Q])].

Definition pair_graph : GraphService :=
  mkGraph 2 [[0; 1]; [1; 0]]%nat [((0, 1)%nat, 1%Q); ((1, 0)%nat, 1%Q)]
          (<[0%nat := [1%nat]]> (<[1%nat := [0%nat]]> ∅)) 0.3 2 5 0.95.

(** Sample data: two connected brokers *)

(* two connected brokers, with weight 2 / (1 + 1) on their edge *)
Definition two_brokers : GraphService := (init 2 (Rand.replay [] 0%Q)).1.

Definition thetas01 : list (nat * option (list Q)) :=
  [(0%nat, Some [0%Q]); (1%nat, Some [1%Q])].

Definition thetas10 : list (nat * option (list Q)) :=
  [(1%nat, Some [1%Q]); (0%nat, Some [0%Q])].

(* the first component of the theta stored for broker i *)
Definition first_theta (r : option (option (list Q))) : Q :=
  match r with Some (Some (x :: _)) => x | _ => 0%Q end.

End Consensus.

(** ** agents/controller.py : Broker *)

Module Controller.
Import Rand.

(* the Python values met in task and result dictionaries *)
Inductive pyval :=
  | PyNum (q : Q)
  | PyStr (s : string)
  | PyBool (b : bool)
  | PyNone.

Inductive exn :=
  | IndexError (index size : nat)   (* numpy: index out of bounds *)
  | TypeError (operand : pyval)     (* operand / 10.0 on a non-number *)
  | ValueError (m n : nat)          (* np.dot: shapes not aligned *)
  | KeyError (key : string).        (* d[key] on a missing key *)

(* str(e) *)
Definition exn_message (e : exn) : string :=
  match e with
  | IndexError i n =>
      "index " +:+ pretty i +:+ " is out of bounds for axis 0 with size " +:+ pretty n
  | TypeError (PyStr _) => "unsupported operand type(s) for /: 'str' and 'float'"
  | TypeError _ => "unsupported operand type(s) for /: 'NoneType' and 'float'"
  | ValueError m n =>
      "shapes (" +:+ pretty m +:+ ",) and (" +:+ pretty n +:+ ",) not aligned: "
      +:+ pretty m +:+ " (dim 0) != " +:+ pretty n +:+ " (dim 0)"
  | KeyError k => "'" +:+ k +:+ "'"
  end.

(* config/config.py *)
Record SPSAConfig := mkSPSAConfig {
  alpha : Q;
  beta : Q;
  gamma_consensus : Q;
  update_frequency : nat
}.

Definition default_spsa_config : SPSAConfig := mkSPSAConfig 0.01 0.1 0.02 10.

Record LVPConfig := mkLVPConfig { h : Q; gamma : Q }.

Definition default_lvp_config : LVPConfig := mkLVPConfig 0.1 0.05.

Record Executor := mkExecutor { executor_id : string }.

(* the keys of a task dictionary that the broker reads; an absent key is
   [None]; a prompt, when present, is a string *)
Record Task := mkTask {
  priority : option pyval;
  complexity : option pyval;
  prompt : option string
}.

Record Stats := mkStats {
  total_tasks : nat;
  successful_tasks : nat;
  total_time : Q;
  average_load : Q
}.

Record Broker := mkBroker {
  broker_id : string;
  executors : list Executor;
  load : Q;
  task_count : nat;
  history : list (Task * list (string * pyval) * Q);
  performance_stats : Stats;
  theta : list Q;
  neighbors : list nat      (* the neighbour brokers, as places in the pool *)
}.

(* Broker.__init__ *)
Definition init (id : string) (exs : list Executor) (o : Oracle) : Broker * Oracle :=
  let (th, o') := uniform_vector (-0.5) 0.5 (length exs) o in
  (mkBroker id exs 0.0 0 [] (mkStats 0 0 0.0 0.0) th [], o').

(** *** The state and exception monad of the methods *)

Record World := mkWorld {
  self : Broker;
  oracle : Oracle;
  update_calls : nat   (* ghost: calls of _update_spsa_parameters so far *)
}.

Inductive outcome (A : Type) :=
  | Ok (a : A)
  | Raise (e : exn).
Arguments Ok {A} a.
Arguments Raise {A} e.

Definition M (A : Type) : Type := World -> outcome A * World.

Definition ret {A} (a : A) : M A := fun w => (Ok a, w).

Definition bind {A B} (m : M A) (k : A -> M B) : M B :=
  fun w => match m w with
           | (Ok a, w') => k a w'
           | (Raise e, w') => (Raise e, w')
           end.

Definition raise {A} (e : exn) : M A := fun w => (Raise e, w).

(* try: m  except Exception as e: handler e *)
Definition try_except {A} (m : M A) (handler : exn -> M A) : M A :=
  fun w => match m w with
           | (Ok a, w') => (Ok a, w')
           | (Raise e, w') => handler e w'
           end.

Definition get_self : M Broker := fun w => (Ok (self w), w).

Definition modify_self (f : Broker -> Broker) : M unit :=
  fun w => (Ok tt, mkWorld (f (self w)) (oracle w) (update_calls w)).

Definition ask {A} (f : Oracle -> A * Oracle) : M A :=
  fun w => let (a, o') := f (oracle w) in
           (Ok a, mkWorld (self w) o' (update_calls w)).

Definition count_update_call : M unit :=
  fun w => (Ok tt, mkWorld (self w) (oracle w) (S (update_calls w))).

Notation "x <- m ;; k" := (bind m (fun x => k))
  (at level 100, m at next level, right associativity).
Notation "m ;;; k" := (bind m (fun _ => k))
  (at level 100, right associativity).

Definition set_theta (th : list Q) (b : Broker) : Broker :=
  mkBroker (broker_id b) (executors b) (load b) (task_count b) (history b)
           (performance_stats b) th (neighbors b).

Definition set_load (l : Q) (b : Broker) : Broker :=
  mkBroker (broker_id b) (executors b) l (task_count b) (history b)
           (performance_stats b) (theta b) (neighbors b).

Definition set_task_count (n : nat) (b : Broker) : Broker :=
  mkBroker (broker_id b) (executors b) (load b) n (history b)
           (performance_stats b) (theta b) (neighbors b).

Definition set_history (hs : list (Task * list (string * pyval) * Q)) (b : Broker) :=
  mkBroker (broker_id b) (executors b) (load b) (task_count b) hs
           (performance_stats b) (theta b) (neighbors b).

Definition set_stats (s : Stats) (b : Broker) : Broker :=
  mkBroker (broker_id b) (executors b) (load b) (task_count b) (history b)
           s (theta b) (neighbors b).

(** *** Feature extraction and selection *)

(* operand / 10.0 *)
Definition div10 (v : pyval) : M Q :=
  match v with
  | PyNum q => ret (q / 10.0)%Q
  | PyBool b => ret ((if b then 1 else 0) / 10.0)%Q
  | other => raise (TypeError other)
  end.

(* features[i] = x  on a numpy array *)
Definition setitem (i : nat) (x : Q) (features : list Q) : M (list Q) :=
  if (i <? length features)%nat then ret (<[i := x]> features)
  else raise (IndexError i (length features)).

(* min(a, 1.0) *)
Definition min_one (a : Q) : Q := if Qlt_le_dec 1.0 a then 1.0%Q else a.

(* for i in range(3, len(features)): features[i] = random.uniform(-0.5, 0.5) *)
Fixpoint fill_random (idx : list nat) (features : list Q) : M (list Q) :=
  match idx with
  | [] => ret features
  | i :: idx' =>
      x <- ask (uniform (-0.5) 0.5) ;;
      f <- setitem i x features ;;
      fill_random idx' f
  end.

Definition _extract_features (task_dict : Task) : M (list Q) :=
  b <- get_self ;;
  let features := replicate (length (executors b)) 0%Q in
  let priority := default (PyNum 5) (priority task_dict) in
  let complexity := default (PyNum 5) (complexity task_dict) in
  let text_length := String.length (default ""%string (prompt task_dict)) in
  p <- div10 priority ;;
  f0 <- setitem 0 p features ;;
  c <- div10 complexity ;;
  f1 <- setitem 1 c f0 ;;
  f2 <- setitem 2 (min_one (inject_Z (Z.of_nat text_length) / 1000.0)) f1 ;;
  fill_random (seq 3 (length f2 - 3)) f2.

(* np.dot on two one dimensional arrays *)
Definition dot (a b : list Q) : M Q :=
  if (length a =? length b)%nat
  then ret (foldl Qplus 0%Q (zip_with Qmult a b))
  else raise (ValueError (length a) (length b)).

(* the loop of _select_executor: scores in the order of the executors *)
Fixpoint score_all (task_dict : Task) (exs : list Executor) : M (list (Q * Executor)) :=
  match exs with
  | [] => ret []
  | executor :: exs' =>
      features <- _extract_features task_dict ;;
      b <- get_self ;;
      d <- dot features (theta b) ;;
      jitter <- ask (uniform (-0.1) 0.1) ;;
      rest <- score_all task_dict exs' ;;
      ret (((d + jitter)%Q, executor) :: rest)
  end.

(* scores.sort(key=lambda x: x[0], reverse=True): a stable sort, so that
   among equal scores the earlier entry stays first *)
Fixpoint insert_desc (x : Q * Executor) (l : list (Q * Executor)) :=
  match l with
  | [] => [x]
  | y :: l' => if Qltb (fst x) (fst y) then y :: insert_desc x l' else x :: l
  end.

Fixpoint sort_desc (l : list (Q * Executor)) : list (Q * Executor) :=
  match l with
  | [] => []
  | x :: l' => insert_desc x (sort_desc l')
  end.

Definition _select_executor (task_dict : Task) : M (option Executor) :=
  b <- get_self ;;
  match executors b with
  | [] => ret None
  | _ :: _ =>
      scores <- score_all task_dict (executors b) ;;
      match sort_desc scores with
      | top :: _ => ret (Some (snd top))
      | [] => raise (IndexError 0 0)
      end
  end.

(** *** The SPSA update *)

(* bool(v) *)
Definition truthy (v : pyval) : bool :=
  match v with
  | PyBool b => b
  | PyNum q => negb (Qeq_bool q 0)
  | PyStr s => negb (String.eqb s "")
  | PyNone => false
  end.

(* the loop of _calculate_loss *)
Fixpoint total_loss (hist : list (Task * list (string * pyval) * Q)) (acc : Q) : M Q :=
  match hist with
  | [] => ret acc
  | (_, result, exec_time) :: hist' =>
      match PyDict.get "success"%string result with
      | Some v =>
          let time_loss := (exec_time / 5.0)%Q in
          let success_loss := if truthy v then 0.0%Q else 1.0%Q in
          total_loss hist' (acc + (time_loss + success_loss))%Q
      | None => raise (KeyError "success")
      end
  end.

Definition _calculate_loss (hist : list (Task * list (string * pyval) * Q)) : M Q :=
  match hist with
  | [] => ret 1.0%Q
  | _ :: _ =>
      t <- total_loss hist 0.0%Q ;;
      ret (t / inject_Z (Z.of_nat (length hist)))%Q
  end.

(* np.sum *)
Definition vsum (v : list Q) : Q := foldl Qplus 0%Q v.

Definition _simulate_loss (th : list Q) : M Q :=
  noise <- ask (uniform 0 0.1) ;;
  ret (vsum (map (fun x => (x ^ 2)%Q) th) * 0.1 + noise)%Q.

(* one component of np.clip(., -2.0, 2.0) *)
Definition clip (x : Q) : Q :=
  if Qlt_le_dec x (-2.0) then (-2.0)%Q
  else if Qlt_le_dec 2.0 x then 2.0%Q else x.

(* history[-10:] *)
Definition last10 {A} (l : list A) : list A := drop (length l - 10) l.

Definition _update_spsa_parameters (config : SPSAConfig) : M unit :=
  count_update_call ;;;
  b <- get_self ;;
  if (length (history b) <? 10)%nat then ret tt
  else
    let alpha := alpha config in
    let beta := beta config in
    loss <- _calculate_loss (last10 (history b)) ;;
    delta <- ask (random_signs (length (theta b))) ;;
    let theta_plus := zip_with Qplus (theta b) (map (Qmult beta) delta) in
    let theta_minus := zip_with Qminus (theta b) (map (Qmult beta) delta) in
    loss_plus <- _simulate_loss theta_plus ;;
    loss_minus <- _simulate_loss theta_minus ;;
    let grad_approx := map (Qmult ((loss_plus - loss_minus) / (2 * beta))) delta in
    let stepped := zip_with Qminus (theta b) (map (Qmult alpha) grad_approx) in
    modify_self (set_theta (map clip stepped)).

(** *** process_task *)

Definition _update_average_load (b : Broker) : Broker :=
  let st := performance_stats b in
  if (0 <? total_tasks st)%nat
  then set_stats (mkStats (total_tasks st) (successful_tasks st) (total_time st)
                          (load b / inject_Z (Z.of_nat (total_tasks st)))) b
  else b.

Definition completed_result (ex : Executor) (total : Q) (success : bool)
    : list (string * pyval) :=
  [("status", PyStr "completed"); ("executor_id", PyStr (executor_id ex));
   ("execution_time", PyNum total); ("success", PyBool success)]%string.

Definition failed_result (elapsed : Q) : list (string * pyval) :=
  [("status", PyStr "failed"); ("error", PyStr "No available executor");
   ("execution_time", PyNum elapsed)]%string.

Definition error_result (e : exn) (elapsed : Q) : list (string * pyval) :=
  [("status", PyStr "error"); ("error", PyStr (exn_message e));
   ("execution_time", PyNum elapsed)]%string.

(* the body of the try statement of process_task *)
Definition try_body (config : SPSAConfig) (task_dict : Task) (start_time : Q)
    : M (list (string * pyval)) :=
  selected_executor <- _select_executor task_dict ;;
  match selected_executor with
  | Some ex =>
      execution_time <- ask (uniform 0.5 3.0) ;;
      u <- ask random ;;
      let success := Qltb 0.1 u in
      modify_self (fun b => set_task_count (S (task_count b)) b) ;;;
      modify_self (fun b =>
        let st := performance_stats b in
        set_stats (mkStats (S (total_tasks st)) (successful_tasks st)
                           (total_time st) (average_load st)) b) ;;;
      (if success
       then modify_self (fun b =>
              let st := performance_stats b in
              set_stats (mkStats (total_tasks st) (S (successful_tasks st))
                                 (total_time st) (average_load st)) b)
       else ret tt) ;;;
      now <- ask time_time ;;
      let total := (now - start_time)%Q in
      modify_self (fun b =>
        let st := performance_stats b in
        set_stats (mkStats (total_tasks st) (successful_tasks st)
                           (total_time st + total) (average_load st)) b) ;;;
      modify_self (fun b => set_load (load b + execution_time * 0.1)%Q b) ;;;
      modify_self _update_average_load ;;;
      let result := completed_result ex total success in
      modify_self (fun b =>
        set_history (history b ++ [(task_dict, result, execution_time)]) b) ;;;
      b <- get_self ;;
      (if (10 <=? length (history b))%nat
       then _update_spsa_parameters config else ret tt) ;;;
      ret result
  | None =>
      now <- ask time_time ;;
      ret (failed_result (now - start_time)%Q)
  end.

(* the except clause of process_task *)
Definition handler (start_time : Q) (e : exn) : M (list (string * pyval)) :=
  now <- ask time_time ;;
  ret (error_result e (now - start_time)%Q).

Definition process_task (config : SPSAConfig) (task_dict : Task)
    : M (list (string * pyval)) :=
  start_time <- ask time_time ;;
  try_except (try_body config task_dict start_time) (handler start_time).

(* the tasks of a list, one after the other; the results in order *)
Fixpoint process_tasks (config : SPSAConfig) (tasks : list Task)
    : M (list (list (string * pyval))) :=
  match tasks with
  | [] => ret []
  | t :: tasks' =>
      r <- process_task config t ;;
      rs <- process_tasks config tasks' ;;
      ret (r :: rs)
  end.

(* result['status'] *)
Definition status (result : list (string * pyval)) : option pyval :=
  PyDict.get "status"%string result.

(** *** balance_load

    The brokers live in a pool; [neighbors] holds places in it, so that
    the load read from a neighbour is its current load. *)

(* [neighbor.load for neighbor in self.neighbors] *)
Definition neighbor_loads (pool : list Broker) (b : Broker) : list Q :=
  omap (fun j => load <$> pool !! j) (neighbors b).

(* np.mean *)
Definition mean (l : list Q) : Q := (vsum l / inject_Z (Z.of_nat (length l)))%Q.

(* max(0, x) *)
Definition max0 (x : Q) : Q := if Qlt_le_dec 0 x then x else 0%Q.

Definition balance_load (config : LVPConfig) (pool : list Broker) (b : Broker) : Broker :=
  match neighbors b with
  | [] => b
  | _ :: _ =>
      let h := h config in
      let gamma := gamma config in
      match neighbor_loads pool b with
      | [] => b
      | (_ :: _) as loads =>
          let avg_neighbor_load := mean loads in
          let load_difference := (load b - avg_neighbor_load)%Q in
          let load_adjustment := (- h * load_difference - gamma * load_difference)%Q in
          set_load (max0 (load b + load_adjustment * 0.1)%Q) b
      end
  end.

(** *** add_neighbor and get_performance_stats *)

Definition set_neighbors (ns : list nat) (b : Broker) : Broker :=
  mkBroker (broker_id b) (executors b) (load b) (task_count b) (history b)
           (performance_stats b) (theta b) ns.

(* add_neighbor; the argument is the place of the neighbour in the pool *)
Definition add_neighbor (neighbor_broker : nat) (b : Broker) : Broker :=
  if bool_decide (neighbor_broker ∈ neighbors b) then b
  else set_neighbors (neighbors b ++ [neighbor_broker]) b.

(* self.performance_stats as the dictionary it is *)
Definition stats_dict (st : Stats) : list (string * pyval) :=
  [("total_tasks", PyNum (inject_Z (Z.of_nat (total_tasks st))));
   ("successful_tasks", PyNum (inject_Z (Z.of_nat (successful_tasks st))));
   ("total_time", PyNum (total_time st));
   ("average_load", PyNum (average_load st))]%string.

Definition get_performance_stats (b : Broker) : list (string * pyval) :=
  let st := performance_stats b in
  let stats := stats_dict st in
  if (0 <? total_tasks st)%nat then
    let total := inject_Z (Z.of_nat (total_tasks st)) in
    let stats1 := PyDict.set "success_rate"%string
                    (PyNum (inject_Z (Z.of_nat (successful_tasks st)) / total * 100)%Q)
                    stats in
    PyDict.set "average_execution_time"%string (PyNum (total_time st / total)%Q) stats1
  else
    let stats1 := PyDict.set "success_rate"%string (PyNum 0.0) stats in
    PyDict.set "average_execution_time"%string (PyNum 0.0) stats1.


(** *** Frames of a computation *)

(* [m] may draw from the oracles; it writes neither the broker nor the
   ghost counter, whether it returns or raises *)
Definition reads_only {A} (m : M A) : Prop :=
  ∀ w, self (m w).2 = self w ∧ update_calls (m w).2 = update_calls w.

(* [m] writes neither the history nor the ghost counter *)
Definition keeps {A} (m : M A) : Prop :=
  ∀ w, history (self (m w).2) = history (self w)
       ∧ update_calls (m w).2 = update_calls w.

(* every component of a parameter vector within the clipping bounds *)
Definition theta_bounded (th : list Q) : Prop :=
  Forall (fun x => (-2.0 <= x)%Q ∧ (x <= 2.0)%Q) th.

(* the pairs (task, result) of a history, oldest first *)
Definition outcomes (hist : list (Task * list (string * pyval) * Q))
    : list (Task * list (string * pyval)) :=
  (fun h => (h.1.1, h.1.2)) <$> hist.

(** *** The success path of process_task, written out *)


(* lines 172 to 187 of _update_spsa_parameters as a function of theta and
   the random source *)
Definition spsa_step (config : SPSAConfig) (th : list Q) (o : Oracle)
    : list Q * Oracle :=
  let (delta, o1) := random_signs (length th) o in
  let (noise_plus, o2) := uniform 0 0.1 o1 in
  let loss_plus :=
    (vsum (map (fun x => (x ^ 2)%Q)
               (zip_with Qplus th (map (Qmult (beta config)) delta))) * 0.1
     + noise_plus)%Q in
  let (noise_minus, o3) := uniform 0 0.1 o2 in
  let loss_minus :=
    (vsum (map (fun x => (x ^ 2)%Q)
               (zip_with Qminus th (map (Qmult (beta config)) delta))) * 0.1
     + noise_minus)%Q in
  (map clip
       (zip_with Qminus th
          (map (Qmult (alpha config))
               (map (Qmult ((loss_plus - loss_minus) / (2 * beta config))) delta))),
   o3).

(* every recorded result has the key 'success' *)
Definition history_ok (hist : list (Task * list (string * pyval) * Q)) : Prop :=
  Forall (fun h => is_Some (PyDict.get "success"%string h.1.2)) hist.

(* what lines 74 to 95 of process_task write into the broker *)
Definition record_outcome (task_dict : Task) (result : list (string * pyval))
    (execution_time total : Q) (success : bool) (b : Broker) : Broker :=
  let st := performance_stats b in
  let st' := mkStats (S (total_tasks st))
                     (if success then S (successful_tasks st) else successful_tasks st)
                     (total_time st + total)%Q (average_load st) in
  let b1 := set_load (load b + execution_time * 0.1)%Q
                     (set_stats st' (set_task_count (S (task_count b)) b)) in
  set_history (history b ++ [(task_dict, result, execution_time)])
              (_update_average_load b1).

(* the state a broker is in after __init__ and any number of tasks *)
Definition broker_ok (b : Broker) : Prop :=
  length (theta b) = length (executors b) ∧
  theta_bounded (theta b) ∧
  history_ok (history b) ∧
  length (history b) = task_count b ∧
  total_tasks (performance_stats b) = task_count b ∧
  (successful_tasks (performance_stats b) ≤ total_tasks (performance_stats b))%nat.

(** *** Sample data *)

Definition sample_executors (n : nat) : list Executor :=
  (fun i => mkExecutor ("executor_" +:+ pretty i)) <$> seq 0 n.

Definition sample_task : Task :=
  mkTask (Some (PyNum 8)) (Some (PyNum 3)) (Some "hello"%string).

(* a broker with n executors and theta = 0, on an oracle whose draws are
   all 0.5 *)
Definition sample_world (n : nat) : World :=
  mkWorld (mkBroker "broker_0" (sample_executors n) 0.0 0 [] (mkStats 0 0 0.0 0.0)
                    (replicate n 0%Q) [])
          (replay [] 0.5%Q) 0.

(* the same broker after ten completed tasks, before any update of theta,
   on an oracle whose next draws are 0.5, 0.5, 0 *)
Definition sample_world_ten : World :=
  let entry := (sample_task,
                completed_result (mkExecutor "executor_0") 1 true, 1.75%Q) in
  mkWorld (mkBroker "broker_0" (sample_executors 1) 0.0 10 (replicate 10 entry)
                    (mkStats 10 10 10 0.0) [0%Q] [])
          (replay [0.5; 0.5; 0]%Q 0%Q) 0.

(* as sample_world_ten, with ten failed tasks of another duration *)
Definition sample_world_ten_failed : World :=
  let entry := (sample_task,
                completed_result (mkExecutor "executor_0") 2 false, 3.0%Q) in
  mkWorld (mkBroker "broker_0" (sample_executors 1) 0.0 10 (replicate 10 entry)
                    (mkStats 10 0 20 0.0) [0%Q] [])
          (replay [0.5; 0.5; 0]%Q 0%Q) 0.

(* two brokers that are each other's neighbour, with loads 1 and 3 *)
Definition sample_pool : list Broker :=
  [mkBroker "broker_0" (sample_executors 4) 1.0 0 [] (mkStats 0 0 0.0 0.0)
            (replicate 4 0%Q) [1%nat];
   mkBroker "broker_1" (sample_executors 4) 3.0 0 [] (mkStats 0 0 0.0 0.0)
            (replicate 4 0%Q) [0%nat]].

End Controller.

(** * Properties *)

(** ** Ordered dictionaries: lookup after update *)

Module PyDictFacts.
Section Facts.
Context {K V : Type} `{EqDecision K}.
Implicit Types (d : list (K * V)) (k : K) (v : V).

Lemma get_set_eq d k v : PyDict.get k (PyDict.set k v d) = Some v.
Proof.
  induction d as [|[k' v'] d IH]; simpl.
  - by rewrite decide_True.
  - destruct (decide (k' = k)) as [->|Hne]; simpl.
    + by rewrite decide_True.
    + by rewrite decide_False.
Qed.

Lemma get_set_ne d k k' v :
  k ≠ k' → PyDict.get k' (PyDict.set k v d) = PyDict.get k' d.
Proof.
  intros Hne. induction d as [|[k0 v0] d IH]; simpl.
  - by rewrite decide_False.
  - destruct (decide (k0 = k)) as [->|Hk]; simpl.
    + by rewrite !decide_False.
    + destruct (decide (k0 = k')); [done | exact IH].
Qed.

Lemma get_set d k k' v :
  PyDict.get k' (PyDict.set k v d)
  = if decide (k = k') then Some v else PyDict.get k' d.
Proof.
  destruct (decide (k = k')) as [->|Hne].
  - apply get_set_eq.
  - by apply get_set_ne.
Qed.

Lemma get_None_keys d k : PyDict.get k d = None ↔ k ∉ PyDict.keys d.
Proof.
  induction d as [|[k' v'] d IH]; simpl.
  - split; [intros _; apply not_elem_of_nil | done].
  - destruct (decide (k' = k)) as [->|Hne].
    + split; [done | intros Hn; exfalso; apply Hn; left].
    + rewrite IH, not_elem_of_cons. split; [by intros | by intros [_ ?]].
Qed.

Lemma get_Some_keys d k v : PyDict.get k d = Some v → k ∈ PyDict.keys d.
Proof.
  intros Hg. destruct (decide (k ∈ PyDict.keys d)) as [|Hn]; [done|].
  apply get_None_keys in Hn. congruence.
Qed.

Lemma keys_set_in d k v :
  k ∈ PyDict.keys d → PyDict.keys (PyDict.set k v d) = PyDict.keys d.
Proof.
  induction d as [|[k' v'] d IH]; simpl.
  - intros Hin. by apply elem_of_nil in Hin.
  - intros Hin. destruct (decide (k' = k)) as [->|Hne]; simpl; [done|].
    f_equal. apply IH. apply elem_of_cons in Hin as [->|]; done.
Qed.

Lemma keys_set_notin d k v :
  k ∉ PyDict.keys d → PyDict.keys (PyDict.set k v d) = PyDict.keys d ++ [k].
Proof.
  induction d as [|[k' v'] d IH]; simpl; [done|].
  intros Hn. apply not_elem_of_cons in Hn as [Hne Hn].
  rewrite decide_False by done. simpl. f_equal. by apply IH.
Qed.

Lemma NoDup_keys_set d k v :
  NoDup (PyDict.keys d) → NoDup (PyDict.keys (PyDict.set k v d)).
Proof.
  intros Hnd. destruct (decide (k ∈ PyDict.keys d)) as [Hin|Hn].
  - by rewrite keys_set_in.
  - rewrite keys_set_notin by done. apply NoDup_app. split_and!; [done| |].
    + intros x Hx Hx'. apply list_elem_of_singleton in Hx'. by subst.
    + apply NoDup_singleton.
Qed.

Lemma keys_del_subseteq d k : PyDict.keys (PyDict.del k d) ⊆ PyDict.keys d.
Proof.
  induction d as [|[k' v'] d IH]; simpl; [done|].
  destruct (decide (k' = k)); simpl.
  - intros x Hx. by right.
  - intros x Hx. apply elem_of_cons in Hx as [->|Hx]; [left | right; by apply IH].
Qed.

Lemma NoDup_keys_del d k :
  NoDup (PyDict.keys d) → NoDup (PyDict.keys (PyDict.del k d)).
Proof.
  induction d as [|[k' v'] d IH]; simpl; [done|].
  intros Hnd. apply NoDup_cons in Hnd as [Hn Hnd].
  destruct (decide (k' = k)); simpl; [done|].
  apply NoDup_cons. split; [|by apply IH].
  intros Hin. apply Hn. by apply (keys_del_subseteq d k).
Qed.

Lemma get_del_eq d k :
  NoDup (PyDict.keys d) → PyDict.get k (PyDict.del k d) = None.
Proof.
  induction d as [|[k' v'] d IH]; simpl; [done|].
  intros Hnd. apply NoDup_cons in Hnd as [Hn Hnd].
  destruct (decide (k' = k)) as [->|Hne]; simpl.
  - by apply get_None_keys.
  - rewrite decide_False by done. by apply IH.
Qed.

Lemma get_del_ne d k k' :
  k ≠ k' → PyDict.get k' (PyDict.del k d) = PyDict.get k' d.
Proof.
  intros Hne. induction d as [|[k0 v0] d IH]; simpl; [done|].
  destruct (decide (k0 = k)) as [->|Hk]; simpl.
  - by rewrite decide_False.
  - destruct (decide (k0 = k')); [done | exact IH].
Qed.

Lemma del_absent d k : PyDict.get k d = None → PyDict.del k d = d.
Proof.
  induction d as [|[k' v'] d IH]; simpl; [done|].
  destruct (decide (k' = k)); [done|]. intros Hg. f_equal. by apply IH.
Qed.

Lemma keys_map_values (f : V → V) d :
  PyDict.keys (PyDict.map_values f d) = PyDict.keys d.
Proof.
  unfold PyDict.keys, PyDict.map_values. rewrite map_map. by apply map_ext.
Qed.

Lemma get_map_values (f : V → V) d k :
  PyDict.get k (PyDict.map_values f d) = f <$> PyDict.get k d.
Proof.
  induction d as [|[k' v'] d IH]; simpl; [done|].
  destruct (decide (k' = k)); [done | exact IH].
Qed.
End Facts.
End PyDictFacts.

(** ** The random source *)

Module RandFacts.
Import Rand.

Lemma choice_elem {A} (x : A) (xs : list A) (o : Oracle) :
  (choice x xs o).1 ∈ x :: xs.
Proof.
  unfold choice, random. cbv beta iota zeta. cbn [fst].
  generalize (randbelow (S (length xs)) (tape o (cursor o))). intros k.
  destruct (decide (k < length (x :: xs))%nat) as [Hlt|Hge].
  - apply list_elem_of_In, nth_In. exact Hlt.
  - rewrite nth_overflow by lia. left.
Qed.

End RandFacts.

(** ** The connectivity graph *)

Module GraphFacts.
Import Graph.

(** *** The weight table *)

Lemma get_set_both i j w d a b :
  PyDict.get (a, b) (set_both i j w d)
  = if decide ((a, b) = (i, j) ∨ (a, b) = (j, i)) then Some w
    else PyDict.get (a, b) d.
Proof.
  unfold set_both. rewrite !PyDictFacts.get_set.
  repeat case_decide; naive_solver.
Qed.

Lemma weights_ok_set_both i j w d : weights_ok d → weights_ok (set_both i j w d).
Proof.
  intros [Hnd Hsym]. split.
  - unfold set_both. by do 2 apply PyDictFacts.NoDup_keys_set.
  - intros a b. rewrite !get_set_both, Hsym.
    repeat case_decide; naive_solver.
Qed.

Lemma weights_ok_decay (f : Q → Q) d : weights_ok d → weights_ok (PyDict.map_values f d).
Proof.
  intros [Hnd Hsym]. split.
  - by rewrite PyDictFacts.keys_map_values.
  - intros a b. by rewrite !PyDictFacts.get_map_values, Hsym.
Qed.

Lemma guarded_del (k : nat * nat) (d : list ((nat * nat) * Q)) :
  (if PyDict.mem k d then PyDict.del k d else d) = PyDict.del k d.
Proof.
  unfold PyDict.mem. destruct (PyDict.get k d) eqn:Hg; [done|].
  symmetry. by apply PyDictFacts.del_absent.
Qed.

Lemma get_del_both i j d a b :
  NoDup (PyDict.keys d) →
  PyDict.get (a, b) (del_both i j d)
  = if decide ((a, b) = (i, j) ∨ (a, b) = (j, i)) then None
    else PyDict.get (a, b) d.
Proof.
  intros Hnd. unfold del_both. rewrite !guarded_del.
  destruct (decide ((a, b) = (j, i))) as [->|Hne1].
  - rewrite PyDictFacts.get_del_eq by by apply PyDictFacts.NoDup_keys_del.
    by rewrite decide_True by by right.
  - rewrite PyDictFacts.get_del_ne by done.
    destruct (decide ((a, b) = (i, j))) as [->|Hne2].
    + rewrite PyDictFacts.get_del_eq by done. by rewrite decide_True by by left.
    + rewrite PyDictFacts.get_del_ne by done.
      rewrite decide_False; [done | naive_solver].
Qed.

Lemma weights_ok_del_both i j d : weights_ok d → weights_ok (del_both i j d).
Proof.
  intros [Hnd Hsym]. split.
  - unfold del_both. rewrite !guarded_del. by do 2 apply PyDictFacts.NoDup_keys_del.
  - intros a b. rewrite !get_del_both, Hsym by done.
    repeat case_decide; naive_solver.
Qed.

(** *** Edge operations leave the weights alone *)

Lemma weights_add_edge i j g : weights (_add_edge i j g) = weights g.
Proof. unfold _add_edge. repeat case_match; done. Qed.

Lemma weights_remove_edge i j g : weights (_remove_edge i j g) = weights g.
Proof. unfold _remove_edge. repeat case_match; done. Qed.

Lemma weights_random_connections ps g o :
  weights (random_connections ps g o).1 = weights g.
Proof.
  revert g o. induction ps as [|[i j] ps IH]; intros g o; simpl; [done|].
  rewrite IH. case_match; [apply weights_add_edge | done].
Qed.

Lemma weights_ensure_node fuel i g o :
  weights (ensure_node fuel i g o).1 = weights g.
Proof.
  revert g o. induction fuel as [|fuel IH]; intros g o; simpl; [done|].
  case_match; [|done]. destruct (connect_candidates g i) as [|c cs]; [done|].
  destruct (Rand.choice c cs o) as [j o1]. rewrite IH. apply weights_add_edge.
Qed.

Lemma weights_ensure_nodes nodes g o :
  weights (ensure_nodes nodes g o).1 = weights g.
Proof.
  revert g o. induction nodes as [|i nodes IH]; intros g o; simpl; [done|].
  destruct (ensure_node (min_neighbors g) i g o) as [g1 o1] eqn:E.
  rewrite IH. change g1 with (g1, o1).1. rewrite <- E. apply weights_ensure_node.
Qed.

Lemma weights_ok_init_weight degrees i j d :
  weights_ok d → weights_ok (init_weight degrees i j d).
Proof.
  intros Hok. unfold init_weight. case_match; [|done].
  by apply weights_ok_set_both.
Qed.

Lemma weights_ok_initialize g :
  weights_ok (weights g) → weights_ok (weights (_initialize_weights g)).
Proof.
  intros Hok. unfold _initialize_weights. simpl.
  generalize (seq 0 (num_brokers g)) at 2. intros rows.
  revert Hok. generalize (weights g) as d.
  induction rows as [|i rows IH]; intros d Hok; simpl; [done|].
  apply IH. revert d Hok.
  induction (nbrs g i) as [|j l IHl]; intros d Hok; simpl; [done|].
  apply IHl. by apply weights_ok_init_weight.
Qed.

Lemma weights_ok_init n o : weights_ok (weights (init n o).1).
Proof.
  unfold init, _generate_initial_graph.
  match goal with |- context [random_connections ?ps ?g ?o] =>
    pose proof (weights_random_connections ps g o) as Hw;
    destruct (random_connections ps g o) as [g1 o1] end.
  unfold _ensure_connectivity.
  pose proof (weights_ensure_nodes (seq 0 (num_brokers g1)) g1 o1) as Hw2.
  destruct (ensure_nodes (seq 0 (num_brokers g1)) g1 o1) as [g2 o2].
  simpl in *. apply weights_ok_initialize. rewrite Hw2, Hw.
  split; [apply NoDup_nil_2 | done].
Qed.

Lemma weights_ok_add g o :
  weights_ok (weights g) → weights_ok (weights (_add_random_edge g o).1).
Proof.
  intros Hok. unfold _add_random_edge.
  destruct (add_candidates g) as [|c cs]; [done|].
  destruct (Rand.choice c cs o) as [[i j] o1].
  destruct (Rand.uniform 0.1 1.0 o1) as [w o2]. simpl.
  apply weights_ok_set_both. by rewrite weights_add_edge.
Qed.

Lemma weights_ok_remove g o :
  weights_ok (weights g) → weights_ok (weights (_remove_random_edge g o).1).
Proof.
  intros Hok. unfold _remove_random_edge.
  destruct (remove_candidates g) as [|c cs]; [done|].
  destruct (Rand.choice c cs o) as [[i j] o1]. simpl.
  rewrite weights_remove_edge. by apply (weights_ok_del_both i j).
Qed.

Lemma weights_ok_modify g o :
  weights_ok (weights g) → weights_ok (weights (_modify_random_weight g o).1).
Proof.
  intros Hok. unfold _modify_random_weight.
  destruct (PyDict.keys (weights g)) as [|e es] eqn:Hk; [done|].
  pose proof (RandFacts.choice_elem e es o) as Hin.
  destruct (Rand.choice e es o) as [[a b] o1].
  destruct (Rand.uniform 0.1 1.0 o1) as [w o2]. simpl in *.
  rewrite <- Hk in Hin.
  assert (PyDict.mem (b, a) (PyDict.set (a, b) w (weights g)) = true) as ->.
  { unfold PyDict.mem. rewrite PyDictFacts.get_set. case_decide; [done|].
    destruct Hok as [_ Hsym]. rewrite (Hsym b a).
    destruct (PyDict.get (a, b) (weights g)) eqn:Hg; [done|].
    by apply PyDictFacts.get_None_keys in Hg. }
  by apply (weights_ok_set_both a b).
Qed.

Lemma weights_ok_reachable g : reachable g → weights_ok (weights g).
Proof.
  induction 1.
  - apply weights_ok_init.
  - by apply weights_ok_decay.
  - by apply weights_ok_add.
  - by apply weights_ok_remove.
  - by apply weights_ok_modify.
Qed.

Lemma reachable_update_graph g o : reachable g → reachable (update_graph g o).1.
Proof.
  intros Hr. unfold update_graph.
  destruct (Rand.random o) as [u o1]. case_match; [|by apply reach_decay].
  unfold _random_graph_modification.
  destruct (Rand.choice Add [Remove; ModifyWeight] o1) as [[] o2];
    constructor; by apply reach_decay.
Qed.

Lemma reachable_ticks k g o : reachable g → reachable (ticks k g o).1.
Proof.
  revert g o. induction k as [|k IH]; intros g o Hr; simpl; [done|].
  pose proof (reachable_update_graph g o Hr) as Hu.
  destruct (update_graph g o) as [g1 o1]. by apply IH.
Qed.

(** C8.  Weight symmetry: in the graph built by the constructor and in
    every graph obtained from it by decay passes, edge additions, edge
    removals and reweightings, the entries (i, j) and (j, i) of the weight
    table are both absent or both present with the same weight, so that
    weight(i, j) = weight(j, i). *)
Theorem weight_symmetry g :
  reachable g →
  ∀ i j, PyDict.get (i, j) (weights g) = PyDict.get (j, i) (weights g)
         ∧ get_weight g i j = get_weight g j i.
Proof.
  intros Hr i j. destruct (weights_ok_reachable g Hr) as [_ Hsym].
  split; [apply Hsym|]. unfold get_weight. by rewrite Hsym.
Qed.

Lemma weight_symmetry_witness :
  let g := (_add_random_edge (decay_weights (init 4 (Rand.replay [] 0.9%Q)).1)
                             (Rand.replay [] 0.9%Q)).1 in
  PyDict.get (0, 1)%nat (weights g) = PyDict.get (1, 0)%nat (weights g)
  ∧ get_weight g 0 1 = get_weight g 1 0.
Proof.
  apply (weight_symmetry _ (reach_add _ _ (reach_decay _ (reach_init 4 _)))).
Defined.

(** C2, at the input on which the code breaks the degree bound: seven
    brokers and draws that are all below edge_probability.  The first
    loop of _generate_initial_graph adds every edge without looking at
    max_neighbors, and node 0 ends with six neighbours, one more than
    max_neighbors = 5. *)
Theorem initial_graph_exceeds_max_neighbors :
  let g := (init 7 (Rand.replay [] 0%Q)).1 in
  degree g 0 = 6%nat ∧ max_neighbors g = 5%nat ∧ (0 < degree g 0)%nat.
Proof. vm_compute. split_and!; [reflexivity | reflexivity | lia]. Qed.

End GraphFacts.

(** ** The consensus update *)

Module ConsensusFacts.
Import Graph Consensus.

Lemma consensus_loop_app g c l1 l2 (d : list (nat * option (list Q))) :
  consensus_loop g c (l1 ++ l2) d
  = consensus_loop g c l1 d ≫= consensus_loop g c l2.
Proof.
  revert d. induction l1 as [|i l1 IH]; intros d; simpl; [done|].
  destruct (consensus_step g c d i) as [d1|]; simpl; [apply IH | done].
Qed.

Lemma consensus_step_other g c (d d1 : list (nat * option (list Q))) i j :
  consensus_step g c d i = Some d1 → j ≠ i → PyDict.get j d1 = PyDict.get j d.
Proof.
  unfold consensus_step. intros Hs Hne.
  destruct (get_neighbors g i); [by inversion Hs|].
  destruct (PyDict.get i d) as [[th|]|]; try by inversion Hs.
  destruct (updated_theta g c d i th) as [th'|]; simpl in Hs; [|done].
  inversion Hs. by rewrite PyDictFacts.get_set_ne.
Qed.

Lemma consensus_loop_other g c l (d d' : list (nat * option (list Q))) j :
  consensus_loop g c l d = Some d' → j ∉ l → PyDict.get j d' = PyDict.get j d.
Proof.
  revert d. induction l as [|i l IH]; intros d Hl Hj; simpl in Hl.
  - by inversion Hl.
  - apply not_elem_of_cons in Hj as [Hne Hj].
    destruct (consensus_step g c d i) as [d1|] eqn:Hs; simpl in Hl; [|done].
    rewrite (IH d1 Hl Hj). by apply (consensus_step_other g c d d1 i).
Qed.

(** C1, as the code has it.  consensus_update handles the brokers one
    after the other in the order of the dictionary.  The broker at place
    [i], after the brokers [pre], gets its correction from the table [dm]
    that holds the vectors already written for the brokers of [pre] and
    the entry vectors of all the others, and the corrected vector is
    stored at once. *)
Theorem consensus_update_sequential g c (d d' : list (nat * option (list Q)))
    pre i post theta_i :
  NoDup (PyDict.keys d) →
  consensus_update g d c = Some d' →
  PyDict.keys d = pre ++ i :: post →
  PyDict.get i d = Some (Some theta_i) →
  get_neighbors g i ≠ [] →
  ∃ dm th,
    (∀ j, j ∈ pre → PyDict.get j dm = PyDict.get j d') ∧
    (∀ j, j ∉ pre → PyDict.get j dm = PyDict.get j d) ∧
    updated_theta g c dm i theta_i = Some th ∧
    PyDict.get i d' = Some (Some th).
Proof.
  intros Hnd Hrun Hkeys Hget Hnb. unfold consensus_update in Hrun.
  rewrite Hkeys in Hrun, Hnd. rewrite consensus_loop_app in Hrun.
  apply NoDup_app in Hnd as (Hpre & Hdisj & Hrest).
  apply NoDup_cons in Hrest as [Hipost Hpost].
  destruct (consensus_loop g c pre d) as [dm|] eqn:Hdm; simpl in Hrun; [|done].
  destruct (consensus_step g c dm i) as [di|] eqn:Hstep; simpl in Hrun; [|done].
  assert (i ∉ pre) as Hipre by (intros Hin; apply (Hdisj i Hin); left).
  assert (PyDict.get i dm = Some (Some theta_i)) as Hgm.
  { by rewrite (consensus_loop_other g c pre d dm i Hdm Hipre). }
  pose proof Hstep as Hstep'. unfold consensus_step in Hstep. rewrite Hgm in Hstep.
  destruct (get_neighbors g i) as [|n ns]; [done|].
  destruct (updated_theta g c dm i theta_i) as [th|] eqn:Hth; simpl in Hstep; [|done].
  inversion Hstep as [Hdi]. exists dm, th. split_and!.
  - intros j Hj.
    assert (j ≠ i) as Hji by (intros ->; done).
    assert (j ∉ post) as Hjp by (intros Hin; apply (Hdisj j Hj); by right).
    rewrite (consensus_loop_other g c post di d' j Hrun Hjp).
    rewrite <- Hdi. by rewrite PyDictFacts.get_set_ne.
  - intros j Hj. by apply (consensus_loop_other g c pre d dm j).
  - done.
  - rewrite (consensus_loop_other g c post di d' i Hrun Hipost).
    rewrite <- Hdi. apply PyDictFacts.get_set_eq.
Qed.

Lemma consensus_update_sequential_witness :
  let d' := default [] (consensus_update two_brokers thetas01 0.02) in
  ∃ dm th,
    (∀ j, j ∈ [0%nat] → PyDict.get j dm = PyDict.get j d') ∧
    (∀ j, j ∉ [0%nat] → PyDict.get j dm = PyDict.get j thetas01) ∧
    updated_theta two_brokers 0.02 dm 1 [1%Q] = Some th ∧
    PyDict.get 1%nat d' = Some (Some th).
Proof.
  apply (consensus_update_sequential two_brokers 0.02 thetas01 _ [0%nat] 1%nat [] [1%Q]).
  - vm_compute. repeat constructor; set_solver.
  - vm_compute. reflexivity.
  - reflexivity.
  - reflexivity.
  - vm_compute. discriminate.
Defined.

(** C1, refuted as stated.  With two connected brokers holding [0] and
    [1], the vector stored for broker 1 is not the one computed from the
    vectors on entry (broker 0 has been overwritten before it is read),
    and handling the brokers in the other order gives another result. *)
Lemma consensus_update_not_snapshot :
  ∃ d01 d10,
    consensus_update two_brokers thetas01 0.02 = Some d01 ∧
    consensus_update two_brokers thetas10 0.02 = Some d10 ∧
    ¬ (first_theta (PyDict.get 1%nat d01)
       == first_theta (snapshot_theta two_brokers 0.02 thetas01 1))%Q ∧
    ¬ (first_theta (PyDict.get 1%nat d01) == first_theta (PyDict.get 1%nat d10))%Q.
Proof.
  eexists _, _. split_and!.
  - vm_compute. reflexivity.
  - vm_compute. reflexivity.
  - vm_compute. discriminate.
  - vm_compute. discriminate.
Qed.

End ConsensusFacts.

(** ** The broker *)

Module ControllerFacts.
Import Rand Controller.

(** *** Computations that leave the broker alone *)

Lemma reads_only_ret {A} (a : A) : reads_only (ret a).
Proof. by intros w. Qed.

Lemma reads_only_raise {A} (e : exn) : reads_only (@raise A e).
Proof. by intros w. Qed.

Lemma reads_only_get_self : reads_only get_self.
Proof. by intros w. Qed.

Lemma reads_only_ask {A} (f : Oracle → A * Oracle) : reads_only (ask f).
Proof. intros w. unfold ask. by destruct (f (oracle w)). Qed.

Lemma reads_only_bind {A B} (m : M A) (k : A → M B) :
  reads_only m → (∀ a, reads_only (k a)) → reads_only (bind m k).
Proof.
  intros Hm Hk w. unfold bind. specialize (Hm w).
  destruct (m w) as [[a|e] w1]; simpl in *; [|done].
  destruct (Hk a w1) as [H1 H2]. destruct Hm as [H3 H4]. split; congruence.
Qed.

Create HintDb frame.
#[local] Hint Resolve reads_only_ret reads_only_raise reads_only_get_self
  reads_only_ask : frame.

Ltac frame := repeat first
  [ apply reads_only_bind; [|intros ?]
  | solve [eauto with frame]
  | match goal with |- reads_only (if ?c then _ else _) => destruct c end
  | match goal with |- reads_only (match ?x with _ => _ end) => destruct x end ].

Lemma reads_only_div10 v : reads_only (div10 v).
Proof. destruct v; frame. Qed.

Lemma reads_only_setitem i x f : reads_only (setitem i x f).
Proof. unfold setitem. frame. Qed.

#[local] Hint Resolve reads_only_div10 reads_only_setitem : frame.

Lemma reads_only_fill_random idx f : reads_only (fill_random idx f).
Proof. revert f. induction idx as [|i idx IH]; intros f; simpl; frame. Qed.

#[local] Hint Resolve reads_only_fill_random : frame.

Lemma reads_only_extract_features t : reads_only (_extract_features t).
Proof. unfold _extract_features. frame. Qed.

Lemma reads_only_dot a b : reads_only (dot a b).
Proof. unfold dot. frame. Qed.

#[local] Hint Resolve reads_only_extract_features reads_only_dot : frame.

Lemma reads_only_score_all t exs : reads_only (score_all t exs).
Proof. induction exs as [|ex exs IH]; simpl; frame. Qed.

#[local] Hint Resolve reads_only_score_all : frame.

Lemma reads_only_select_executor t : reads_only (_select_executor t).
Proof. unfold _select_executor. frame. Qed.

Lemma reads_only_total_loss hist acc : reads_only (total_loss hist acc).
Proof.
  revert acc. induction hist as [|[[t r] x] hist IH]; intros acc; simpl; frame.
Qed.

#[local] Hint Resolve reads_only_total_loss : frame.

Lemma reads_only_calculate_loss hist : reads_only (_calculate_loss hist).
Proof. unfold _calculate_loss. frame. Qed.

Lemma reads_only_simulate_loss th : reads_only (_simulate_loss th).
Proof. unfold _simulate_loss. frame. Qed.

Lemma reads_only_handler s e : reads_only (handler s e).
Proof. unfold handler. frame. Qed.

(** *** Feature extraction needs three executors *)

Lemma extract_features_short t w :
  (length (executors (self w)) < 3)%nat →
  ∃ e, _extract_features t w = (Raise e, w).
Proof.
  intros Hlen. unfold _extract_features, bind, get_self.
  destruct (executors (self w)) as [|e1 [|e2 [|e3 l]]]; simpl in Hlen; [| | |lia].
  - destruct (default (PyNum 5) (priority t)); simpl; eauto.
  - destruct (default (PyNum 5) (priority t)); simpl; eauto;
      destruct (default (PyNum 5) (complexity t)); simpl; eauto.
  - destruct (default (PyNum 5) (priority t)); simpl; eauto;
      destruct (default (PyNum 5) (complexity t)); simpl; eauto.
Qed.

Lemma select_executor_short t w :
  (0 < length (executors (self w)) < 3)%nat →
  ∃ e, _select_executor t w = (Raise e, w).
Proof.
  intros [Hpos Hlen]. destruct (extract_features_short t w Hlen) as [e He].
  exists e. unfold _select_executor. unfold bind at 1. unfold get_self at 1.
  destruct (executors (self w)) as [|e1 l]; simpl in Hpos; [lia|].
  unfold bind at 1. simpl score_all. unfold bind at 1. by rewrite He.
Qed.

(** C9.  A broker with one or two executors answers every task with a
    result of status 'error' and stays as it was: selection raises while
    the feature vector is filled, before anything is written. *)
Theorem process_task_short_executor_list config t w :
  length (executors (self w)) = 1%nat ∨ length (executors (self w)) = 2%nat →
  ∃ r w', process_task config t w = (Ok r, w') ∧
          status r = Some (PyStr "error") ∧
          self w' = self w ∧
          theta (self w') = theta (self w) ∧
          history (self w') = history (self w).
Proof.
  intros Hlen. unfold process_task, bind at 1, ask, time_time.
  cbv beta iota zeta.
  set (w1 := mkWorld (self w) _ (update_calls w)).
  set (start := clock (oracle w) (reads (oracle w))).
  destruct (select_executor_short t w1) as [e He]; [simpl; lia|].
  unfold try_except, try_body, bind at 1. rewrite He.
  unfold handler, bind, ask, time_time, ret. cbv beta iota zeta.
  eexists _, _. split; [reflexivity|]. by split_and!.
Qed.

(** *** What a call writes *)

Lemma update_effect config w r w' :
  _update_spsa_parameters config w = (r, w') →
  history (self w') = history (self w) ∧
  executors (self w') = executors (self w) ∧
  update_calls w' = S (update_calls w).
Proof.
  unfold _update_spsa_parameters, bind at 1, count_update_call.
  unfold bind at 1, get_self. cbv beta iota zeta. cbn [self].
  case_match.
  { intros [= <- <-]. done. }
  intros Hrun.
  unfold bind at 1 in Hrun.
  match type of Hrun with context [_calculate_loss ?h ?w0] =>
    destruct (reads_only_calculate_loss h w0) as [Hs Hc];
    destruct (_calculate_loss h w0) as [[l|e] w1] end; cbn [snd self update_calls] in *.
  2:{ injection Hrun as <- <-. rewrite Hs, Hc. done. }
  unfold bind at 1, ask in Hrun.
  destruct (random_signs _ (oracle w1)) as [delta o2].
  unfold bind at 1 in Hrun.
  match type of Hrun with context [_simulate_loss ?h ?w0] =>
    destruct (reads_only_simulate_loss h w0) as [Hs2 Hc2];
    destruct (_simulate_loss h w0) as [[lp|e] w2] end; cbn [snd self update_calls] in *.
  2:{ injection Hrun as <- <-. rewrite Hs2, Hc2, Hs, Hc. done. }
  unfold bind at 1 in Hrun.
  match type of Hrun with context [_simulate_loss ?h ?w0] =>
    destruct (reads_only_simulate_loss h w0) as [Hs3 Hc3];
    destruct (_simulate_loss h w0) as [[lm|e] w3] end; cbn [snd self update_calls] in *.
  2:{ injection Hrun as <- <-. rewrite Hs3, Hc3, Hs2, Hc2, Hs, Hc. done. }
  unfold modify_self in Hrun. injection Hrun as <- <-.
  cbn [snd self update_calls history executors set_theta].
  rewrite Hs3, Hs2, Hs, Hc3, Hc2, Hc. done.
Qed.

Lemma bind_run {A B} (m : M A) (k : A → M B) w r w' :
  bind m k w = (r, w') →
  (∃ a w1, m w = (Ok a, w1) ∧ k a w1 = (r, w'))
  ∨ (∃ e, m w = (Raise e, w') ∧ r = Raise e).
Proof.
  unfold bind. destruct (m w) as [[a|e] w1]; intros Hrun.
  - left. eauto.
  - right. injection Hrun as <- <-. eauto.
Qed.

Lemma keeps_reads_only {A} (m : M A) : reads_only m → keeps m.
Proof. intros Hm w. destruct (Hm w) as [-> ->]. done. Qed.

Lemma keeps_modify (f : Broker → Broker) :
  (∀ b, history (f b) = history b) → keeps (modify_self f).
Proof. intros Hf w. unfold modify_self. cbn. by rewrite Hf. Qed.

Lemma keeps_run {A} (m : M A) w r w1 :
  keeps m → m w = (r, w1) →
  history (self w1) = history (self w) ∧ update_calls w1 = update_calls w.
Proof. intros Hk Hm. specialize (Hk w). by rewrite Hm in Hk. Qed.

Lemma ask_returns {A} (f : Oracle → A * Oracle) w e w' :
  ask f w = (Raise e, w') → False.
Proof. unfold ask. by destruct (f (oracle w)). Qed.

Lemma modify_returns f w e w' : modify_self f w = (Raise e, w') → False.
Proof. done. Qed.

Lemma length_history_average b :
  history (_update_average_load b) = history b.
Proof. unfold _update_average_load. by case_match. Qed.


(* one step of a run whose first action keeps the history and returns *)
Ltac keep_step H w1 Hk :=
  let Hm := fresh "Hstep" in
  apply bind_run in H as [(? & w1 & Hm & H) | (? & Hm & _)];
  [ apply keeps_run in Hm;
    [ rename Hm into Hk
    | first [ apply keeps_modify; intros ?;
              first [ apply length_history_average | done ]
            | apply keeps_reads_only; eauto with frame ] ]
  | exfalso; first [ by apply ask_returns in Hm | by apply modify_returns in Hm ] ].

Lemma try_body_spec config t s w r w' :
  try_body config t s w = (r, w') →
  match r with
  | Ok res =>
      (status res = Some (PyStr "failed") ∧ self w' = self w ∧
       update_calls w' = update_calls w)
      ∨ (status res = Some (PyStr "completed") ∧
         ∃ x, history (self w') = history (self w) ++ [(t, res, x)] ∧
              update_calls w'
              = (update_calls w
                 + (if (10 <=? S (length (history (self w))))%nat then 1 else 0))%nat)
  | Raise e =>
      (self w' = self w ∧ update_calls w' = update_calls w)
      ∨ (∃ res x, history (self w') = history (self w) ++ [(t, res, x)] ∧
                  update_calls w' = S (update_calls w) ∧
                  (10 ≤ S (length (history (self w))))%nat)
  end.
Proof.
  unfold try_body. intros Hrun. unfold bind at 1 in Hrun.
  destruct (reads_only_select_executor t w) as [Hs Hc].
  destruct (_select_executor t w) as [[[ex|]|e] w1]; cbn [snd] in Hs, Hc.
  - keep_step Hrun w2 K1. keep_step Hrun w3 K2. keep_step Hrun w4 K3.
    keep_step Hrun w5 K4.
    apply bind_run in Hrun as [(? & w6 & Hm & Hrun) | (? & Hm & _)].
    2:{ destruct (Qltb 0.1 _); [by apply modify_returns in Hm | done]. }
    assert (history (self w6) = history (self w5) ∧ update_calls w6 = update_calls w5)
      as K5.
    { destruct (Qltb 0.1 _); [|by injection Hm as _ <-].
      apply keeps_run in Hm; [done|]. by apply keeps_modify. }
    clear Hm.
    keep_step Hrun w7 K6. keep_step Hrun w8 K7. keep_step Hrun w9 K8.
    keep_step Hrun w10 K9.
    apply bind_run in Hrun as [(? & w11 & Hm & Hrun) | (? & Hm & _)]; [|done].
    inversion Hm; subst; clear Hm.
    apply bind_run in Hrun as [(b & w12 & Hm & Hrun) | (? & Hm & _)]; [|done].
    inversion Hm; subst; clear Hm.
    cbn [self history set_history update_calls] in Hrun.
    assert (history (self w10) = history (self w) ∧ update_calls w10 = update_calls w)
      as [Hh Hk].
    { destruct K1 as [K1a K1b], K2 as [K2a K2b], K3 as [K3a K3b], K4 as [K4a K4b],
        K5 as [K5a K5b], K6 as [K6a K6b], K7 as [K7a K7b], K8 as [K8a K8b],
        K9 as [K9a K9b].
      split; congruence. }
    rewrite length_app, Hh in Hrun. cbn [length] in Hrun.
    replace (length (history (self w)) + 1)%nat with (S (length (history (self w))))
      in Hrun by lia.
    destruct (10 <=? S (length (history (self w))))%nat eqn:Hten.
    + apply bind_run in Hrun as [(? & w13 & Hm & Hrun) | (? & Hm & ->)].
      * apply update_effect in Hm as (Hu1 & _ & Hu3).
        cbn [self history update_calls set_history] in Hu1, Hu3.
        injection Hrun as <- <-. right. split; [done|].
        eexists. split; [exact Hu1 | lia].
      * apply update_effect in Hm as (Hu1 & _ & Hu3).
        cbn [self history update_calls set_history] in Hu1, Hu3.
        right. eexists _, _.
        split_and!; [exact Hu1 | lia | by apply Nat.leb_le].
    + injection Hrun as <- <-. right. split; [done|].
      eexists. cbn [self history update_calls set_history].
      split; [done | lia].
  - unfold bind, ask, ret in Hrun.
    cbv beta iota zeta delta [time_time] in Hrun. injection Hrun as <- <-.
    left. cbn [self update_calls]. by rewrite Hs, Hc.
  - injection Hrun as <- <-. left. by rewrite Hs, Hc.
Qed.


Lemma process_task_run config t w :
  ∃ r w', process_task config t w = (Ok r, w') ∧
    ((status r = Some (PyStr "failed") ∧ self w' = self w ∧
      update_calls w' = update_calls w)
     ∨ (status r = Some (PyStr "completed") ∧
        ∃ x, history (self w') = history (self w) ++ [(t, r, x)] ∧
             update_calls w'
             = (update_calls w
                + (if (10 <=? S (length (history (self w))))%nat then 1 else 0))%nat)
     ∨ (status r = Some (PyStr "error") ∧
        ∃ e w1, try_body config t (clock (oracle w) (reads (oracle w)))
                         (ask time_time w).2 = (Raise e, w1) ∧
                PyDict.get "error"%string r = Some (PyStr (exn_message e)))).
Proof.
  unfold process_task, bind at 1. unfold ask at 1, time_time at 1.
  cbv beta iota zeta. unfold try_except.
  match goal with |- context [try_body config t ?s ?w0] =>
    pose proof (try_body_spec config t s w0) as Hspec;
    destruct (try_body config t s w0) as [[res|e] w1] eqn:Hbody end.
  - specialize (Hspec _ _ eq_refl). cbn [self update_calls] in Hspec.
    eexists _, _. split; [reflexivity|].
    destruct Hspec as [H|H]; [left | right; left]; exact H.
  - unfold handler, bind, ask, time_time, ret. cbv beta iota zeta.
    eexists _, _. split; [reflexivity|]. right. right. split; [done|].
    exists e, w1. split; [|done].
    unfold ask, time_time. cbv beta iota zeta. cbn [snd]. exact Hbody.
Qed.

(** C10.  process_task always returns a result dictionary, never an
    exception; its status is 'completed', 'failed' or 'error'; and when
    the body of the try statement raises, the status is 'error' and the
    field 'error' holds the message of the exception. *)
Theorem process_task_total config t w :
  ∃ r w', process_task config t w = (Ok r, w') ∧
    (status r = Some (PyStr "completed") ∨ status r = Some (PyStr "failed")
     ∨ status r = Some (PyStr "error")) ∧
    (∀ e w1, try_body config t (clock (oracle w) (reads (oracle w)))
                      (ask time_time w).2 = (Raise e, w1) →
             status r = Some (PyStr "error") ∧
             PyDict.get "error"%string r = Some (PyStr (exn_message e))).
Proof.
  destruct (process_task_run config t w) as (r & w' & Hrun & Hcases).
  exists r, w'. split; [exact Hrun|]. split.
  - destruct Hcases as [[H _]|[[H _]|[H _]]]; eauto.
  - intros e w1 Hraise. revert Hrun.
    unfold process_task, bind at 1. unfold ask at 1, time_time at 1.
    cbv beta iota zeta. unfold try_except.
    unfold ask, time_time in Hraise. cbv beta iota zeta in Hraise.
    cbn [snd] in Hraise. rewrite Hraise.
    unfold handler, bind, ask, time_time, ret. cbv beta iota zeta.
    intros [= <- <-]. done.
Qed.

Lemma process_task_short_executor_list_witness :
  ∃ r w', process_task default_spsa_config sample_task (sample_world 2) = (Ok r, w') ∧
          status r = Some (PyStr "error") ∧
          self w' = self (sample_world 2) ∧
          theta (self w') = theta (self (sample_world 2)) ∧
          history (self w') = history (self (sample_world 2)).
Proof.
  apply (process_task_short_executor_list default_spsa_config sample_task (sample_world 2)).
  right. reflexivity.
Defined.

(** *** The trigger of the update *)

Lemma process_tasks_run config tasks w :
  ∃ rs w', process_tasks config tasks w = (Ok rs, w') ∧ length rs = length tasks.
Proof.
  revert w. induction tasks as [|t tasks IH]; intros w; simpl.
  - by eexists _, _.
  - destruct (process_task_run config t w) as (r & w1 & Hr & _).
    destruct (IH w1) as (rs & w2 & Hrs & Hlen).
    exists (r :: rs), w2. unfold bind. rewrite Hr, Hrs. simpl. by rewrite Hlen.
Qed.

(** C3, as the code has it.  Every completed task is appended to the
    history, and the update is called after each completed task that
    leaves at least 10 entries in the history, not only at the multiples
    of 10: after n completed tasks on a broker whose history had h
    entries, the calls number (h + n - 9) - (h - 9), that is n - 9 for a
    fresh broker and n >= 9. *)
Theorem update_called_after_every_task_from_ten config tasks w rs w' :
  process_tasks config tasks w = (Ok rs, w') →
  Forall (λ r, status r = Some (PyStr "completed")) rs →
  outcomes (history (self w')) = outcomes (history (self w)) ++ zip tasks rs ∧
  length (history (self w')) = (length (history (self w)) + length tasks)%nat ∧
  update_calls w'
  = (update_calls w
     + ((length (history (self w)) + length tasks - 9)
        - (length (history (self w)) - 9)))%nat.
Proof.
  revert w rs. induction tasks as [|t tasks IH]; intros w rs Hrun Hall.
  - simpl in Hrun. injection Hrun as <- <-. simpl.
    rewrite app_nil_r. split_and!; [done | lia | lia].
  - simpl in Hrun.
    destruct (process_task_run config t w) as (r & w1 & Hr & Hcases).
    destruct (process_tasks_run config tasks w1) as (rs1 & w2 & Hrs & _).
    unfold bind in Hrun. rewrite Hr, Hrs in Hrun. injection Hrun as <- <-.
    apply Forall_cons in Hall as [Hc Hall].
    destruct Hcases as [[Hf _]|[(_ & x & Hh & Hk)|[He _]]]; [congruence | | congruence].
    destruct (IH w1 rs1 Hrs Hall) as (IH1 & IH2 & IH3).
    assert (length (history (self w1)) = S (length (history (self w)))) as Hlen.
    { rewrite Hh, length_app. simpl. lia. }
    split_and!.
    + rewrite IH1, Hh. unfold outcomes. rewrite fmap_app. simpl.
      by rewrite <- app_assoc.
    + rewrite IH2, Hlen. simpl. lia.
    + rewrite IH3, Hk, Hlen. simpl length.
      destruct (10 <=? S (length (history (self w))))%nat eqn:Hten.
      * apply Nat.leb_le in Hten. lia.
      * apply Nat.leb_gt in Hten. lia.
Qed.

Lemma update_called_after_every_task_from_ten_witness :
  let run := process_tasks default_spsa_config (replicate 11 sample_task)
                           (sample_world 3) in
  let rs := match run.1 with Ok rs => rs | Raise _ => [] end in
  outcomes (history (self run.2)) = [] ++ zip (replicate 11 sample_task) rs ∧
  length (history (self run.2)) = (0 + 11)%nat ∧
  update_calls run.2 = (0 + ((0 + 11 - 9) - (0 - 9)))%nat.
Proof.
  apply (update_called_after_every_task_from_ten default_spsa_config
           (replicate 11 sample_task) (sample_world 3)).
  - vm_compute. reflexivity.
  - vm_compute. repeat constructor.
Defined.

(** C3, refuted as stated.  Eleven tasks on a fresh broker with three
    executors all complete; 11 has reached one multiple of 10, and the
    update has been called twice, after the tenth and after the eleventh
    task. *)
Lemma update_not_only_at_multiples :
  let run := process_tasks default_spsa_config (replicate 11 sample_task)
                           (sample_world 3) in
  (∃ rs, run.1 = Ok rs ∧ Forall (λ r, status r = Some (PyStr "completed")) rs) ∧
  update_frequency default_spsa_config = 10%nat ∧
  (11 / 10 = 1)%nat ∧
  update_calls run.2 = 2%nat.
Proof.
  split_and!.
  - eexists. split; [vm_compute; reflexivity | repeat constructor].
  - reflexivity.
  - reflexivity.
  - vm_compute. reflexivity.
Qed.

(** *** The update below the threshold *)

(** C4, as the code has it.  The threshold is the constant 10, whatever
    update_frequency the configuration holds: with fewer than 10 entries
    in the history the update returns without raising and leaves the
    broker (theta included) and the random source as they were.  For a
    window W <= 10 this covers every history shorter than W. *)
Theorem update_noop_below_ten config w :
  (length (history (self w)) < 10)%nat →
  _update_spsa_parameters config w
  = (Ok tt, mkWorld (self w) (oracle w) (S (update_calls w))).
Proof.
  intros Hlen. unfold _update_spsa_parameters, bind, count_update_call, get_self.
  cbn [self].
  by destruct (Nat.ltb_spec (length (history (self w))) 10); [|lia].
Qed.

Lemma update_noop_below_ten_witness :
  _update_spsa_parameters (mkSPSAConfig 0.01 0.1 0.02 100) (sample_world 3)
  = (Ok tt, mkWorld (self (sample_world 3)) (oracle (sample_world 3))
                    (S (update_calls (sample_world 3)))).
Proof.
  apply (update_noop_below_ten (mkSPSAConfig 0.01 0.1 0.02 100) (sample_world 3)).
  simpl. lia.
Defined.

(** C4, refuted as stated for W = 100.  With update_frequency = 100 and
    ten entries in the history the update runs and moves theta from [0]
    to [-0.0025]. *)
Lemma update_runs_below_window_100 :
  let config := mkSPSAConfig 0.01 0.1 0.02 100 in
  let run := _update_spsa_parameters config sample_world_ten in
  update_frequency config = 100%nat ∧
  (length (history (self sample_world_ten)) < update_frequency config)%nat ∧
  run.1 = Ok tt ∧
  theta (self sample_world_ten) = [0%Q] ∧
  ∃ x, theta (self run.2) = [x] ∧ (x == -0.0025)%Q ∧ ¬ (x == 0)%Q.
Proof.
  split_and!; [reflexivity | simpl; lia | vm_compute; reflexivity | reflexivity |].
  eexists. split; [vm_compute; reflexivity|]. split; [reflexivity | discriminate].
Qed.

(** *** Clipping *)

Lemma clip_bounds x : (-2.0 <= clip x)%Q ∧ (clip x <= 2.0)%Q.
Proof.
  unfold clip. destruct (Qlt_le_dec x (-2.0)); [split; [apply Qle_refl | done]|].
  destruct (Qlt_le_dec 2.0 x); [split; [done | apply Qle_refl]|]. done.
Qed.

(** C5.  After a call of the update that returns, every component of
    theta lies in [-2, 2], whenever the history holds at least 10 entries
    (the only states in which process_task calls the update) or theta was
    within the bounds before; the history, the signs drawn and the
    simulated losses do not matter. *)
Theorem update_keeps_theta_bounded config w w' :
  _update_spsa_parameters config w = (Ok tt, w') →
  (10 ≤ length (history (self w)))%nat ∨ theta_bounded (theta (self w)) →
  theta_bounded (theta (self w')).
Proof.
  intros Hrun Hpre. unfold _update_spsa_parameters in Hrun.
  unfold bind at 1, count_update_call in Hrun.
  unfold bind at 1, get_self in Hrun. cbn [self] in Hrun.
  destruct (Nat.ltb_spec (length (history (self w))) 10) as [Hlt|Hge].
  - injection Hrun as <-. cbn [self]. destruct Hpre as [?|Hb]; [lia | exact Hb].
  - apply bind_run in Hrun as [(l & w1 & _ & Hrun) | (? & _ & [=])].
    apply bind_run in Hrun as [(delta & w2 & _ & Hrun) | (? & _ & [=])].
    apply bind_run in Hrun as [(lp & w3 & _ & Hrun) | (? & _ & [=])].
    apply bind_run in Hrun as [(lm & w4 & _ & Hrun) | (? & _ & [=])].
    unfold modify_self in Hrun. injection Hrun as <-. cbn [self theta set_theta].
    unfold theta_bounded. apply Forall_map, Forall_forall. intros x _.
    apply clip_bounds.
Qed.

Lemma update_keeps_theta_bounded_witness :
  theta_bounded
    (theta (self (_update_spsa_parameters default_spsa_config sample_world_ten).2)).
Proof.
  apply (update_keeps_theta_bounded default_spsa_config sample_world_ten).
  - vm_compute. reflexivity.
  - left. simpl. lia.
Defined.

(** *** Selection with a single candidate *)

(** C6, at the input on which the code fails.  With one executor in the
    list, _select_executor does not return that executor: filling the
    feature vector, of length 1, at index 1 raises IndexError, and
    process_task reports status 'error'. *)
Theorem select_executor_single_candidate_raises :
  executors (self (sample_world 1)) = [mkExecutor "executor_0"] ∧
  _select_executor sample_task (sample_world 1)
  = (Raise (IndexError 1 1), sample_world 1) ∧
  status (match (process_task default_spsa_config sample_task (sample_world 1)).1 with
          | Ok r => r
          | Raise _ => []
          end) = Some (PyStr "error").
Proof. split_and!; vm_compute; reflexivity. Qed.

(** *** The load correction *)

Lemma max0_nonneg x : (0 <= max0 x)%Q.
Proof.
  unfold max0. destruct (Qlt_le_dec 0 x) as [Hlt|Hle].
  - by apply Qlt_le_weak.
  - apply Qle_refl.
Qed.

Lemma max0_Qmax x y : (x == y)%Q → (max0 x == Qmax 0 y)%Q.
Proof.
  intros Hxy. unfold max0.
  destruct (Q.max_spec 0 y) as [[Hlt ->]|[Hle ->]];
    destruct (Qlt_le_dec 0 x) as [H1|H1]; lra.
Qed.

(** C7.  balance_load leaves a broker without neighbours as it is;
    otherwise the new load is
    max(0, load + 0.1 * (-(h + gamma) * (load - mean(neighbour loads)))),
    which is never negative. *)
Theorem balance_load_correction config pool b :
  (neighbors b = [] → balance_load config pool b = b) ∧
  (neighbor_loads pool b ≠ [] →
   (load (balance_load config pool b)
    == Qmax 0 (load b + 0.1 * (- (h config + gamma config)
                               * (load b - mean (neighbor_loads pool b)))))%Q
   ∧ (0 <= load (balance_load config pool b))%Q).
Proof.
  split.
  - intros Hn. unfold balance_load. by rewrite Hn.
  - intros Hl. unfold balance_load.
    destruct (neighbors b) as [|n ns] eqn:Hn.
    { exfalso. apply Hl. unfold neighbor_loads. by rewrite Hn. }
    destruct (neighbor_loads pool b) as [|l ls] eqn:Hloads; [done|].
    cbn [load set_load]. split; [|apply max0_nonneg].
    apply max0_Qmax. ring.
Qed.

Lemma balance_load_correction_witness :
  let b := mkBroker "broker_0" (sample_executors 4) 1.0 0 [] (mkStats 0 0 0.0 0.0)
                    (replicate 4 0%Q) [1%nat] in
  (load (balance_load default_lvp_config sample_pool b)
   == Qmax 0 (load b + 0.1 * (- (h default_lvp_config + gamma default_lvp_config)
                              * (load b - mean (neighbor_loads sample_pool b)))))%Q
  ∧ (0 <= load (balance_load default_lvp_config sample_pool b))%Q.
Proof.
  intros b. apply (balance_load_correction default_lvp_config sample_pool b).
  vm_compute. discriminate.
Defined.

End ControllerFacts.

(** ** The structure of the connectivity graph *)

Module GraphStructure.
Import Graph.

#[local] Arguments Rand.choice : simpl never.
#[local] Arguments Rand.uniform : simpl never.
#[local] Arguments Rand.random : simpl never.

Lemma nbrs_add_edge g i j k :
  i ≠ j →
  nbrs (_add_edge i j g) k
  = if decide (k = i)
    then (if decide (j ∈ nbrs g i) then nbrs g i else nbrs g i ++ [j])
    else if decide (k = j)
    then (if decide (i ∈ nbrs g j) then nbrs g j else nbrs g j ++ [i])
    else nbrs g k.
Proof.
  intros Hij. unfold _add_edge, memb. cbv zeta.
  set (g1 := with_adjacency _ g).
  change (nbrs g1 i) with (nbrs g i).
  destruct (decide (j ∈ nbrs g i)) as [Hin|Hnin].
  - rewrite !(bool_decide_eq_true_2 (j ∈ nbrs g i)) by done.
    change (nbrs g1 j) with (nbrs g j).
    destruct (decide (i ∈ nbrs g j)) as [Hin2|Hnin2].
    + rewrite !(bool_decide_eq_true_2 (i ∈ nbrs g j)) by done.
      change (nbrs g1 k) with (nbrs g k). repeat case_decide; by subst.
    + rewrite !(bool_decide_eq_false_2 (i ∈ nbrs g j)) by done.
      unfold nbrs at 1. cbn [neighbors with_neighbors].
      destruct (decide (k = j)) as [->|Hkj].
      * rewrite lookup_insert_eq. cbn. by rewrite decide_False by done.
      * rewrite lookup_insert_ne by done. case_decide; by subst.
  - rewrite !(bool_decide_eq_false_2 (j ∈ nbrs g i)) by done.
    set (g2 := with_neighbors _ g1).
    assert (nbrs g2 j = nbrs g j) as Hj.
    { unfold nbrs, g2. cbn [neighbors with_neighbors]. by rewrite lookup_insert_ne. }
    rewrite !Hj.
    destruct (decide (i ∈ nbrs g j)) as [Hin2|Hnin2].
    + rewrite !(bool_decide_eq_true_2 (i ∈ nbrs g j)) by done.
      unfold nbrs at 1, g2. cbn [neighbors with_neighbors].
      destruct (decide (k = i)) as [->|Hki].
      * by rewrite lookup_insert_eq.
      * rewrite lookup_insert_ne by done. case_decide; by subst.
    + rewrite !(bool_decide_eq_false_2 (i ∈ nbrs g j)) by done.
      unfold nbrs at 1. cbn [neighbors with_neighbors].
      destruct (decide (k = j)) as [->|Hkj].
      * rewrite lookup_insert_eq. cbn. by rewrite decide_False by done.
      * rewrite lookup_insert_ne by done. unfold g2. cbn [neighbors with_neighbors].
        destruct (decide (k = i)) as [->|Hki].
        -- by rewrite lookup_insert_eq.
        -- by rewrite lookup_insert_ne.
Qed.

Lemma list_remove_notin j l : j ∉ l → list_remove j l = l.
Proof.
  induction l as [|x l IH]; simpl; [done|].
  intros Hn. apply not_elem_of_cons in Hn as [Hne Hn].
  rewrite decide_False by done. f_equal. by apply IH.
Qed.

Lemma list_remove_subseteq j l : list_remove j l ⊆ l.
Proof.
  induction l as [|x l IH]; simpl; [done|].
  destruct (decide (x = j)); intros y Hy.
  - by right.
  - apply elem_of_cons in Hy as [->|Hy]; [left | right; by apply IH].
Qed.

Lemma elem_of_list_remove j l x :
  NoDup l → x ∈ list_remove j l ↔ x ∈ l ∧ x ≠ j.
Proof.
  induction l as [|y l IH]; simpl; intros Hnd.
  - split; [intros H; by apply elem_of_nil in H | intros [H _]; by apply elem_of_nil in H].
  - apply NoDup_cons in Hnd as [Hy Hnd].
    destruct (decide (y = j)) as [->|Hne].
    + rewrite elem_of_cons. split.
      * intros Hx. split; [by right|]. intros ->. done.
      * intros [[->|Hx] Hxj]; done.
    + rewrite !elem_of_cons, (IH Hnd). naive_solver.
Qed.

Lemma NoDup_list_remove j l : NoDup l → NoDup (list_remove j l).
Proof.
  induction l as [|y l IH]; simpl; intros Hnd; [done|].
  apply NoDup_cons in Hnd as [Hy Hnd].
  destruct (decide (y = j)); [done|].
  apply NoDup_cons. split; [|by apply IH].
  intros Hin. apply Hy. by apply (list_remove_subseteq j l).
Qed.

Lemma length_list_remove_le j l : (length (list_remove j l) ≤ length l)%nat.
Proof.
  induction l as [|y l IH]; simpl; [done|].
  destruct (decide (y = j)); simpl; lia.
Qed.

Lemma length_list_remove j l :
  j ∈ l → S (length (list_remove j l)) = length l.
Proof.
  induction l as [|y l IH]; simpl; intros Hin; [by apply elem_of_nil in Hin|].
  destruct (decide (y = j)) as [->|Hne]; [done|].
  apply elem_of_cons in Hin as [->|Hin]; [done|]. simpl. by rewrite IH.
Qed.

Lemma nbrs_remove_edge g i j k :
  i ≠ j →
  nbrs (_remove_edge i j g) k
  = if decide (k = i) then list_remove j (nbrs g i)
    else if decide (k = j) then list_remove i (nbrs g j)
    else nbrs g k.
Proof.
  intros Hij. unfold _remove_edge, memb. cbv zeta.
  set (g1 := with_adjacency _ g).
  change (nbrs g1 i) with (nbrs g i).
  destruct (decide (j ∈ nbrs g i)) as [Hin|Hnin].
  - rewrite !(bool_decide_eq_true_2 (j ∈ nbrs g i)) by done.
    set (g2 := with_neighbors _ g1).
    assert (nbrs g2 j = nbrs g j) as Hj.
    { unfold nbrs, g2. cbn [neighbors with_neighbors]. by rewrite lookup_insert_ne. }
    rewrite !Hj.
    destruct (decide (i ∈ nbrs g j)) as [Hin2|Hnin2].
    + rewrite !(bool_decide_eq_true_2 (i ∈ nbrs g j)) by done.
      unfold nbrs at 1. cbn [neighbors with_neighbors].
      destruct (decide (k = j)) as [->|Hkj].
      * rewrite lookup_insert_eq. cbn. by rewrite decide_False by done.
      * rewrite lookup_insert_ne by done. unfold g2. cbn [neighbors with_neighbors].
        destruct (decide (k = i)) as [->|Hki].
        -- by rewrite lookup_insert_eq.
        -- by rewrite lookup_insert_ne.
    + rewrite !(bool_decide_eq_false_2 (i ∈ nbrs g j)) by done.
      rewrite (list_remove_notin i (nbrs g j)) by done.
      unfold nbrs at 1, g2. cbn [neighbors with_neighbors].
      destruct (decide (k = i)) as [->|Hki].
      * by rewrite lookup_insert_eq.
      * rewrite lookup_insert_ne by done. case_decide; by subst.
  - rewrite !(bool_decide_eq_false_2 (j ∈ nbrs g i)) by done.
    rewrite (list_remove_notin j (nbrs g i)) by done.
    change (nbrs g1 j) with (nbrs g j).
    destruct (decide (i ∈ nbrs g j)) as [Hin2|Hnin2].
    + rewrite !(bool_decide_eq_true_2 (i ∈ nbrs g j)) by done.
      unfold nbrs at 1. cbn [neighbors with_neighbors].
      destruct (decide (k = j)) as [->|Hkj].
      * rewrite lookup_insert_eq. cbn. by rewrite decide_False by done.
      * rewrite lookup_insert_ne by done. case_decide; by subst.
    + rewrite !(bool_decide_eq_false_2 (i ∈ nbrs g j)) by done.
      rewrite (list_remove_notin i (nbrs g j)) by done.
      change (nbrs g1 k) with (nbrs g k). repeat case_decide; by subst.
Qed.

Lemma mat_dims_set n m i j v : mat_dims n m → mat_dims n (mat_set i j v m).
Proof.
  intros [Hlen Hrows]. unfold mat_set.
  destruct (m !! i) as [row|] eqn:Hrow; [|done]. split.
  - by rewrite length_insert.
  - apply Forall_insert; [done|]. rewrite length_insert.
    by apply (proj1 (Forall_lookup _ _) Hrows i row).
Qed.

Lemma mat_get_set n m i j v a b :
  mat_dims n m → (i < n)%nat → (j < n)%nat →
  mat_get (mat_set i j v m) a b
  = if decide (a = i ∧ b = j) then v else mat_get m a b.
Proof.
  intros [Hlen Hrows] Hi Hj. unfold mat_set, mat_get.
  destruct (m !! i) as [row|] eqn:Hrow.
  2:{ apply lookup_ge_None in Hrow. lia. }
  assert (length row = n) as Hr by by apply (proj1 (Forall_lookup _ _) Hrows i row).
  destruct (decide (a = i)) as [->|Hai].
  - rewrite list_lookup_insert_eq by lia. cbn.
    destruct (decide (b = j)) as [->|Hbj].
    + rewrite list_lookup_insert_eq by lia. by rewrite decide_True.
    + rewrite list_lookup_insert_ne by done. rewrite Hrow. cbn.
      rewrite decide_False; [done | naive_solver].
  - rewrite list_lookup_insert_ne by done.
    rewrite decide_False; [done | naive_solver].
Qed.

Lemma add_edge_fields i j g :
  num_brokers (_add_edge i j g) = num_brokers g ∧
  adjacency_matrix (_add_edge i j g)
  = mat_set j i 1 (mat_set i j 1 (adjacency_matrix g)) ∧
  min_neighbors (_add_edge i j g) = min_neighbors g ∧
  max_neighbors (_add_edge i j g) = max_neighbors g.
Proof. unfold _add_edge. repeat case_match; done. Qed.

Lemma remove_edge_fields i j g :
  num_brokers (_remove_edge i j g) = num_brokers g ∧
  adjacency_matrix (_remove_edge i j g)
  = mat_set j i 0 (mat_set i j 0 (adjacency_matrix g)) ∧
  min_neighbors (_remove_edge i j g) = min_neighbors g ∧
  max_neighbors (_remove_edge i j g) = max_neighbors g.
Proof. unfold _remove_edge. repeat case_match; done. Qed.

Lemma elem_of_nbrs_add_edge g i j k x :
  i ≠ j →
  x ∈ nbrs (_add_edge i j g) k
  ↔ x ∈ nbrs g k ∨ (k = i ∧ x = j) ∨ (k = j ∧ x = i).
Proof.
  intros Hij. rewrite nbrs_add_edge by done.
  repeat case_decide; subst; rewrite ?elem_of_app, ?list_elem_of_singleton;
    naive_solver.
Qed.

Lemma elem_of_nbrs_remove_edge g i j k x :
  i ≠ j → NoDup (nbrs g k) →
  x ∈ nbrs (_remove_edge i j g) k
  ↔ x ∈ nbrs g k ∧ ¬ (k = i ∧ x = j) ∧ ¬ (k = j ∧ x = i).
Proof.
  intros Hij Hnd. rewrite nbrs_remove_edge by done.
  repeat case_decide; subst; rewrite ?elem_of_list_remove by done; naive_solver.
Qed.

Lemma adj_after (g g' : GraphService) i j v a b :
  adjacency_matrix g' = mat_set j i v (mat_set i j v (adjacency_matrix g)) →
  mat_dims (num_brokers g) (adjacency_matrix g) →
  (i < num_brokers g)%nat → (j < num_brokers g)%nat →
  adj g' a b = if decide ((a = i ∧ b = j) ∨ (a = j ∧ b = i)) then v else adj g a b.
Proof.
  intros Hm Hd Hi Hj. unfold adj. rewrite Hm.
  change (default 0%nat (row ← mat_set j i v (mat_set i j v (adjacency_matrix g)) !! a; row !! b))
    with (mat_get (mat_set j i v (mat_set i j v (adjacency_matrix g))) a b).
  rewrite (mat_get_set (num_brokers g)); [|by apply mat_dims_set|done|done].
  rewrite (mat_get_set (num_brokers g)) by done.
  unfold mat_get. repeat case_decide; naive_solver.
Qed.

Lemma graph_ok_add_edge g i j :
  graph_ok g → i ≠ j → (i < num_brokers g)%nat → (j < num_brokers g)%nat →
  graph_ok (_add_edge i j g).
Proof.
  intros [(Hsym & Hirr & Hnd & Hrng) [Hdims Hadj]] Hij Hi Hj.
  destruct (add_edge_fields i j g) as (Hn & Hm & _ & _).
  split; [split_and!|split].
  - intros a b. rewrite !elem_of_nbrs_add_edge by done. naive_solver.
  - intros a. rewrite elem_of_nbrs_add_edge by done. naive_solver.
  - intros a. rewrite nbrs_add_edge by done.
    repeat case_decide; try apply Hnd; apply NoDup_app; split_and!;
      try apply Hnd; try apply NoDup_singleton;
      intros x Hx Hx'; apply list_elem_of_singleton in Hx'; by subst.
  - intros a b. rewrite elem_of_nbrs_add_edge, Hn by done.
    intros [H|[[-> ->]|[-> ->]]]; [by apply Hrng | done | done].
  - rewrite Hn, Hm. by do 2 apply mat_dims_set.
  - intros a b Ha Hb. rewrite Hn in Ha, Hb.
    rewrite (adj_after g _ i j 1 a b Hm Hdims Hi Hj), (Hadj a b Ha Hb).
    destruct (decide ((a = i ∧ b = j) ∨ a = j ∧ b = i)) as [Hc|Hc].
    + rewrite decide_True; [done|]. apply elem_of_nbrs_add_edge; naive_solver.
    + destruct (decide (b ∈ nbrs g a)) as [Hin|Hnin].
      * rewrite decide_True; [done|]. apply elem_of_nbrs_add_edge; naive_solver.
      * rewrite decide_False; [done|]. rewrite elem_of_nbrs_add_edge by done.
        naive_solver.
Qed.

Lemma graph_ok_remove_edge g i j :
  graph_ok g → i ≠ j → (i < num_brokers g)%nat → (j < num_brokers g)%nat →
  graph_ok (_remove_edge i j g).
Proof.
  intros [(Hsym & Hirr & Hnd & Hrng) [Hdims Hadj]] Hij Hi Hj.
  destruct (remove_edge_fields i j g) as (Hn & Hm & _ & _).
  split; [split_and!|split].
  - intros a b. rewrite !elem_of_nbrs_remove_edge by done. naive_solver.
  - intros a. rewrite elem_of_nbrs_remove_edge by done. naive_solver.
  - intros a. rewrite nbrs_remove_edge by done.
    repeat case_decide; try apply NoDup_list_remove; apply Hnd.
  - intros a b. rewrite elem_of_nbrs_remove_edge, Hn by done.
    intros [H _]. by apply Hrng.
  - rewrite Hn, Hm. by do 2 apply mat_dims_set.
  - intros a b Ha Hb. rewrite Hn in Ha, Hb.
    rewrite (adj_after g _ i j 0 a b Hm Hdims Hi Hj), (Hadj a b Ha Hb).
    destruct (decide ((a = i ∧ b = j) ∨ a = j ∧ b = i)) as [Hc|Hc].
    + rewrite decide_False; [done|]. rewrite elem_of_nbrs_remove_edge by done.
      naive_solver.
    + destruct (decide (b ∈ nbrs g a)) as [Hin|Hnin].
      * rewrite decide_True; [done|]. apply elem_of_nbrs_remove_edge; [done..|].
        naive_solver.
      * rewrite decide_False; [done|]. rewrite elem_of_nbrs_remove_edge by done.
        naive_solver.
Qed.

Lemma elem_of_upper_pairs n i j :
  (i, j) ∈ upper_pairs n ↔ (i < j)%nat ∧ (j < n)%nat.
Proof.
  unfold upper_pairs. rewrite list_elem_of_bind. split.
  - intros (a & Hin & Ha). apply list_elem_of_fmap in Hin as (b & [= -> ->] & Hb).
    apply elem_of_seq in Hb. lia.
  - intros [Hij Hj]. exists i. split.
    + apply list_elem_of_fmap. exists j. split; [done|]. apply elem_of_seq. lia.
    + apply elem_of_seq. lia.
Qed.

Lemma graph_ok_with_weights w g : graph_ok g → graph_ok (with_weights w g).
Proof. done. Qed.

Lemma num_brokers_random_connections ps g o :
  num_brokers (random_connections ps g o).1 = num_brokers g.
Proof.
  revert g o. induction ps as [|[i j] ps IH]; intros g o; simpl; [done|].
  rewrite IH. case_match; [apply add_edge_fields | done].
Qed.

Lemma graph_ok_random_connections ps g o :
  graph_ok g →
  (∀ i j, (i, j) ∈ ps → (i < j)%nat ∧ (j < num_brokers g)%nat) →
  graph_ok (random_connections ps g o).1.
Proof.
  revert g o. induction ps as [|[i j] ps IH]; intros g o Hok Hps; simpl; [done|].
  assert ((i < j)%nat ∧ (j < num_brokers g)%nat) as [Hij Hj] by (apply Hps; left).
  apply IH.
  - case_match; [|done]. apply graph_ok_add_edge; [done|lia..].
  - intros a b Hab.
    replace (num_brokers (if Rand.Qltb (Rand.tape o (Rand.cursor o)) (edge_probability g)
                          then _add_edge i j g else g)) with (num_brokers g)
      by (case_match; [symmetry; apply add_edge_fields | done]).
    apply Hps. by right.
Qed.

Lemma elem_of_connect_candidates g i j :
  j ∈ connect_candidates g i
  ↔ (j < num_brokers g)%nat ∧ j ≠ i ∧ (j ∉ nbrs g i)
    ∧ (degree g j < max_neighbors g)%nat.
Proof.
  unfold connect_candidates. rewrite list_elem_of_filter, elem_of_seq.
  naive_solver lia.
Qed.

Lemma ensure_node_ok fuel i g o :
  graph_ok g → (i < num_brokers g)%nat →
  graph_ok (ensure_node fuel i g o).1
  ∧ num_brokers (ensure_node fuel i g o).1 = num_brokers g.
Proof.
  revert g o. induction fuel as [|fuel IH]; intros g o Hok Hi; cbn [ensure_node]; [done|].
  case_match; [|done].
  destruct (connect_candidates g i) as [|c cs] eqn:Hc; [done|].
  pose proof (RandFacts.choice_elem c cs o) as Hin.
  destruct (Rand.choice c cs o) as [j o1]. cbn [fst] in Hin.
  rewrite <- Hc in Hin. apply elem_of_connect_candidates in Hin as (Hj & Hji & _).
  destruct (add_edge_fields i j g) as (Hn & _).
  destruct (IH (_add_edge i j g) o1) as [IH1 IH2].
  - by apply graph_ok_add_edge.
  - by rewrite Hn.
  - split; [exact IH1 | rewrite <- Hn; exact IH2].
Qed.

Lemma ensure_nodes_ok nodes g o :
  graph_ok g → (∀ i, i ∈ nodes → (i < num_brokers g)%nat) →
  graph_ok (ensure_nodes nodes g o).1
  ∧ num_brokers (ensure_nodes nodes g o).1 = num_brokers g.
Proof.
  revert g o. induction nodes as [|i nodes IH]; intros g o Hok Hn; simpl; [done|].
  destruct (ensure_node_ok (min_neighbors g) i g o Hok) as [H1 H2]; [apply Hn; left|].
  destruct (ensure_node (min_neighbors g) i g o) as [g1 o1]. cbn [fst] in *.
  destruct (IH g1 o1 H1) as [H3 H4].
  - intros a Ha. rewrite H2. apply Hn. by right.
  - split; [done | by rewrite H4].
Qed.

Lemma nbrs_empty_graph n i w a b c d :
  nbrs (mkGraph n (replicate n (replicate n 0%nat)) w
                (list_to_map ((λ i, (i, [])) <$> seq 0 n)) a b c d) i = [].
Proof.
  unfold nbrs. cbn [neighbors].
  destruct (_ !! i) as [l|] eqn:Hl; [|done]. cbn.
  apply elem_of_list_to_map_2 in Hl.
  by apply list_elem_of_fmap in Hl as (k & [= _ ->] & _).
Qed.

Lemma graph_ok_empty n w a b c d :
  graph_ok (mkGraph n (replicate n (replicate n 0%nat)) w
                    (list_to_map ((λ i, (i, [])) <$> seq 0 n)) a b c d).
Proof.
  split; [split_and!|split].
  - intros i j. rewrite nbrs_empty_graph. intros H. by apply elem_of_nil in H.
  - intros i. rewrite nbrs_empty_graph. apply not_elem_of_nil.
  - intros i. rewrite nbrs_empty_graph. apply NoDup_nil_2.
  - intros i j. rewrite nbrs_empty_graph. intros H. by apply elem_of_nil in H.
  - split; cbn; [by rewrite length_replicate|].
    apply Forall_replicate. by rewrite length_replicate.
  - intros i j Hi Hj. rewrite nbrs_empty_graph.
    rewrite decide_False by apply not_elem_of_nil.
    unfold adj. cbn in *. rewrite lookup_replicate_2 by done. cbn.
    by rewrite lookup_replicate_2.
Qed.

Lemma init_ok n o : graph_ok (init n o).1 ∧ num_brokers (init n o).1 = n.
Proof.
  unfold init, _generate_initial_graph.
  set (g0 := mkGraph n _ _ _ _ _ _ _).
  pose proof (graph_ok_random_connections (upper_pairs n) g0 o
                (graph_ok_empty n [] _ _ _ _)) as H1.
  pose proof (num_brokers_random_connections (upper_pairs n) g0 o) as N1.
  destruct (random_connections (upper_pairs (num_brokers g0)) g0 o) as [g1 o1] eqn:E1.
  change (num_brokers g0) with n in E1. rewrite E1 in H1, N1. cbn [fst] in *.
  unfold _ensure_connectivity.
  destruct (ensure_nodes_ok (seq 0 (num_brokers g1)) g1 o1) as [H2 N2].
  - apply H1. intros i j Hij. by apply elem_of_upper_pairs in Hij.
  - intros i Hi. apply elem_of_seq in Hi. lia.
  - destruct (ensure_nodes (seq 0 (num_brokers g1)) g1 o1) as [g2 o2].
    cbn [fst] in *. split.
    + unfold _initialize_weights. by apply graph_ok_with_weights.
    + unfold _initialize_weights. cbn. by rewrite N2, N1.
Qed.

Lemma elem_of_add_candidates g i j :
  (i, j) ∈ add_candidates g
  ↔ (i < j)%nat ∧ (j < num_brokers g)%nat ∧ adj g i j = 0%nat
    ∧ (degree g i < max_neighbors g)%nat ∧ (degree g j < max_neighbors g)%nat.
Proof.
  unfold add_candidates. rewrite list_elem_of_filter, elem_of_upper_pairs. cbn.
  naive_solver.
Qed.

Lemma elem_of_remove_candidates g i j :
  (i, j) ∈ remove_candidates g
  ↔ (i < num_brokers g)%nat ∧ (min_neighbors g < degree g i)%nat
    ∧ j ∈ nbrs g i ∧ (min_neighbors g < degree g j)%nat.
Proof.
  unfold remove_candidates. rewrite list_elem_of_bind. split.
  - intros (a & Hin & Ha). apply list_elem_of_fmap in Hin as (b & [= -> ->] & Hb).
    apply list_elem_of_filter in Hb as [Hb1 Hb2].
    apply list_elem_of_filter in Ha as [Ha1 Ha2]. apply elem_of_seq in Ha2.
    split_and!; [lia | done..].
  - intros (Hi & Hdi & Hj & Hdj). exists i. split.
    + apply list_elem_of_fmap. exists j. split; [done|].
      by apply list_elem_of_filter.
    + apply list_elem_of_filter. split; [done|]. apply elem_of_seq. lia.
Qed.

Lemma add_random_edge_ok g o :
  graph_ok g →
  graph_ok (_add_random_edge g o).1
  ∧ num_brokers (_add_random_edge g o).1 = num_brokers g.
Proof.
  intros Hok. unfold _add_random_edge.
  destruct (add_candidates g) as [|c cs] eqn:Hc; [done|].
  pose proof (RandFacts.choice_elem c cs o) as Hin.
  destruct (Rand.choice c cs o) as [[i j] o1]. cbn [fst] in Hin.
  rewrite <- Hc in Hin. apply elem_of_add_candidates in Hin as (Hij & Hj & _).
  destruct (Rand.uniform 0.1 1.0 o1) as [w o2]. cbn [fst].
  split.
  - apply graph_ok_with_weights, graph_ok_add_edge; [done | lia..].
  - apply add_edge_fields.
Qed.

Lemma remove_random_edge_ok g o :
  graph_ok g →
  graph_ok (_remove_random_edge g o).1
  ∧ num_brokers (_remove_random_edge g o).1 = num_brokers g.
Proof.
  intros Hok. unfold _remove_random_edge.
  destruct (remove_candidates g) as [|c cs] eqn:Hc; [done|].
  pose proof (RandFacts.choice_elem c cs o) as Hin.
  destruct (Rand.choice c cs o) as [[i j] o1]. cbn [fst] in Hin.
  rewrite <- Hc in Hin. apply elem_of_remove_candidates in Hin as (Hi & _ & Hj & _).
  cbn [fst]. pose proof Hok as [(_ & Hirr & _ & Hrng) _].
  split.
  - apply graph_ok_with_weights, graph_ok_remove_edge; [done| |done|].
    + intros ->. by apply (Hirr j).
    + by apply (Hrng i j).
  - apply remove_edge_fields.
Qed.

Lemma modify_random_weight_ok g o :
  graph_ok g →
  graph_ok (_modify_random_weight g o).1
  ∧ num_brokers (_modify_random_weight g o).1 = num_brokers g.
Proof.
  intros Hok. unfold _modify_random_weight.
  destruct (PyDict.keys (weights g)) as [|e es]; [done|].
  destruct (Rand.choice e es o) as [edge o1].
  destruct (Rand.uniform 0.1 1.0 o1) as [w o2]. done.
Qed.

Lemma graph_ok_reachable g : reachable g → graph_ok g.
Proof.
  induction 1.
  - apply init_ok.
  - by apply graph_ok_with_weights.
  - by apply add_random_edge_ok.
  - by apply remove_random_edge_ok.
  - by apply modify_random_weight_ok.
Qed.

(** X1.  In every reachable graph the neighbour lists hold no duplicate;
    the neighbour relation is symmetric and has no self loop, and the
    neighbours are nodes of the graph. *)
Theorem neighbor_lists_consistent g :
  reachable g →
  ∀ i j, NoDup (nbrs g i) ∧
         (j ∈ nbrs g i →
          i ∈ nbrs g j ∧ i ≠ j ∧ (i < num_brokers g)%nat ∧ (j < num_brokers g)%nat).
Proof.
  intros Hr i j. destruct (graph_ok_reachable g Hr) as [(Hsym & Hirr & Hnd & Hrng) _].
  split; [apply Hnd|]. intros Hin. split_and!.
  - by apply Hsym.
  - intros ->. by apply (Hirr j).
  - by apply (Hrng i j).
  - by apply (Hrng i j).
Qed.

(** X2.  In every reachable graph the adjacency matrix and the neighbour
    lists say the same: the entry (i, j) is 1 when j is a neighbour of i
    and 0 otherwise. *)
Theorem adjacency_matches_neighbors g :
  reachable g →
  ∀ i j, (i < num_brokers g)%nat → (j < num_brokers g)%nat →
         (adj g i j = 1%nat ∧ j ∈ nbrs g i) ∨ (adj g i j = 0%nat ∧ j ∉ nbrs g i).
Proof.
  intros Hr i j Hi Hj. destruct (graph_ok_reachable g Hr) as [_ [_ Hadj]].
  rewrite (Hadj i j Hi Hj). case_decide; [by left | by right].
Qed.

Lemma same_params_refl g : same_params g g.
Proof. done. Qed.

Lemma same_params_trans g1 g2 g3 :
  same_params g1 g2 → same_params g2 g3 → same_params g1 g3.
Proof. intros (?&?&?) (?&?&?). split_and!; congruence. Qed.

Lemma same_params_add_edge i j g : same_params g (_add_edge i j g).
Proof. destruct (add_edge_fields i j g) as (?&?&?&?). by split_and!. Qed.

Lemma same_params_remove_edge i j g : same_params g (_remove_edge i j g).
Proof. destruct (remove_edge_fields i j g) as (?&?&?&?). by split_and!. Qed.

Lemma same_params_random_connections ps g o :
  same_params g (random_connections ps g o).1.
Proof.
  revert g o. induction ps as [|[i j] ps IH]; intros g o; cbn [random_connections]; [done|].
  destruct (Rand.random o) as [u o1].
  eapply same_params_trans; [|apply IH].
  case_match; [apply same_params_add_edge | done].
Qed.

Lemma same_params_ensure_node fuel i g o :
  same_params g (ensure_node fuel i g o).1.
Proof.
  revert g o. induction fuel as [|fuel IH]; intros g o; cbn [ensure_node]; [done|].
  case_match; [|done]. destruct (connect_candidates g i); [done|].
  destruct (Rand.choice _ _ o) as [j o1].
  eapply same_params_trans; [apply (same_params_add_edge i j)|apply IH].
Qed.

Lemma same_params_ensure_nodes nodes g o :
  same_params g (ensure_nodes nodes g o).1.
Proof.
  revert g o. induction nodes as [|i nodes IH]; intros g o; cbn [ensure_nodes]; [done|].
  pose proof (same_params_ensure_node (min_neighbors g) i g o) as H1.
  destruct (ensure_node (min_neighbors g) i g o) as [g1 o1].
  eapply same_params_trans; [exact H1 | apply IH].
Qed.

Lemma same_params_add_random_edge g o : same_params g (_add_random_edge g o).1.
Proof.
  unfold _add_random_edge. destruct (add_candidates g); [done|].
  destruct (Rand.choice _ _ o) as [[i j] o1].
  destruct (Rand.uniform 0.1 1.0 o1) as [w o2]. apply (same_params_add_edge i j).
Qed.

Lemma same_params_remove_random_edge g o : same_params g (_remove_random_edge g o).1.
Proof.
  unfold _remove_random_edge. destruct (remove_candidates g); [done|].
  destruct (Rand.choice _ _ o) as [[i j] o1]. apply (same_params_remove_edge i j).
Qed.

Lemma same_params_modify_random_weight g o :
  same_params g (_modify_random_weight g o).1.
Proof.
  unfold _modify_random_weight. destruct (PyDict.keys (weights g)); [done|].
  destruct (Rand.choice _ _ o) as [e o1].
  destruct (Rand.uniform 0.1 1.0 o1) as [w o2]. done.
Qed.

Lemma params_init n o :
  num_brokers (init n o).1 = n ∧ min_neighbors (init n o).1 = 2%nat
  ∧ max_neighbors (init n o).1 = 5%nat.
Proof.
  unfold init, _generate_initial_graph.
  match goal with |- context [random_connections ?ps ?g0 o] =>
    pose proof (same_params_random_connections ps g0 o) as H1;
    destruct (random_connections ps g0 o) as [g1 o1] end.
  unfold _ensure_connectivity.
  pose proof (same_params_ensure_nodes (seq 0 (num_brokers g1)) g1 o1) as H2.
  destruct (ensure_nodes (seq 0 (num_brokers g1)) g1 o1) as [g2 o2].
  cbn [fst] in *. destruct H1 as (?&?&?), H2 as (?&?&?).
  unfold _initialize_weights. cbn in *. split_and!; congruence.
Qed.

Lemma params_reachable g :
  reachable g → min_neighbors g = 2%nat ∧ max_neighbors g = 5%nat.
Proof.
  induction 1 as [n o|g Hr IH|g o Hr IH|g o Hr IH|g o Hr IH].
  - destruct (params_init n o) as (_&?&?). done.
  - done.
  - destruct (same_params_add_random_edge g o) as (_ & -> & ->). done.
  - destruct (same_params_remove_random_edge g o) as (_ & -> & ->). done.
  - destruct (same_params_modify_random_weight g o) as (_ & -> & ->). done.
Qed.

(** X3.  In every reachable graph a node has at most num_brokers - 1
    neighbours; so with at most six brokers no node exceeds
    max_neighbors. *)
Theorem degree_below_num_brokers g :
  reachable g →
  ∀ i, (degree g i ≤ num_brokers g - 1)%nat
       ∧ ((num_brokers g ≤ 6)%nat → (degree g i ≤ max_neighbors g)%nat).
Proof.
  intros Hr i. destruct (graph_ok_reachable g Hr) as [(_ & Hirr & Hnd & Hrng) _].
  assert (degree g i ≤ num_brokers g - 1)%nat as Hdeg.
  { unfold degree. destruct (nbrs g i) as [|j l] eqn:Hl; [simpl; lia|].
    assert (i < num_brokers g)%nat as Hi.
    { apply (Hrng i j). rewrite Hl. left. }
    rewrite <- Hl.
    assert (NoDup (i :: nbrs g i)) as Hnd' by (apply NoDup_cons; split; [apply Hirr | apply Hnd]).
    assert (i :: nbrs g i ⊆+ seq 0 (num_brokers g)) as Hsub.
    { apply NoDup_submseteq; [done|]. intros x Hx. apply elem_of_seq.
      apply elem_of_cons in Hx as [->|Hx]; [lia|]. pose proof (Hrng i x Hx). lia. }
    apply submseteq_length in Hsub. rewrite length_seq in Hsub. simpl in Hsub. lia. }
  split; [done|]. intros Hn. destruct (params_reachable g Hr) as [_ ->]. lia.
Qed.

Lemma degree_add_edge g i j k :
  i ≠ j →
  (degree g k ≤ degree (_add_edge i j g) k)%nat ∧
  (degree (_add_edge i j g) k
   ≤ degree g k + (if decide (k = i ∨ k = j) then 1 else 0))%nat.
Proof.
  intros Hij. unfold degree. rewrite nbrs_add_edge by done.
  repeat case_decide; subst; rewrite ?length_app; simpl; try lia; naive_solver.
Qed.

Lemma degree_add_edge_new g i j :
  i ≠ j → j ∉ nbrs g i → degree (_add_edge i j g) i = S (degree g i).
Proof.
  intros Hij Hn. unfold degree. rewrite nbrs_add_edge by done.
  rewrite decide_True by done. rewrite decide_False by done.
  rewrite length_app. simpl. lia.
Qed.

Lemma degree_remove_edge g i j k :
  i ≠ j →
  (degree (_remove_edge i j g) k ≤ degree g k)%nat ∧
  (degree g k ≤ degree (_remove_edge i j g) k
                + (if decide (k = i ∨ k = j) then 1 else 0))%nat.
Proof.
  intros Hij. unfold degree. rewrite nbrs_remove_edge by done.
  assert (∀ x l, length (list_remove x l) ≤ length l ≤ S (length (list_remove x l)))%nat
    as Hlen.
  { intros x l. split; [apply length_list_remove_le|].
    destruct (decide (x ∈ l)) as [Hin|Hn].
    - rewrite (length_list_remove x l Hin). lia.
    - rewrite list_remove_notin by done. lia. }
  repeat case_decide; subst;
    try (pose proof (Hlen j (nbrs g i))); try (pose proof (Hlen i (nbrs g j)));
    try lia; naive_solver.
Qed.

Lemma degree_decay g k : degree (decay_weights g) k = degree g k.
Proof. done. Qed.

Lemma random_graph_modification_degree g o :
  reachable g →
  ∀ k, (degree (_random_graph_modification g o).1 k
        ≤ Nat.max (degree g k) (max_neighbors g))%nat
       ∧ ((min_neighbors g ≤ degree g k)%nat →
          (min_neighbors g ≤ degree (_random_graph_modification g o).1 k)%nat).
Proof.
  intros Hr k. unfold _random_graph_modification.
  destruct (Rand.choice Add [Remove; ModifyWeight] o) as [[] o2].
  - unfold _add_random_edge.
    destruct (add_candidates g) as [|c cs] eqn:Hc; [cbn [fst]; lia|].
    pose proof (RandFacts.choice_elem c cs o2) as Hin.
    destruct (Rand.choice c cs o2) as [[i j] o3]. cbn [fst] in Hin.
    rewrite <- Hc in Hin.
    apply elem_of_add_candidates in Hin as (Hij & Hj & _ & Hdi & Hdj).
    destruct (Rand.uniform 0.1 1.0 o3) as [w o4]. cbn [fst].
    change (degree (with_weights (set_both i j w (weights (_add_edge i j g)))
                                 (_add_edge i j g)) k)
      with (degree (_add_edge i j g) k).
    destruct (degree_add_edge g i j k) as [H1 H2]; [lia|].
    split; [|lia]. case_decide as Hk; [destruct Hk as [->| ->]|]; lia.
  - unfold _remove_random_edge.
    destruct (remove_candidates g) as [|c cs] eqn:Hc; [cbn [fst]; lia|].
    pose proof (RandFacts.choice_elem c cs o2) as Hin.
    destruct (Rand.choice c cs o2) as [[i j] o3]. cbn [fst] in Hin.
    rewrite <- Hc in Hin.
    apply elem_of_remove_candidates in Hin as (Hi & Hdi & Hj & Hdj).
    cbn [fst].
    match goal with |- context [degree (with_weights ?w ?g') k] =>
      change (degree (with_weights w g') k) with (degree g' k) end.
    destruct (graph_ok_reachable g Hr) as [(_ & Hirr & _) _].
    destruct (degree_remove_edge g i j k) as [H1 H2].
    { intros ->. by apply (Hirr j). }
    split; [lia|]. intros Hmin.
    case_decide as Hk; [destruct Hk as [->| ->]|]; lia.
  - unfold _modify_random_weight.
    destruct (PyDict.keys (weights g)) as [|e es]; [cbn [fst]; lia|].
    destruct (Rand.choice e es o2) as [edge o3].
    destruct (Rand.uniform 0.1 1.0 o3) as [w o4]. cbn [fst].
    match goal with |- context [degree (with_weights ?w ?g') k] =>
      change (degree (with_weights w g') k) with (degree g' k) end.
    lia.
Qed.

(** X4.  A call of update_graph on a reachable graph never takes the
    degree of a node above the larger of its former degree and
    max_neighbors, and never takes a node that had at least
    min_neighbors neighbours below min_neighbors. *)
Theorem update_graph_degree_bounds g o :
  reachable g →
  ∀ k, (degree (update_graph g o).1 k ≤ Nat.max (degree g k) (max_neighbors g))%nat
       ∧ ((min_neighbors g ≤ degree g k)%nat →
          (min_neighbors g ≤ degree (update_graph g o).1 k)%nat).
Proof.
  intros Hr k. unfold update_graph. destruct (Rand.random o) as [u o1].
  case_match; [|cbn [fst]; rewrite degree_decay; lia].
  apply (random_graph_modification_degree (decay_weights g) o1 (reach_decay g Hr) k).
Qed.

Lemma grows_refl g : grows g g.
Proof. split; [apply same_params_refl|]. intros k. split; [done | lia]. Qed.

Lemma grows_trans g1 g2 g3 : grows g1 g2 → grows g2 g3 → grows g1 g3.
Proof.
  intros [Hp1 H1] [Hp2 H2]. split; [by eapply same_params_trans|].
  intros k. destruct (H1 k) as [Ha Hb], (H2 k) as [Hc Hd].
  split; [by etrans | lia].
Qed.

Lemma grows_add_edge g i j : i ≠ j → grows g (_add_edge i j g).
Proof.
  intros Hij. split; [apply same_params_add_edge|]. intros k. split.
  - intros x Hx. apply elem_of_nbrs_add_edge; [done | by left].
  - by apply degree_add_edge.
Qed.

Lemma repaired_grows g g' i : grows g g' → repaired g i → repaired g' i.
Proof.
  intros [(Hn & Hmin & Hmax) Hg] [Hdeg|Hsat].
  - left. rewrite Hmin. destruct (Hg i). lia.
  - right. intros j Hj Hji Hnin. rewrite Hmax.
    destruct (Hg j) as [_ Hd], (Hg i) as [Hs _].
    assert (max_neighbors g ≤ degree g j)%nat; [|lia].
    apply Hsat; [by rewrite <- Hn | done |]. intros Hin. apply Hnin. by apply Hs.
Qed.

Lemma grows_ensure_node fuel i g o : grows g (ensure_node fuel i g o).1.
Proof.
  revert g o. induction fuel as [|fuel IH]; intros g o; cbn [ensure_node];
    [apply grows_refl|].
  case_match; [|apply grows_refl].
  destruct (connect_candidates g i) as [|c cs] eqn:Hc; [apply grows_refl|].
  pose proof (RandFacts.choice_elem c cs o) as Hin.
  destruct (Rand.choice c cs o) as [j o1]. cbn [fst] in Hin.
  rewrite <- Hc in Hin. apply elem_of_connect_candidates in Hin as (_ & Hji & _).
  eapply grows_trans; [apply (grows_add_edge g i j); done | apply IH].
Qed.

Lemma grows_ensure_nodes nodes g o : grows g (ensure_nodes nodes g o).1.
Proof.
  revert g o. induction nodes as [|i nodes IH]; intros g o; cbn [ensure_nodes];
    [apply grows_refl|].
  pose proof (grows_ensure_node (min_neighbors g) i g o) as H1.
  destruct (ensure_node (min_neighbors g) i g o) as [g1 o1].
  eapply grows_trans; [exact H1 | apply IH].
Qed.

Lemma ensure_node_repaired fuel i g o :
  (min_neighbors g ≤ degree g i + fuel)%nat →
  repaired (ensure_node fuel i g o).1 i.
Proof.
  revert g o. induction fuel as [|fuel IH]; intros g o Hfuel; cbn [ensure_node].
  - left. cbn [fst]. lia.
  - destruct (Nat.ltb_spec (degree g i) (min_neighbors g)) as [Hlt|Hge];
      [|left; cbn [fst]; lia].
    destruct (connect_candidates g i) as [|c cs] eqn:Hc.
    + right. cbn [fst]. intros j Hj Hji Hnin.
      destruct (decide (degree g j < max_neighbors g)%nat) as [Hd|Hd]; [|lia].
      assert (j ∈ connect_candidates g i) as Hin
        by by apply elem_of_connect_candidates.
      rewrite Hc in Hin. by apply elem_of_nil in Hin.
    + pose proof (RandFacts.choice_elem c cs o) as Hin.
      destruct (Rand.choice c cs o) as [j o1]. cbn [fst] in Hin.
      rewrite <- Hc in Hin.
      apply elem_of_connect_candidates in Hin as (_ & Hji & Hnin & _).
      apply IH. destruct (add_edge_fields i j g) as (_ & _ & -> & _).
      rewrite degree_add_edge_new by done. lia.
Qed.

Lemma ensure_nodes_repaired nodes g o i :
  i ∈ nodes → repaired (ensure_nodes nodes g o).1 i.
Proof.
  revert g o. induction nodes as [|a nodes IH]; intros g o Hin; cbn [ensure_nodes].
  - by apply elem_of_nil in Hin.
  - pose proof (ensure_node_repaired (min_neighbors g) a g o) as H1.
    destruct (ensure_node (min_neighbors g) a g o) as [g1 o1]. cbn [fst] in H1.
    destruct (decide (i ∈ nodes)) as [Hi|Hi]; [by apply IH|].
    apply elem_of_cons in Hin as [->|Hin]; [|done].
    eapply repaired_grows; [apply grows_ensure_nodes | apply H1; lia].
Qed.

(** X5.  After construction every node has at least min_neighbors
    neighbours, unless every other node that is not its neighbour has
    max_neighbors neighbours or more. *)
Theorem init_min_neighbors_or_saturated n o i :
  (i < n)%nat →
  let g := (init n o).1 in
  (min_neighbors g ≤ degree g i)%nat
  ∨ ∀ j, (j < num_brokers g)%nat → j ≠ i → j ∉ nbrs g i →
         (max_neighbors g ≤ degree g j)%nat.
Proof.
  intros Hi. cbv zeta. change (repaired (init n o).1 i).
  unfold init, _generate_initial_graph.
  match goal with |- context [random_connections ?ps ?g0 o] =>
    pose proof (same_params_random_connections ps g0 o) as (N1 & _);
    destruct (random_connections ps g0 o) as [g1 o1] end.
  cbn [fst num_brokers] in N1. unfold _ensure_connectivity.
  pose proof (ensure_nodes_repaired (seq 0 (num_brokers g1)) g1 o1 i) as H2.
  destruct (ensure_nodes (seq 0 (num_brokers g1)) g1 o1) as [g2 o2].
  cbn [fst] in *. apply H2. apply elem_of_seq. lia.
Qed.

Lemma initial_weight_sym degrees a b :
  initial_weight degrees a b = initial_weight degrees b a.
Proof. unfold initial_weight. by rewrite Nat.add_comm. Qed.

Lemma get_init_weight degrees i j d a b :
  PyDict.get (a, b) (init_weight degrees i j d)
  = if decide ((i < j)%nat ∧ ((a, b) = (i, j) ∨ (a, b) = (j, i)))
    then Some (initial_weight degrees a b)
    else PyDict.get (a, b) d.
Proof.
  unfold init_weight. destruct (Nat.ltb_spec i j) as [Hlt|Hge].
  - rewrite GraphFacts.get_set_both.
    destruct (decide ((a, b) = (i, j) ∨ (a, b) = (j, i))) as [Hc|Hc].
    + rewrite decide_True by done. f_equal.
      destruct Hc as [[= -> ->]|[= -> ->]]; [done | apply initial_weight_sym].
    + rewrite decide_False; [done | naive_solver].
  - rewrite decide_False; [done | lia].
Qed.

Lemma get_init_row degrees i l d a b :
  ((∃ j, j ∈ l ∧ (i < j)%nat ∧ ((a, b) = (i, j) ∨ (a, b) = (j, i))) →
   PyDict.get (a, b) (foldl (λ d' j, init_weight degrees i j d') d l)
   = Some (initial_weight degrees a b)) ∧
  (¬ (∃ j, j ∈ l ∧ (i < j)%nat ∧ ((a, b) = (i, j) ∨ (a, b) = (j, i))) →
   PyDict.get (a, b) (foldl (λ d' j, init_weight degrees i j d') d l)
   = PyDict.get (a, b) d).
Proof.
  revert d. induction l as [|j l IH] using rev_ind; intros d.
  - split; [intros (j & Hj & _); by apply elem_of_nil in Hj | done].
  - rewrite foldl_app. cbn [foldl]. rewrite get_init_weight.
    destruct (IH d) as [IH1 IH2]. split.
    + intros (j' & Hj' & Hlt & Hab). case_decide as Hc; [done|].
      apply IH1. exists j'. split_and!; [|done..].
      apply elem_of_app in Hj' as [?|Hj']; [done|].
      apply list_elem_of_singleton in Hj' as ->. naive_solver.
    + intros Hno. rewrite decide_False.
      * apply IH2. intros (j' & Hj' & H). apply Hno. exists j'.
        split; [apply elem_of_app; by left | done].
      * intros [Hlt Hab]. apply Hno. exists j.
        split; [apply elem_of_app; right; by apply list_elem_of_singleton | done].
Qed.

Lemma get_init_rows degrees (g : GraphService) rows d a b :
  ((∃ i j, i ∈ rows ∧ j ∈ nbrs g i ∧ (i < j)%nat
           ∧ ((a, b) = (i, j) ∨ (a, b) = (j, i))) →
   PyDict.get (a, b)
     (foldl (λ d0 i, foldl (λ d' j, init_weight degrees i j d') d0 (nbrs g i)) d rows)
   = Some (initial_weight degrees a b)) ∧
  (¬ (∃ i j, i ∈ rows ∧ j ∈ nbrs g i ∧ (i < j)%nat
             ∧ ((a, b) = (i, j) ∨ (a, b) = (j, i))) →
   PyDict.get (a, b)
     (foldl (λ d0 i, foldl (λ d' j, init_weight degrees i j d') d0 (nbrs g i)) d rows)
   = PyDict.get (a, b) d).
Proof.
  revert d. induction rows as [|i rows IH] using rev_ind; intros d.
  - split; [intros (i & j & Hi & _); by apply elem_of_nil in Hi | done].
  - rewrite foldl_app. cbn [foldl].
    destruct (IH d) as [IH1 IH2].
    match goal with |- context [foldl ?f ?d0 (nbrs g i)] =>
      destruct (get_init_row degrees i (nbrs g i) d0 a b) as [R1 R2] end.
    split.
    + intros (i' & j & Hi' & Hj & Hlt & Hab).
      destruct (decide (Exists (λ j, (i < j)%nat ∧ ((a, b) = (i, j) ∨ (a, b) = (j, i)))
                               (nbrs g i))) as [Hc|Hc];
        rewrite Exists_exists in Hc; [by apply R1|].
      rewrite (R2 Hc). apply IH1. exists i', j. split_and!; [|done..].
      apply elem_of_app in Hi' as [?|Hi']; [done|].
      apply list_elem_of_singleton in Hi' as ->. exfalso. apply Hc. by exists j.
    + intros Hno. rewrite R2.
      * apply IH2. intros (i' & j & Hi' & H). apply Hno. exists i', j.
        split; [apply elem_of_app; by left | done].
      * intros (j & Hj & H). apply Hno. exists i, j.
        split; [apply elem_of_app; right; by apply list_elem_of_singleton | done].
Qed.

Lemma init_decompose n o :
  ∃ g2, (init n o).1 = _initialize_weights g2 ∧ graph_ok g2
        ∧ num_brokers g2 = n ∧ weights g2 = [].
Proof.
  unfold init, _generate_initial_graph.
  set (g0 := mkGraph n _ _ _ _ _ _ _).
  pose proof (graph_ok_random_connections (upper_pairs n) g0 o
                (graph_ok_empty n [] _ _ _ _)) as H1.
  pose proof (num_brokers_random_connections (upper_pairs n) g0 o) as N1.
  pose proof (GraphFacts.weights_random_connections (upper_pairs n) g0 o) as W1.
  change (num_brokers g0) with n.
  destruct (random_connections (upper_pairs n) g0 o) as [g1 o1].
  cbn [fst] in *. unfold _ensure_connectivity.
  destruct (ensure_nodes_ok (seq 0 (num_brokers g1)) g1 o1) as [H2 N2].
  - apply H1. intros i j Hij. by apply elem_of_upper_pairs in Hij.
  - intros i Hi. apply elem_of_seq in Hi. lia.
  - pose proof (GraphFacts.weights_ensure_nodes (seq 0 (num_brokers g1)) g1 o1) as W2.
    destruct (ensure_nodes (seq 0 (num_brokers g1)) g1 o1) as [g2 o2].
    cbn [fst] in *. exists g2.
    split_and!; [done | done | by rewrite N2, N1 | by rewrite W2, W1].
Qed.

Lemma init_weights_lookup n o a b :
  let g := (init n o).1 in
  PyDict.get (a, b) (weights g)
  = if decide (b ∈ nbrs g a)
    then Some (2.0 / inject_Z (Z.of_nat (degree g a + degree g b)))%Q
    else None.
Proof.
  destruct (init_decompose n o) as (g2 & -> & [(Hsym & Hirr & Hnd & Hrng) _] & Hn & Hw).
  cbv zeta. change (nbrs (_initialize_weights g2) a) with (nbrs g2 a).
  change (degree (_initialize_weights g2) a) with (degree g2 a).
  change (degree (_initialize_weights g2) b) with (degree g2 b).
  unfold _initialize_weights. cbn [weights with_weights]. rewrite Hw.
  set (degrees := (λ i, degree g2 i) <$> seq 0 (num_brokers g2)).
  destruct (get_init_rows degrees g2 (seq 0 (num_brokers g2)) [] a b) as [R1 R2].
  destruct (decide (b ∈ nbrs g2 a)) as [Hin|Hnin].
  - destruct (Hrng a b Hin) as [Ha Hb].
    assert (a ≠ b) as Hab by (intros ->; by apply (Hirr b)).
    rewrite R1.
    + f_equal. unfold initial_weight, degrees.
      rewrite !list_lookup_fmap, !lookup_seq_lt by done. cbn.
      assert (0 < degree g2 a)%nat as Hpos.
      { unfold degree. destruct (nbrs g2 a); [by apply elem_of_nil in Hin | simpl; lia]. }
      destruct (degree g2 a + degree g2 b)%nat eqn:Hs; [lia | done].
    + destruct (decide (a < b)%nat).
      * exists a, b. split_and!; [apply elem_of_seq; lia | done | done | by left].
      * exists b, a. split_and!; [apply elem_of_seq; lia | by apply Hsym | lia | by right].
  - rewrite R2; [done|]. intros (i & j & _ & Hj & _ & [[= -> ->]|[= -> ->]]).
    + done.
    + apply Hnin. by apply Hsym.
Qed.

(** X6.  After construction the weight of an edge (i, j) is
    2 / (deg(i) + deg(j)), which lies in (0, 1]; a pair that is no edge
    has no entry in the weight table and weight 0. *)
Theorem initial_weights n o i j :
  let g := (init n o).1 in
  (j ∈ nbrs g i →
   get_weight g i j = (2.0 / inject_Z (Z.of_nat (degree g i + degree g j)))%Q
   ∧ (0 < get_weight g i j)%Q ∧ (get_weight g i j <= 1)%Q) ∧
  (j ∉ nbrs g i → PyDict.get (i, j) (weights g) = None ∧ get_weight g i j = 0.0%Q).
Proof.
  cbv zeta. pose proof (init_weights_lookup n o i j) as Hl. cbv zeta in Hl.
  unfold get_weight. rewrite Hl. split; intros Hin.
  - rewrite decide_True by done. cbn [default]. split; [done|].
    destruct (init_ok n o) as [[(Hsym & _) _] _].
    assert (0 < degree (init n o).1 i)%nat as Hi.
    { unfold degree. destruct (nbrs (init n o).1 i); [by apply elem_of_nil in Hin | simpl; lia]. }
    assert (0 < degree (init n o).1 j)%nat as Hj.
    { apply Hsym in Hin. unfold degree.
      destruct (nbrs (init n o).1 j); [by apply elem_of_nil in Hin | simpl; lia]. }
    set (s := (degree (init n o).1 i + degree (init n o).1 j)%nat) in *.
    assert (2 <= inject_Z (Z.of_nat s))%Q as Hs.
    { change 2%Q with (inject_Z 2). rewrite <- Zle_Qle. lia. }
    split.
    + apply Qlt_shift_div_l; lra.
    + apply Qle_shift_div_r; lra.
  - by rewrite decide_False.
Qed.

Lemma modify_random_weight_weights g o :
  weights_ok (weights g) →
  weights (_modify_random_weight g o).1 = weights g
  ∨ ∃ a b w, (a, b) ∈ PyDict.keys (weights g)
             ∧ weights (_modify_random_weight g o).1 = set_both a b w (weights g).
Proof.
  intros Hok. unfold _modify_random_weight.
  destruct (PyDict.keys (weights g)) as [|e es] eqn:Hk; [by left|].
  pose proof (RandFacts.choice_elem e es o) as Hin.
  destruct (Rand.choice e es o) as [[a b] o1].
  destruct (Rand.uniform 0.1 1.0 o1) as [w o2]. cbn [fst snd] in *.
  right. exists a, b, w. split; [done|]. rewrite <- Hk in Hin.
  assert (PyDict.mem (b, a) (PyDict.set (a, b) w (weights g)) = true) as Hm;
    [|cbn [fst snd weights with_weights]; by rewrite Hm].
  unfold PyDict.mem. rewrite PyDictFacts.get_set. case_decide; [done|].
  destruct Hok as [_ Hsym]. rewrite (Hsym b a).
  destruct (PyDict.get (a, b) (weights g)) eqn:Hg; [done|].
  by apply PyDictFacts.get_None_keys in Hg.
Qed.

(** X7.  In every reachable graph the weight table has an entry for
    (i, j) exactly when j is a neighbour of i: no weight outlives its
    edge and no edge lacks a weight. *)
Theorem weights_match_edges g :
  reachable g →
  ∀ i j, is_Some (PyDict.get (i, j) (weights g)) ↔ j ∈ nbrs g i.
Proof.
  induction 1 as [n o|g Hr IH|g o Hr IH|g o Hr IH|g o Hr IH]; intros a b.
  - pose proof (init_weights_lookup n o a b) as Hl. cbv zeta in Hl. rewrite Hl.
    case_decide; split; try done.
  - unfold decay_weights. cbn [weights with_weights].
    change (nbrs (with_weights _ g) a) with (nbrs g a).
    rewrite PyDictFacts.get_map_values, fmap_is_Some. apply IH.
  - unfold _add_random_edge.
    destruct (add_candidates g) as [|c cs] eqn:Hc; [apply IH|].
    pose proof (RandFacts.choice_elem c cs o) as Hin.
    destruct (Rand.choice c cs o) as [[i j] o1]. cbn [fst] in Hin.
    rewrite <- Hc in Hin. apply elem_of_add_candidates in Hin as (Hij & _).
    destruct (Rand.uniform 0.1 1.0 o1) as [w o2]. cbn [fst weights with_weights].
    match goal with |- context [nbrs (with_weights ?w ?g') a] =>
      change (nbrs (with_weights w g') a) with (nbrs g' a) end.
    rewrite GraphFacts.weights_add_edge, GraphFacts.get_set_both.
    rewrite elem_of_nbrs_add_edge by lia. specialize (IH a b).
    case_decide as Hd.
    + split; [|done]. intros _. destruct Hd as [[= -> ->]|[= -> ->]]; naive_solver.
    + rewrite IH. split; [by left|]. intros [?|[[-> ->]|[-> ->]]]; [done|..];
        exfalso; apply Hd; naive_solver.
  - unfold _remove_random_edge.
    destruct (remove_candidates g) as [|c cs] eqn:Hc; [apply IH|].
    pose proof (RandFacts.choice_elem c cs o) as Hin.
    destruct (Rand.choice c cs o) as [[i j] o1]. cbn [fst] in Hin.
    rewrite <- Hc in Hin. apply elem_of_remove_candidates in Hin as (_ & _ & Hj & _).
    cbn [fst weights with_weights].
    match goal with |- context [nbrs (with_weights ?w ?g') a] =>
      change (nbrs (with_weights w g') a) with (nbrs g' a) end.
    destruct (graph_ok_reachable g Hr) as [(_ & Hirr & Hnd & _) _].
    destruct (GraphFacts.weights_ok_reachable g Hr) as [Hkeys _].
    assert (i ≠ j) as Hij by (intros ->; by apply (Hirr j)).
    rewrite GraphFacts.weights_remove_edge.
    change (if PyDict.mem (j, i) (if PyDict.mem (i, j) (weights g)
                                  then PyDict.del (i, j) (weights g) else weights g)
            then PyDict.del (j, i) (if PyDict.mem (i, j) (weights g)
                                    then PyDict.del (i, j) (weights g) else weights g)
            else (if PyDict.mem (i, j) (weights g)
                  then PyDict.del (i, j) (weights g) else weights g))
      with (del_both i j (weights g)).
    rewrite GraphFacts.get_del_both by done.
    rewrite elem_of_nbrs_remove_edge by done. specialize (IH a b).
    case_decide as Hd.
    + split; [intros [? [=]]|]. intros (_ & H1 & H2).
      destruct Hd as [[= -> ->]|[= -> ->]]; naive_solver.
    + rewrite IH. split; [|by intros [? _]]. intros Hin. split; [done|].
      split; intros [-> ->]; apply Hd; naive_solver.
  - destruct (modify_random_weight_weights g o (GraphFacts.weights_ok_reachable g Hr))
      as [->|(i & j & w & Hin & ->)].
    + destruct (modify_random_weight_ok g o (graph_ok_reachable g Hr)) as [_ _].
      replace (nbrs (_modify_random_weight g o).1 a) with (nbrs g a); [apply IH|].
      unfold _modify_random_weight. destruct (PyDict.keys (weights g)); [done|].
      destruct (Rand.choice _ _ o) as [e o1].
      by destruct (Rand.uniform 0.1 1.0 o1) as [w o2].
    + replace (nbrs (_modify_random_weight g o).1 a) with (nbrs g a).
      2:{ unfold _modify_random_weight. destruct (PyDict.keys (weights g)); [done|].
          destruct (Rand.choice _ _ o) as [e o1].
          by destruct (Rand.uniform 0.1 1.0 o1) as [w' o2]. }
      rewrite GraphFacts.get_set_both. rewrite <- (IH a b).
      destruct (GraphFacts.weights_ok_reachable g Hr) as [_ Hsym].
      assert (is_Some (PyDict.get (i, j) (weights g))) as Hij.
      { destruct (PyDict.get (i, j) (weights g)) eqn:Hg; [done|].
        by apply PyDictFacts.get_None_keys in Hg. }
      case_decide as Hd; [|done]. split; [|done]. intros _.
      destruct Hd as [[= -> ->]|[= -> ->]]; [done | by rewrite Hsym].
Qed.

Lemma sample_graph_reachable : reachable sample_graph.
Proof. apply reach_init. Qed.

Lemma neighbor_lists_consistent_witness :
  NoDup (nbrs sample_graph 0) ∧
  (3%nat ∈ nbrs sample_graph 0 →
   0%nat ∈ nbrs sample_graph 3 ∧ 0%nat ≠ 3%nat
   ∧ (0 < num_brokers sample_graph)%nat ∧ (3 < num_brokers sample_graph)%nat).
Proof. apply (neighbor_lists_consistent sample_graph (reach_init 4 _) 0%nat 3%nat). Defined.

Lemma adjacency_matches_neighbors_witness :
  (adj sample_graph 0 3 = 1%nat ∧ 3%nat ∈ nbrs sample_graph 0)
  ∨ (adj sample_graph 0 3 = 0%nat ∧ 3%nat ∉ nbrs sample_graph 0).
Proof.
  apply (adjacency_matches_neighbors sample_graph (reach_init 4 _) 0%nat 3%nat);
    vm_compute; lia.
Defined.

Lemma degree_below_num_brokers_witness :
  (degree sample_graph 0 ≤ num_brokers sample_graph - 1)%nat
  ∧ ((num_brokers sample_graph ≤ 6)%nat
     → (degree sample_graph 0 ≤ max_neighbors sample_graph)%nat).
Proof. apply (degree_below_num_brokers sample_graph (reach_init 4 _) 0%nat). Defined.

Lemma update_graph_degree_bounds_witness :
  (degree (update_graph sample_graph (Rand.replay [] 0%Q)).1 0
   ≤ Nat.max (degree sample_graph 0) (max_neighbors sample_graph))%nat
  ∧ ((min_neighbors sample_graph ≤ degree sample_graph 0)%nat →
     (min_neighbors sample_graph
      ≤ degree (update_graph sample_graph (Rand.replay [] 0%Q)).1 0)%nat).
Proof.
  apply (update_graph_degree_bounds sample_graph (Rand.replay [] 0%Q)
           (reach_init 4 _) 0%nat).
Defined.

Lemma init_min_neighbors_or_saturated_witness :
  let g := (init 4 (Rand.replay [] 0.9%Q)).1 in
  (min_neighbors g ≤ degree g 0)%nat
  ∨ ∀ j, (j < num_brokers g)%nat → j ≠ 0%nat → j ∉ nbrs g 0 →
         (max_neighbors g ≤ degree g j)%nat.
Proof. apply (init_min_neighbors_or_saturated 4 (Rand.replay [] 0.9%Q) 0). lia. Defined.

Lemma initial_weights_witness :
  get_weight sample_graph 0 3
  = (2.0 / inject_Z (Z.of_nat (degree sample_graph 0 + degree sample_graph 3)))%Q
  ∧ (0 < get_weight sample_graph 0 3)%Q ∧ (get_weight sample_graph 0 3 <= 1)%Q.
Proof.
  apply (initial_weights 4 (Rand.replay [] 0.9%Q) 0%nat 3%nat).
  vm_compute. apply list_elem_of_In. simpl. tauto.
Defined.

Lemma weights_match_edges_witness :
  is_Some (PyDict.get (0%nat, 3%nat) (weights sample_graph))
  ↔ 3%nat ∈ nbrs sample_graph 0.
Proof. apply (weights_match_edges sample_graph (reach_init 4 _) 0%nat 3%nat). Defined.

End GraphStructure.

(** ** More on the consensus update *)

Module ConsensusStructure.
Import Graph Consensus ConsensusFacts.

Lemma consensus_term_ext g (d1 d2 : list (nat * option (list Q))) i th nbs acc :
  (∀ j, j ∈ nbs → PyDict.get j d1 = PyDict.get j d2) →
  consensus_term g d1 i th nbs acc = consensus_term g d2 i th nbs acc.
Proof.
  revert acc. induction nbs as [|n nbs IH]; intros acc Hext; simpl; [done|].
  rewrite <- (Hext n) by left.
  assert (∀ acc', consensus_term g d1 i th nbs acc' = consensus_term g d2 i th nbs acc')
    as IH' by (intros acc'; apply IH; intros j Hj; apply Hext; by right).
  destruct (PyDict.get n d1) as [[nth|]|]; [|apply IH'..].
  destruct (broadcast2 Qminus nth th) as [dv|]; simpl; [|done].
  destruct (iadd acc _) as [acc'|]; simpl; [apply IH' | done].
Qed.

Lemma updated_theta_ext g c (d1 d2 : list (nat * option (list Q))) i th :
  (∀ j, j ∈ get_neighbors g i → PyDict.get j d1 = PyDict.get j d2) →
  updated_theta g c d1 i th = updated_theta g c d2 i th.
Proof. intros Hext. unfold updated_theta. by rewrite (consensus_term_ext g d1 d2). Qed.

(** X8.  A broker none of whose neighbours stands before it in the
    dictionary gets exactly the vector the snapshot rule gives: its
    correction is computed from the vectors the brokers had on entry. *)
Theorem consensus_update_snapshot_when_neighbors_later g c
    (d d' : list (nat * option (list Q))) pre i post :
  NoDup (PyDict.keys d) →
  consensus_update g d c = Some d' →
  PyDict.keys d = pre ++ i :: post →
  (∀ j, j ∈ get_neighbors g i → j ∉ pre) →
  PyDict.get i d' = snapshot_theta g c d i.
Proof.
  intros Hnd Hrun Hkeys Hlater. unfold consensus_update in Hrun.
  rewrite Hkeys in Hrun, Hnd. rewrite consensus_loop_app in Hrun.
  apply NoDup_app in Hnd as (Hpre & Hdisj & Hrest).
  apply NoDup_cons in Hrest as [Hipost Hpost].
  destruct (consensus_loop g c pre d) as [dm|] eqn:Hdm; simpl in Hrun; [|done].
  destruct (consensus_step g c dm i) as [di|] eqn:Hstep; simpl in Hrun; [|done].
  assert (i ∉ pre) as Hipre by (intros Hin; apply (Hdisj i Hin); left).
  rewrite (consensus_loop_other g c post di d' i Hrun Hipost).
  pose proof (consensus_loop_other g c pre d dm i Hdm Hipre) as Hgm.
  unfold consensus_step in Hstep. unfold snapshot_theta. rewrite Hgm in Hstep.
  destruct (get_neighbors g i) as [|n ns] eqn:Hnb.
  { injection Hstep as <-. exact Hgm. }
  destruct (PyDict.get i d) as [[th|]|] eqn:Hget;
    try (injection Hstep as <-; exact Hgm).
  rewrite (updated_theta_ext g c dm d i th) in Hstep.
  - destruct (updated_theta g c d i th) as [th'|]; simpl in Hstep; [|done].
    injection Hstep as <-. simpl. apply PyDictFacts.get_set_eq.
  - intros j Hj. apply (consensus_loop_other g c pre d dm j Hdm).
    apply Hlater. by rewrite <- Hnb.
Qed.

Lemma consensus_step_skipped g c (d d1 : list (nat * option (list Q))) k i :
  consensus_step g c d k = Some d1 →
  get_neighbors g i = [] ∨ PyDict.get i d = Some None ∨ PyDict.get i d = None →
  PyDict.get i d1 = PyDict.get i d.
Proof.
  intros Hs Hskip. destruct (decide (i = k)) as [->|Hne];
    [|by apply (consensus_step_other g c d d1 k)].
  unfold consensus_step in Hs.
  destruct (get_neighbors g k); [by injection Hs as <-|].
  destruct Hskip as [?|[Hg|Hg]]; [done|..]; rewrite Hg in Hs; by injection Hs as <-.
Qed.

(** X9.  consensus_update leaves the entry of a broker untouched when
    the broker has no neighbour, has no theta, or is not in the
    dictionary. *)
Theorem consensus_update_skips g c (d d' : list (nat * option (list Q))) i :
  consensus_update g d c = Some d' →
  get_neighbors g i = [] ∨ PyDict.get i d = Some None ∨ PyDict.get i d = None →
  PyDict.get i d' = PyDict.get i d.
Proof.
  unfold consensus_update. generalize (PyDict.keys d). intros ids. revert d.
  induction ids as [|k ids IH]; intros d Hrun Hskip; simpl in Hrun.
  - by injection Hrun as <-.
  - destruct (consensus_step g c d k) as [d1|] eqn:Hs; simpl in Hrun; [|done].
    pose proof (consensus_step_skipped g c d d1 k i Hs Hskip) as H1.
    rewrite (IH d1 Hrun); [done|]. rewrite H1. exact Hskip.
Qed.

Lemma consensus_term_dimension g D (d : list (nat * option (list Q))) i th nbs acc :
  same_dimension D d → length th = D → length acc = D →
  ∃ t, consensus_term g d i th nbs acc = Some t ∧ length t = D.
Proof.
  intros Hd Hth. revert acc. induction nbs as [|n nbs IH]; intros acc Hacc; simpl.
  - by exists acc.
  - destruct (PyDict.get n d) as [[nth|]|] eqn:Hn; [|by apply IH..].
    pose proof (Hd n nth Hn) as Hlen.
    unfold broadcast2. rewrite Hlen, Hth, Nat.eqb_refl. simpl.
    unfold iadd, scale. rewrite length_map, length_zip_with, Hlen, Hth, Hacc.
    rewrite Nat.min_id, Nat.eqb_refl. simpl.
    apply IH. rewrite length_zip_with, length_map, length_zip_with. lia.
Qed.

Lemma updated_theta_dimension g c D (d : list (nat * option (list Q))) i th :
  same_dimension D d → length th = D →
  ∃ th', updated_theta g c d i th = Some th' ∧ length th' = D.
Proof.
  intros Hd Hth. unfold updated_theta.
  destruct (consensus_term_dimension g D d i th (get_neighbors g i)
              (map (λ _, 0%Q) th) Hd Hth) as (t & -> & Ht).
  { by rewrite length_map. }
  simpl. unfold broadcast2, scale. rewrite length_map, Ht, Hth, Nat.eqb_refl.
  eexists. split; [done|]. rewrite length_zip_with, length_map. lia.
Qed.

Lemma consensus_step_dimension g c D (d : list (nat * option (list Q))) k :
  same_dimension D d →
  ∃ d1, consensus_step g c d k = Some d1 ∧ same_dimension D d1
        ∧ PyDict.keys d1 = PyDict.keys d.
Proof.
  intros Hd. unfold consensus_step.
  destruct (get_neighbors g k); [by exists d|].
  destruct (PyDict.get k d) as [[th|]|] eqn:Hk; [|by exists d..].
  destruct (updated_theta_dimension g c D d k th Hd (Hd k th Hk)) as (th' & -> & Hlen).
  simpl. eexists. split; [done|]. split.
  - intros i x. rewrite PyDictFacts.get_set. case_decide; [|apply Hd].
    by intros [= <-].
  - apply PyDictFacts.keys_set_in. by apply (PyDictFacts.get_Some_keys d k (Some th)).
Qed.

(** X10.  When all parameter vectors have the same length, no numpy
    operation of consensus_update raises, the result has the keys of the
    input in the same order, and every vector keeps its length. *)
Theorem consensus_update_same_dimension g c D (d : list (nat * option (list Q))) :
  same_dimension D d →
  ∃ d', consensus_update g d c = Some d' ∧ same_dimension D d'
        ∧ PyDict.keys d' = PyDict.keys d.
Proof.
  unfold consensus_update. generalize (PyDict.keys d) at 1. intros ids. revert d.
  induction ids as [|k ids IH]; intros d Hd; simpl.
  - by exists d.
  - destruct (consensus_step_dimension g c D d k Hd) as (d1 & -> & Hd1 & Hk1).
    simpl. destruct (IH d1 Hd1) as (d' & Hrun & Hd' & Hk').
    exists d'. split_and!; [done | done | congruence].
Qed.

Lemma zip_minus_agree (a b th0 : list Q) :
  Forall2 Qeq a th0 → Forall2 Qeq b th0 →
  Forall (λ x, (x == 0)%Q) (zip_with Qminus a b).
Proof.
  intros Ha. revert b. induction Ha as [|x y a th0 Hxy Ha IH]; intros b Hb.
  - done.
  - inversion Hb as [|x' y' b' th0' Hxy' Hb']; subst. simpl.
    constructor; [lra | by apply IH].
Qed.

Lemma zip_plus_zero (acc x : list Q) :
  Forall (λ x, (x == 0)%Q) acc → Forall (λ x, (x == 0)%Q) x →
  Forall (λ x, (x == 0)%Q) (zip_with Qplus acc x).
Proof.
  intros Ha. revert x. induction Ha as [|a acc Ha0 Ha IH]; intros x Hx; [done|].
  destruct Hx as [|b x Hb Hx]; [done|]. simpl. constructor; [lra | by apply IH].
Qed.

Lemma scale_zero c (x : list Q) :
  Forall (λ x, (x == 0)%Q) x → Forall (λ x, (x == 0)%Q) (scale c x).
Proof.
  intros Hx. unfold scale. apply Forall_map. eapply Forall_impl; [exact Hx|].
  intros y Hy. simpl. rewrite Hy. ring.
Qed.

Lemma zip_plus_agree (th t th0 : list Q) :
  Forall2 Qeq th th0 → Forall (λ x, (x == 0)%Q) t → length t = length th →
  Forall2 Qeq (zip_with Qplus th t) th0.
Proof.
  intros Hth. revert t. induction Hth as [|x y th th0 Hxy Hth IH]; intros t Ht Hlen.
  - by destruct t.
  - destruct Ht as [|z t Hz Ht]; [done|]. simpl in *. constructor.
    + rewrite Hz, Hxy. ring.
    + apply IH; [done | lia].
Qed.

Lemma consensus_term_agree g th0 (d : list (nat * option (list Q))) i th nbs acc :
  agree th0 d → Forall2 Qeq th th0 →
  Forall (λ x, (x == 0)%Q) acc → length acc = length th0 →
  ∃ t, consensus_term g d i th nbs acc = Some t
       ∧ Forall (λ x, (x == 0)%Q) t ∧ length t = length th0.
Proof.
  intros Hd Hth. revert acc. induction nbs as [|n nbs IH]; intros acc Hacc Hlen; simpl.
  - by exists acc.
  - destruct (PyDict.get n d) as [[nth|]|] eqn:Hn; [|by apply IH..].
    pose proof (Hd n nth Hn) as Hnth.
    pose proof (Forall2_length _ _ _ Hnth) as L1.
    pose proof (Forall2_length _ _ _ Hth) as L2.
    unfold broadcast2. rewrite L1, L2, Nat.eqb_refl. simpl.
    unfold iadd. unfold scale at 1. rewrite length_map, length_zip_with, L1, L2, Hlen.
    rewrite Nat.min_id, Nat.eqb_refl. simpl. apply IH.
    + apply zip_plus_zero; [done|]. apply scale_zero. by apply (zip_minus_agree _ _ th0).
    + unfold scale. rewrite length_zip_with, length_map, length_zip_with. lia.
Qed.

Lemma consensus_step_agree g c th0 (d : list (nat * option (list Q))) k :
  agree th0 d → ∃ d1, consensus_step g c d k = Some d1 ∧ agree th0 d1.
Proof.
  intros Hd. unfold consensus_step.
  destruct (get_neighbors g k); [by exists d|].
  destruct (PyDict.get k d) as [[th|]|] eqn:Hk; [|by exists d..].
  pose proof (Hd k th Hk) as Hth. pose proof (Forall2_length _ _ _ Hth) as L.
  unfold updated_theta.
  destruct (consensus_term_agree g th0 d k th (get_neighbors g k)
              (map (λ _, 0%Q) th) Hd Hth)
    as (t & -> & Ht & Hlen).
  { apply Forall_map, Forall_forall. by intros. }
  { by rewrite length_map. }
  simpl. unfold broadcast2. unfold scale at 1. rewrite length_map, Hlen, L, Nat.eqb_refl.
  eexists. split; [done|]. intros i x. rewrite PyDictFacts.get_set.
  case_decide; [|apply Hd]. intros [= <-].
  apply zip_plus_agree; [done | by apply scale_zero |].
  unfold scale. rewrite length_map. lia.
Qed.

(** X11.  When all brokers hold the same vector (up to equality of
    rationals), consensus_update returns and they still all hold it:
    agreement is a fixed point. *)
Theorem consensus_update_keeps_agreement g c th0 (d : list (nat * option (list Q))) :
  agree th0 d → ∃ d', consensus_update g d c = Some d' ∧ agree th0 d'.
Proof.
  unfold consensus_update. generalize (PyDict.keys d). intros ids. revert d.
  induction ids as [|k ids IH]; intros d Hd; simpl.
  - by exists d.
  - destruct (consensus_step_agree g c th0 d k Hd) as (d1 & -> & Hd1). simpl.
    by apply IH.
Qed.

Lemma total_weight_nonneg g i nbs :
  (∀ n, (0 <= get_weight g i n)%Q) → (0 <= total_weight g i nbs)%Q.
Proof.
  intros Hw. induction nbs as [|n nbs IH]; simpl; [lra|].
  specialize (Hw n). lra.
Qed.

Lemma term_step_bounds lo hi W w (acc nth th : list Q) :
  (0 <= w)%Q →
  Forall (λ x, (lo <= x)%Q ∧ (x <= hi)%Q) nth →
  length nth = length th →
  Forall2 (λ a t, (W * (lo - t) <= a)%Q ∧ (a <= W * (hi - t))%Q) acc th →
  Forall2 (λ a t, ((W + w) * (lo - t) <= a)%Q ∧ (a <= (W + w) * (hi - t))%Q)
          (zip_with Qplus acc (scale w (zip_with Qminus nth th))) th.
Proof.
  intros Hw Hn Hlen Hacc. revert nth Hn Hlen.
  induction Hacc as [|a t acc th [Ha1 Ha2] Hacc IH]; intros nth Hn Hlen.
  - by destruct nth.
  - destruct Hn as [|x nth [Hx1 Hx2] Hn]; [done|]. simpl in *. constructor.
    + split; nra.
    + apply IH; [done | lia].
Qed.

Lemma consensus_term_bounds g lo hi D (d : list (nat * option (list Q))) i th nbs
    acc W :
  same_dimension D d → within lo hi d → length th = D →
  (∀ n, (0 <= get_weight g i n)%Q) →
  Forall2 (λ a t, (W * (lo - t) <= a)%Q ∧ (a <= W * (hi - t))%Q) acc th →
  Forall (λ x, (lo <= x)%Q ∧ (x <= hi)%Q) th →
  (0 <= W)%Q →
  ∃ t W', consensus_term g d i th nbs acc = Some t ∧
          (0 <= W')%Q ∧ (W' <= W + total_weight g i nbs)%Q ∧
          Forall2 (λ a t, (W' * (lo - t) <= a)%Q ∧ (a <= W' * (hi - t))%Q) t th.
Proof.
  intros Hd Hin Hth Hw. revert acc W.
  induction nbs as [|n nbs IH]; intros acc W Hacc Hb HW; simpl.
  - exists acc, W. split_and!; [done | done | lra | done].
  - pose proof (total_weight_nonneg g i nbs Hw) as Htw. pose proof (Hw n) as Hwn.
    destruct (PyDict.get n d) as [[nth|]|] eqn:Hn.
    + pose proof (Hd n nth Hn) as Hlen.
      pose proof (Forall2_length _ _ _ Hacc) as Hal.
      unfold broadcast2. rewrite Hlen, Hth, Nat.eqb_refl. simpl.
      unfold iadd. unfold scale at 1.
      rewrite length_map, length_zip_with, Hlen, Hth, Hal, Hth.
      rewrite Nat.min_id, Nat.eqb_refl. simpl.
      destruct (IH (zip_with Qplus acc (scale (get_weight g i n) (zip_with Qminus nth th)))
                  (W + get_weight g i n)%Q) as (t & W' & Ht & HW1 & HW2 & Hb').
      * apply term_step_bounds; [done | by apply (Hin n) | congruence | done].
      * done.
      * lra.
      * exists t, W'. split_and!; [done | done | lra | done].
    + destruct (IH acc W Hacc Hb HW) as (t & W' & Ht & HW1 & HW2 & Hb').
      exists t, W'. split_and!; [done | done | lra | done].
    + destruct (IH acc W Hacc Hb HW) as (t & W' & Ht & HW1 & HW2 & Hb').
      exists t, W'. split_and!; [done | done | lra | done].
Qed.

Lemma final_bounds lo hi c W (th t : list Q) :
  (0 <= c)%Q → (0 <= W)%Q → (c * W <= 1)%Q →
  Forall (λ x, (lo <= x)%Q ∧ (x <= hi)%Q) th →
  Forall2 (λ a t, (W * (lo - t) <= a)%Q ∧ (a <= W * (hi - t))%Q) t th →
  Forall (λ x, (lo <= x)%Q ∧ (x <= hi)%Q) (zip_with Qplus th (scale c t)).
Proof.
  intros Hc HW HcW Hth Ht. revert Hth.
  induction Ht as [|a x t th [Ha1 Ha2] Ht IH]; intros Hth.
  - constructor.
  - apply Forall_cons in Hth as [[Hx1 Hx2] Hth]. simpl. constructor; [|by apply IH].
    assert (0 <= c * W)%Q by nra.
    assert (c * (W * (lo - x)) <= c * a)%Q by nra.
    assert (c * a <= c * (W * (hi - x)))%Q by nra.
    split; nra.
Qed.

Lemma consensus_step_within g c lo hi D (d : list (nat * option (list Q))) k :
  same_dimension D d → within lo hi d → (0 <= c)%Q →
  (∀ i n, (0 <= get_weight g i n)%Q) →
  (∀ i, (c * total_weight g i (get_neighbors g i) <= 1)%Q) →
  ∃ d1, consensus_step g c d k = Some d1 ∧ same_dimension D d1 ∧ within lo hi d1.
Proof.
  intros Hd Hin Hc Hw Hsum. unfold consensus_step.
  destruct (get_neighbors g k) eqn:Hnb; [by exists d|].
  destruct (PyDict.get k d) as [[th|]|] eqn:Hk; [|by exists d..].
  pose proof (Hd k th Hk) as Hlen. pose proof (Hin k th Hk) as Hth.
  unfold updated_theta.
  destruct (consensus_term_bounds g lo hi D d k th (get_neighbors g k)
              (map (λ _, 0%Q) th) 0%Q Hd Hin Hlen (Hw k))
    as (t & W & -> & HW1 & HW2 & Hb); [| done | lra |].
  { clear. induction th as [|x th IH]; simpl; constructor; [split; lra | done]. }
  pose proof (Forall2_length _ _ _ Hb) as Htl.
  simpl. unfold broadcast2. unfold scale at 1. rewrite length_map, Htl, Nat.eqb_refl.
  eexists. split; [done|].
  assert (c * W <= 1)%Q as HcW.
  { specialize (Hsum k). nra. }
  split.
  - intros i x. rewrite PyDictFacts.get_set. case_decide; [|apply Hd].
    intros [= <-]. unfold scale. rewrite length_zip_with, length_map. lia.
  - intros i x. rewrite PyDictFacts.get_set. case_decide; [|apply Hin].
    intros [= <-]. by apply (final_bounds lo hi c W).
Qed.

(** X12.  With vectors of one length whose components lie in [lo, hi],
    non-negative weights, gamma_consensus >= 0 and
    gamma_consensus * (sum of the weights of a node's edges) <= 1 for
    every node, consensus_update returns and all components still lie in
    [lo, hi]: each new vector is a convex combination of old ones. *)
Theorem consensus_update_stays_within g c lo hi D (d : list (nat * option (list Q))) :
  same_dimension D d → within lo hi d → (0 <= c)%Q →
  (∀ i n, (0 <= get_weight g i n)%Q) →
  (∀ i, (c * total_weight g i (get_neighbors g i) <= 1)%Q) →
  ∃ d', consensus_update g d c = Some d' ∧ within lo hi d'.
Proof.
  intros Hd Hin Hc Hw Hsum. unfold consensus_update.
  generalize (PyDict.keys d). intros ids. revert d Hd Hin.
  induction ids as [|k ids IH]; intros d Hd Hin; simpl.
  - by exists d.
  - destruct (consensus_step_within g c lo hi D d k Hd Hin Hc Hw Hsum)
      as (d1 & -> & Hd1 & Hin1). simpl. by apply IH.
Qed.

Lemma consensus_update_snapshot_when_neighbors_later_witness :
  PyDict.get 0%nat (default [] (consensus_update two_brokers thetas01 0.02))
  = snapshot_theta two_brokers 0.02 thetas01 0.
Proof.
  apply (consensus_update_snapshot_when_neighbors_later two_brokers 0.02 thetas01 _
           [] 0%nat [1%nat]).
  - vm_compute. repeat constructor; set_solver.
  - vm_compute. reflexivity.
  - reflexivity.
  - intros j _. apply not_elem_of_nil.
Defined.

Lemma consensus_update_skips_witness :
  PyDict.get 2%nat (default [] (consensus_update two_brokers thetas_with_gap 0.02))
  = PyDict.get 2%nat thetas_with_gap.
Proof.
  apply (consensus_update_skips two_brokers 0.02 thetas_with_gap).
  - vm_compute. reflexivity.
  - right. left. reflexivity.
Defined.

Lemma same_dimension_thetas01 : same_dimension 1 thetas01.
Proof.
  intros i th. unfold thetas01. simpl. repeat case_decide; by intros [= <-].
Qed.

Lemma consensus_update_same_dimension_witness :
  ∃ d', consensus_update two_brokers thetas01 0.02 = Some d' ∧ same_dimension 1 d'
        ∧ PyDict.keys d' = PyDict.keys thetas01.
Proof.
  apply (consensus_update_same_dimension two_brokers 0.02 1 thetas01).
  apply same_dimension_thetas01.
Defined.

Lemma consensus_update_keeps_agreement_witness :
  ∃ d', consensus_update two_brokers thetas_equal 0.02 = Some d' ∧ agree [1%Q] d'.
Proof.
  apply (consensus_update_keeps_agreement two_brokers 0.02 [1%Q] thetas_equal).
  intros i th. unfold thetas_equal. simpl.
  repeat case_decide; intros [= <-]; by repeat constructor.
Defined.

Lemma pair_graph_neighbors i :
  get_neighbors pair_graph i = [] ∨ get_neighbors pair_graph i = [1%nat]
  ∨ get_neighbors pair_graph i = [0%nat].
Proof.
  unfold get_neighbors, pair_graph. cbn [neighbors].
  destruct (decide (i = 0%nat)) as [->|H0]; [right; left; by rewrite lookup_insert_eq|].
  rewrite lookup_insert_ne by done.
  destruct (decide (i = 1%nat)) as [->|H1]; [right; right; by rewrite lookup_insert_eq|].
  rewrite lookup_insert_ne by done. by left.
Qed.

Lemma pair_graph_weights i n :
  (0 <= get_weight pair_graph i n)%Q ∧ (get_weight pair_graph i n <= 1)%Q.
Proof.
  unfold get_weight, pair_graph. simpl. repeat case_decide; simpl; split; lra.
Qed.

Lemma consensus_update_stays_within_witness :
  ∃ d', consensus_update pair_graph thetas01 0.02 = Some d' ∧ within 0 1 d'.
Proof.
  apply (consensus_update_stays_within pair_graph 0.02 0 1 1 thetas01).
  - apply same_dimension_thetas01.
  - intros i th. unfold thetas01. simpl.
    repeat case_decide; intros [= <-]; repeat constructor; lra.
  - lra.
  - intros i n. apply pair_graph_weights.
  - intros i. destruct (pair_graph_neighbors i) as [->|[->| ->]]; simpl.
    + lra.
    + destruct (pair_graph_weights i 1). lra.
    + destruct (pair_graph_weights i 0). lra.
Defined.

End ConsensusStructure.

(** ** More on the broker *)

Module ControllerStructure.
Import Rand Controller ControllerFacts.

Lemma Qltb_lt a b : Qltb a b = true ↔ (a < b)%Q.
Proof.
  unfold Qltb. rewrite negb_true_iff. split.
  - intros H. apply Qnot_le_lt. intros Hle. apply Qle_bool_iff in Hle. congruence.
  - intros H. destruct (Qle_bool b a) eqn:E; [|done].
    apply Qle_bool_iff in E. lra.
Qed.

Lemma Qltb_ge a b : Qltb a b = false ↔ (b <= a)%Q.
Proof.
  unfold Qltb. rewrite negb_false_iff. apply Qle_bool_iff.
Qed.

Lemma insert_desc_nonempty x l : insert_desc x l ≠ [].
Proof. destruct l as [|y l]; simpl; [done|]. by destruct (Qltb x.1 y.1). Qed.

Lemma sort_desc_nil l : sort_desc l = [] → l = [].
Proof.
  destruct l as [|x l]; [done|]. simpl. intros H. by apply insert_desc_nonempty in H.
Qed.

Lemma sort_desc_head_first_max (l : list (Q * Executor)) top rest :
  sort_desc l = top :: rest →
  ∃ l1 l2, l = l1 ++ top :: l2 ∧
           (∀ y, y ∈ l1 → (y.1 < top.1)%Q) ∧
           (∀ y, y ∈ l2 → (y.1 <= top.1)%Q).
Proof.
  revert top rest. induction l as [|x l IH]; intros top rest Hs; [done|].
  simpl in Hs. destruct (sort_desc l) as [|t r] eqn:Hl.
  - apply sort_desc_nil in Hl as ->. simpl in Hs. injection Hs as <- <-.
    exists [], []. split_and!; [done|..]; intros y Hy; by apply elem_of_nil in Hy.
  - destruct (IH t r eq_refl) as (a & b & -> & Ha & Hb).
    simpl in Hs. destruct (Qltb x.1 t.1) eqn:Hx; injection Hs as <- <-.
    + apply Qltb_lt in Hx. exists (x :: a), b. split_and!; [done| |done].
      intros y Hy. apply elem_of_cons in Hy as [->|Hy]; [done | by apply Ha].
    + apply Qltb_ge in Hx. exists [], (a ++ t :: b). split_and!; [done| |].
      * intros y Hy. by apply elem_of_nil in Hy.
      * intros y Hy. apply elem_of_app in Hy as [Hy|Hy].
        -- apply Ha in Hy. lra.
        -- apply elem_of_cons in Hy as [->|Hy]; [done|]. apply Hb in Hy. lra.
Qed.

Lemma select_executor_run t w :
  executors (self w) ≠ [] →
  _select_executor t w
  = match score_all t (executors (self w)) w with
    | (Ok scores, w1) =>
        match sort_desc scores with
        | top :: _ => (Ok (Some top.2), w1)
        | [] => (Raise (IndexError 0 0), w1)
        end
    | (Raise e, w1) => (Raise e, w1)
    end.
Proof.
  intros Hne. unfold _select_executor, bind at 1, get_self.
  destruct (executors (self w)) as [|e l] eqn:He; [done|].
  unfold bind. destruct (score_all t (e :: l) w) as [[scores|err] w1]; [|done].
  by destruct (sort_desc scores).
Qed.

Lemma score_all_executors t exs w scores w1 :
  score_all t exs w = (Ok scores, w1) → scores.*2 = exs.
Proof.
  revert w scores. induction exs as [|e exs IH]; intros w scores Hrun; simpl in Hrun.
  - by injection Hrun as <- <-.
  - apply bind_run in Hrun as [(f & w2 & _ & Hrun)|(? & _ & [=])].
    apply bind_run in Hrun as [(b & w3 & _ & Hrun)|(? & _ & [=])].
    apply bind_run in Hrun as [(dv & w4 & _ & Hrun)|(? & _ & [=])].
    apply bind_run in Hrun as [(j & w5 & _ & Hrun)|(? & _ & [=])].
    apply bind_run in Hrun as [(rest & w6 & Hrest & Hrun)|(? & _ & [=])].
    injection Hrun as <- <-. simpl. f_equal. by apply (IH w5).
Qed.

Lemma select_executor_scores t w scores w1 :
  executors (self w) ≠ [] →
  score_all t (executors (self w)) w = (Ok scores, w1) →
  ∃ l1 top l2,
    scores = l1 ++ top :: l2 ∧ scores.*2 = executors (self w) ∧
    (∀ y, y ∈ l1 → (y.1 < top.1)%Q) ∧
    (∀ y, y ∈ l2 → (y.1 <= top.1)%Q) ∧
    _select_executor t w = (Ok (Some top.2), w1) ∧
    top.2 ∈ executors (self w).
Proof.
  intros Hne Hrun. rewrite (select_executor_run t w Hne), Hrun.
  pose proof (score_all_executors _ _ _ _ _ Hrun) as Hex.
  destruct (sort_desc scores) as [|top rest] eqn:Hs.
  { apply sort_desc_nil in Hs as ->. simpl in Hex. congruence. }
  destruct (sort_desc_head_first_max scores top rest Hs) as (l1 & l2 & -> & H1 & H2).
  exists l1, top, l2. split_and!; try done.
  rewrite <- Hex. apply list_elem_of_fmap. exists top. split; [done|].
  apply elem_of_app. right. left.
Qed.






(** X13.  When the scores of all candidates can be computed,
    _select_executor returns the executor of the first entry with the
    highest score: every earlier entry scores strictly less, every later
    one at most as much, and the executor is one of the broker's. *)
Theorem select_executor_first_max t w scores w1 :
  executors (self w) ≠ [] →
  score_all t (executors (self w)) w = (Ok scores, w1) →
  ∃ l1 top l2,
    scores = l1 ++ top :: l2 ∧ scores.*2 = executors (self w) ∧
    (∀ y, y ∈ l1 → (y.1 < top.1)%Q) ∧
    (∀ y, y ∈ l2 → (y.1 <= top.1)%Q) ∧
    _select_executor t w = (Ok (Some top.2), w1) ∧
    top.2 ∈ executors (self w).
Proof. apply select_executor_scores. Qed.



(** X16.  With an empty executor list process_task answers 'failed'
    with the error 'No available executor', draws no random number and
    leaves the broker as it was. *)
Theorem process_task_no_executor config t w :
  executors (self w) = [] →
  ∃ r w', process_task config t w = (Ok r, w') ∧
          status r = Some (PyStr "failed") ∧
          PyDict.get "error"%string r = Some (PyStr "No available executor") ∧
          self w' = self w ∧ update_calls w' = update_calls w ∧
          cursor (oracle w') = cursor (oracle w).
Proof.
  intros He. unfold process_task, bind at 1, ask at 1, time_time at 1.
  cbv beta iota zeta. unfold try_except, try_body, bind at 1.
  unfold _select_executor, bind at 1, get_self. cbn [self]. rewrite He.
  unfold ret at 1. unfold bind, ask, time_time, ret. cbv beta iota zeta.
  eexists _, _. split; [reflexivity|]. by split_and!.
Qed.

Lemma length_random_signs n o : length (random_signs n o).1 = n.
Proof.
  revert o. induction n as [|n IH]; intros o; simpl; [done|].
  specialize (IH (mkOracle (tape o) (S (cursor o)) (clock o) (reads o))).
  destruct (random_signs n _) as [rest o2]. simpl in *. by rewrite IH.
Qed.

Lemma reads_only_run {A} (m : M A) w r w1 :
  reads_only m → m w = (r, w1) →
  self w1 = self w ∧ update_calls w1 = update_calls w.
Proof. intros Hm Hrun. specialize (Hm w). by rewrite Hrun in Hm. Qed.

(** X17.  _update_spsa_parameters writes no field of the broker but
    theta, whether it returns or raises, and theta keeps its length. *)
Theorem update_writes_only_theta config w r w' :
  _update_spsa_parameters config w = (r, w') →
  set_theta (theta (self w)) (self w') = set_theta (theta (self w)) (self w) ∧
  length (theta (self w')) = length (theta (self w)).
Proof.
  unfold _update_spsa_parameters, bind at 1, count_update_call.
  unfold bind at 1, get_self. cbn [self].
  case_match; [by intros [= <- <-]|]. intros Hrun.
  apply bind_run in Hrun as [(l & w1 & Hl & Hrun)|(e & Hl & _)];
    apply reads_only_run in Hl as [Hs1 _]; try apply reads_only_calculate_loss;
    cbn [self] in Hs1; [|by rewrite Hs1].
  unfold bind at 1, ask in Hrun.
  pose proof (length_random_signs (length (theta (self w))) (oracle w1)) as Hlen.
  destruct (random_signs (length (theta (self w))) (oracle w1)) as [delta o2].
  cbn [fst] in Hlen.
  apply bind_run in Hrun as [(lp & w3 & Hp & Hrun)|(e & Hp & _)];
    apply reads_only_run in Hp as [Hs2 _]; try apply reads_only_simulate_loss;
    cbn [self] in Hs2; [|by rewrite Hs2, Hs1].
  apply bind_run in Hrun as [(lm & w4 & Hm & Hrun)|(e & Hm & _)];
    apply reads_only_run in Hm as [Hs3 _]; try apply reads_only_simulate_loss;
    [|by rewrite Hs3, Hs2, Hs1].
  unfold modify_self in Hrun. injection Hrun as _ <-. cbn [self theta set_theta].
  rewrite Hs3, Hs2, Hs1. split; [done|].
  rewrite length_map, length_zip_with, !length_map, Hlen. lia.
Qed.

Lemma total_loss_run hist acc w :
  history_ok hist → ∃ l, total_loss hist acc w = (Ok l, w).
Proof.
  intros Hok. revert acc. induction Hok as [|[[t r] x] hist [v Hv] Hok IH]; intros acc.
  - by exists acc.
  - simpl in *. rewrite Hv. apply IH.
Qed.

Lemma calculate_loss_run hist w :
  history_ok hist → ∃ l, _calculate_loss hist w = (Ok l, w).
Proof.
  intros Hok. unfold _calculate_loss. destruct hist as [|h hist]; [by eexists|].
  destruct (total_loss_run (h :: hist) 0.0%Q w Hok) as (l & Hl).
  unfold bind. rewrite Hl. by eexists.
Qed.

Lemma history_ok_last10 hist : history_ok hist → history_ok (last10 hist).
Proof. unfold history_ok, last10. apply Forall_drop. Qed.

Lemma update_run config w :
  (10 ≤ length (history (self w)))%nat → history_ok (history (self w)) →
  _update_spsa_parameters config w
  = (Ok tt,
     mkWorld (set_theta (spsa_step config (theta (self w)) (oracle w)).1 (self w))
             (spsa_step config (theta (self w)) (oracle w)).2
             (S (update_calls w))).
Proof.
  intros Hlen Hok. unfold _update_spsa_parameters, bind at 1, count_update_call.
  unfold bind at 1, get_self. cbn [self].
  destruct (Nat.ltb_spec (length (history (self w))) 10); [lia|].
  destruct (calculate_loss_run (last10 (history (self w)))
              (mkWorld (self w) (oracle w) (S (update_calls w)))
              (history_ok_last10 _ Hok)) as (l & Hl).
  unfold bind at 1. rewrite Hl.
  unfold spsa_step, bind, ask, _simulate_loss, bind, ask, ret, modify_self.
  cbn [self oracle update_calls].
  destruct (random_signs (length (theta (self w))) (oracle w)) as [delta o1].
  cbn [self oracle update_calls].
  destruct (uniform 0 0.1 o1) as [n1 o2]. cbn [self oracle update_calls].
  destruct (uniform 0 0.1 o2) as [n2 o3]. cbn [self oracle update_calls fst snd].
  reflexivity.
Qed.

(** X18.  The recorded outcomes do not enter the update: two brokers
    with the same theta and the same random source, each with at least
    10 history entries that carry the key 'success', come out of the
    update with the same theta and the same random source. *)
Theorem update_ignores_outcomes config w1 w2 :
  theta (self w1) = theta (self w2) → oracle w1 = oracle w2 →
  (10 ≤ length (history (self w1)))%nat → history_ok (history (self w1)) →
  (10 ≤ length (history (self w2)))%nat → history_ok (history (self w2)) →
  (_update_spsa_parameters config w1).1 = Ok tt ∧
  (_update_spsa_parameters config w2).1 = Ok tt ∧
  theta (self (_update_spsa_parameters config w1).2)
  = theta (self (_update_spsa_parameters config w2).2) ∧
  oracle (_update_spsa_parameters config w1).2
  = oracle (_update_spsa_parameters config w2).2.
Proof.
  intros Hth Ho L1 H1 L2 H2.
  rewrite (update_run config w1 L1 H1), (update_run config w2 L2 H2).
  cbn [fst snd self oracle theta set_theta]. by rewrite Hth, Ho.
Qed.

Lemma try_body_run config t s w ex w1 :
  _select_executor t w = (Ok (Some ex), w1) →
  let x := (0.5 + (3.0 - 0.5) * tape (oracle w1) (cursor (oracle w1)))%Q in
  let success := Qltb 0.1 (tape (oracle w1) (S (cursor (oracle w1)))) in
  let total := (clock (oracle w1) (reads (oracle w1)) - s)%Q in
  let res := completed_result ex total success in
  let wk := mkWorld (record_outcome t res x total success (self w1))
                    (mkOracle (tape (oracle w1)) (S (S (cursor (oracle w1))))
                              (clock (oracle w1)) (S (reads (oracle w1))))
                    (update_calls w1) in
  try_body config t s w
  = if (10 <=? S (length (history (self w1))))%nat
    then match _update_spsa_parameters config wk with
         | (Ok _, w') => (Ok res, w')
         | (Raise e, w') => (Raise e, w')
         end
    else (Ok res, wk).
Proof.
  intros Hsel. cbv zeta. unfold try_body, bind at 1. rewrite Hsel.
  unfold bind, ask, modify_self, ret, get_self.
  cbv beta iota zeta delta [uniform random time_time].
  cbn [self oracle update_calls tape cursor clock reads].
  destruct (Qltb 0.1 (tape (oracle w1) (S (cursor (oracle w1))))) eqn:Hsucc;
    cbn [self oracle update_calls tape cursor clock reads];
    unfold record_outcome;
    cbn [history set_history set_load set_stats set_task_count performance_stats
         total_tasks successful_tasks total_time average_load load task_count];
    rewrite ?length_history_average;
    cbn [history set_history set_load set_stats set_task_count];
    rewrite ?length_app; cbn [length];
    rewrite ?Nat.add_1_r;
    destruct (10 <=? S (length (history (self w1))))%nat; reflexivity.
Qed.

Lemma spsa_step_theta config th o :
  theta_bounded (spsa_step config th o).1 ∧
  length (spsa_step config th o).1 = length th.
Proof.
  unfold spsa_step.
  pose proof (length_random_signs (length th) o) as Hlen.
  destruct (random_signs (length th) o) as [delta o1].
  destruct (uniform 0 0.1 o1) as [n1 o2]. destruct (uniform 0 0.1 o2) as [n2 o3].
  cbn [fst] in *. split.
  - unfold theta_bounded. apply Forall_map, Forall_forall. intros x _. apply clip_bounds.
  - rewrite length_map, length_zip_with, !length_map, Hlen. lia.
Qed.

Lemma record_outcome_fields t r x total success b :
  theta (record_outcome t r x total success b) = theta b ∧
  executors (record_outcome t r x total success b) = executors b ∧
  history (record_outcome t r x total success b) = history b ++ [(t, r, x)] ∧
  task_count (record_outcome t r x total success b) = S (task_count b) ∧
  total_tasks (performance_stats (record_outcome t r x total success b))
  = S (total_tasks (performance_stats b)) ∧
  successful_tasks (performance_stats (record_outcome t r x total success b))
  = (successful_tasks (performance_stats b) + (if success then 1 else 0))%nat ∧
  load (record_outcome t r x total success b) = (load b + x * 0.1)%Q ∧
  average_load (performance_stats (record_outcome t r x total success b))
  = (load (record_outcome t r x total success b)
     / inject_Z (Z.of_nat (S (total_tasks (performance_stats b)))))%Q.
Proof.
  unfold record_outcome, _update_average_load.
  cbn [performance_stats set_load set_stats set_task_count total_tasks].
  destruct success; cbn; split_and!; try done; lia.
Qed.

Lemma process_task_self config t w :
  history_ok (history (self w)) →
  ∃ r w', process_task config t w = (Ok r, w') ∧
    ((status r ≠ Some (PyStr "completed") ∧ self w' = self w ∧
      ¬ (∃ ex w1, _select_executor t (ask time_time w).2 = (Ok (Some ex), w1)))
     ∨ (∃ ex x total success o,
          r = completed_result ex total success ∧
          self w'
          = let b1 := record_outcome t r x total success (self w) in
            if (10 <=? length (history b1))%nat
            then set_theta (spsa_step config (theta b1) o).1 b1 else b1)).
Proof.
  intros Hok. unfold process_task, bind at 1. unfold ask at 1, time_time at 1.
  cbv beta iota zeta. unfold try_except.
  set (w0 := mkWorld (self w) _ (update_calls w)).
  set (s := clock (oracle w) (reads (oracle w))).
  change (ask time_time w).2 with w0.
  destruct (_select_executor t w0) as [[[ex|]|e] w1] eqn:Hsel.
  - pose proof (reads_only_run _ _ _ _ (reads_only_select_executor t) Hsel) as [Hs Hc].
    change (self w0) with (self w) in Hs.
    rewrite (try_body_run config t s w0 ex w1 Hsel). cbv zeta. rewrite Hs.
    set (x := (0.5 + _)%Q). set (success := Qltb 0.1 _). set (total := (_ - s)%Q).
    set (res := completed_result ex total success).
    destruct (record_outcome_fields t res x total success (self w))
      as (Hth & Hex & Hh & _).
    rewrite <- (Nat.add_1_r (length (history (self w)))).
    replace (length (history (self w)) + 1)%nat
      with (length (history (record_outcome t res x total success (self w))))
      by (rewrite Hh, length_app; simpl; lia).
    destruct (Nat.leb_spec 10 (length (history (record_outcome t res x total success (self w)))))
      as [Hten|Hten].
    + rewrite update_run.
      * cbn [self oracle]. eexists _, _. split; [reflexivity|]. right.
        eexists ex, x, total, success, _. split; [done|]. cbn [self].
        cbv zeta. destruct (Nat.leb_spec 10 (length (history (record_outcome t res x total success (self w))))); [done | lia].
      * done.
      * cbn [self]. rewrite Hh. apply Forall_app. split; [done|].
        constructor; [|done]. by eexists.
    + eexists _, _. split; [reflexivity|]. right.
      eexists ex, x, total, success, (oracle w). split; [done|]. cbn [self].
      cbv zeta. destruct (Nat.leb_spec 10 (length (history (record_outcome t res x total success (self w))))); [lia | done].
  - pose proof (reads_only_run _ _ _ _ (reads_only_select_executor t) Hsel) as [Hs Hc].
    unfold try_body, bind at 1. rewrite Hsel.
    unfold bind, ask, time_time, ret. cbv beta iota zeta.
    eexists _, _. split; [reflexivity|]. left. split_and!; [done | done |].
    intros (ex & w2 & [=]).
  - pose proof (reads_only_run _ _ _ _ (reads_only_select_executor t) Hsel) as [Hs Hc].
    unfold try_body, bind at 1. rewrite Hsel.
    unfold handler, bind, ask, time_time, ret. cbv beta iota zeta.
    eexists _, _. split; [reflexivity|]. left. split_and!; [done | done |].
    intros (ex & w2 & [=]).
Qed.

Lemma broker_ok_record_outcome t ex x total success b :
  broker_ok b →
  broker_ok (record_outcome t (completed_result ex total success) x total success b).
Proof.
  intros (H1 & H2 & H3 & H4 & H5 & H6). unfold broker_ok.
  destruct (record_outcome_fields t (completed_result ex total success) x total success b)
    as (-> & -> & Hh & -> & -> & -> & _).
  rewrite Hh, length_app. cbn [length]. split_and!; [done | done | | lia | lia |].
  - apply Forall_app. split; [done|]. constructor; [|done]. by eexists.
  - destruct success; lia.
Qed.

(** X19.  process_task keeps the broker sound: theta has one component
    per executor, all within [-2, 2]; every recorded result carries the
    key 'success'; the history has task_count entries;
    total_tasks = task_count; successful_tasks <= total_tasks. *)
Theorem process_task_keeps_broker_ok config t w r w' :
  broker_ok (self w) →
  process_task config t w = (r, w') →
  broker_ok (self w').
Proof.
  intros Hok Hrun. pose proof Hok as (_ & _ & Hh & _).
  destruct (process_task_self config t w Hh) as (r0 & w0 & Hrun0 & Hcases).
  rewrite Hrun0 in Hrun. injection Hrun as <- <-.
  destruct Hcases as [(_ & -> & _)|(ex & x & total & success & o & -> & ->)]; [done|].
  cbv zeta. pose proof (broker_ok_record_outcome t ex x total success (self w) Hok) as Hb.
  case_match; [|done].
  destruct Hb as (H1 & H2 & H3 & H4 & H5 & H6).
  destruct (spsa_step_theta config
              (theta (record_outcome t (completed_result ex total success) x total
                                     success (self w))) o) as [Hb1 Hb2].
  split_and!; try done. cbn [theta set_theta executors]. by rewrite Hb2.
Qed.


Lemma uniform_vector_spec a b n o :
  (∀ k, (0 <= tape o k)%Q ∧ (tape o k <= 1)%Q) → (a <= b)%Q →
  length (uniform_vector a b n o).1 = n ∧
  Forall (λ x, (a <= x)%Q ∧ (x <= b)%Q) (uniform_vector a b n o).1 ∧
  tape (uniform_vector a b n o).2 = tape o.
Proof.
  intros Htape Hab. revert o Htape. induction n as [|n IH]; intros o Htape; simpl.
  - by split_and!.
  - unfold uniform, random.
    specialize (IH (mkOracle (tape o) (S (cursor o)) (clock o) (reads o)) Htape).
    destruct (uniform_vector a b n _) as [rest o2]. cbn [fst snd tape] in *.
    destruct IH as (IH1 & IH2 & IH3). split_and!; [simpl; by rewrite IH1| |done].
    constructor; [|done]. destruct (Htape (cursor o)). split; nra.
Qed.

(** X21.  When the random source yields numbers in [0, 1], __init__
    gives a sound broker with theta within [-0.5, 0.5], no history, no
    neighbour and load 0. *)
Theorem init_broker_ok id exs o :
  (∀ k, (0 <= tape o k)%Q ∧ (tape o k <= 1)%Q) →
  let b := (init id exs o).1 in
  broker_ok b ∧ Forall (λ x, (-0.5 <= x)%Q ∧ (x <= 0.5)%Q) (theta b) ∧
  executors b = exs ∧ history b = [] ∧ neighbors b = [] ∧ (load b == 0)%Q.
Proof.
  intros Htape. cbv zeta. unfold init.
  destruct (uniform_vector_spec (-0.5) 0.5 (length exs) o Htape) as (H1 & H2 & _);
    [lra|].
  destruct (uniform_vector (-0.5) 0.5 (length exs) o) as [th o']. cbn [fst] in *.
  split_and!; try done.
  split_and!; try done; cbn.
  - eapply Forall_impl; [exact H2|]. intros x [? ?]. split; lra.
  - constructor.
Qed.

(** X22.  With non-negative loads and 0 <= (h + gamma) * 0.1 <= 1,
    balance_load sets the load to
    load - (h + gamma) * 0.1 * (load - mean), a value between the old
    load and the mean of the neighbours' loads. *)
Theorem balance_load_towards_mean config pool b :
  neighbor_loads pool b ≠ [] →
  (0 <= load b)%Q → (0 <= mean (neighbor_loads pool b))%Q →
  (0 <= h config + gamma config)%Q → ((h config + gamma config) * 0.1 <= 1)%Q →
  let avg := mean (neighbor_loads pool b) in
  let new := load (balance_load config pool b) in
  (new == load b - (h config + gamma config) * 0.1 * (load b - avg))%Q ∧
  (Qmin (load b) avg <= new)%Q ∧ (new <= Qmax (load b) avg)%Q.
Proof.
  intros Hl Hload Havg Hk0 Hk1. cbv zeta. unfold balance_load.
  destruct (neighbors b) as [|n ns] eqn:Hn.
  { exfalso. apply Hl. unfold neighbor_loads. by rewrite Hn. }
  destruct (neighbor_loads pool b) as [|l ls] eqn:Hloads; [done|].
  cbn [load set_load]. set (avg := mean (l :: ls)) in *.
  set (k := ((h config + gamma config) * 0.1)%Q) in *.
  assert (0 <= k)%Q as Hk by (unfold k; lra).
  assert ((load b + (- h config * (load b - avg) - gamma config * (load b - avg)) * 0.1
           == load b - k * (load b - avg))%Q) as Hx by (unfold k; ring).
  clearbody k avg. clear Hloads Hk0.
  generalize dependent (load b). intros L HL Hx.
  assert (0 <= (1 - k) * L)%Q as P1 by (apply Qmult_le_0_compat; lra).
  assert (0 <= k * avg)%Q as P2 by (apply Qmult_le_0_compat; lra).
  assert (L - k * (L - avg) == (1 - k) * L + k * avg)%Q as Hsplit by ring.
  assert (max0 (L + (- h config * (L - avg) - gamma config * (L - avg)) * 0.1)
          == L - k * (L - avg))%Q as Hnew.
  { unfold max0. destruct (Qlt_le_dec 0 _) as [?|Hle]; [done|]. lra. }
  split; [exact Hnew|]. rewrite Hnew.
  destruct (Q.min_spec L avg) as [[Hlt ->]|[Hle ->]];
    destruct (Q.max_spec L avg) as [[Hlt' ->]|[Hle' ->]]; try lra.
  - assert (0 <= k * (avg - L))%Q by (apply Qmult_le_0_compat; lra).
    assert (0 <= (1 - k) * (avg - L))%Q by (apply Qmult_le_0_compat; lra).
    split; lra.
  - assert (0 <= k * (L - avg))%Q by (apply Qmult_le_0_compat; lra).
    assert (0 <= (1 - k) * (L - avg))%Q by (apply Qmult_le_0_compat; lra).
    split; lra.
Qed.

(** X23.  add_neighbor never stores a neighbour twice: the list stays
    free of duplicates, holds the new neighbour and the old ones and
    nothing else, and adding the same neighbour again changes nothing. *)
Theorem add_neighbor_no_duplicate j b :
  NoDup (neighbors b) →
  NoDup (neighbors (add_neighbor j b)) ∧
  j ∈ neighbors (add_neighbor j b) ∧
  (∀ k, k ∈ neighbors (add_neighbor j b) ↔ k ∈ neighbors b ∨ k = j) ∧
  add_neighbor j (add_neighbor j b) = add_neighbor j b.
Proof.
  intros Hnd. unfold add_neighbor.
  destruct (bool_decide_reflect (j ∈ neighbors b)) as [Hin|Hnin].
  - rewrite bool_decide_eq_true_2 by done. split_and!; [done | done | | done].
    intros k. split; [by left | by intros [?| ->]].
  - cbn [neighbors set_neighbors].
    rewrite bool_decide_eq_true_2 by (apply elem_of_app; right; left).
    split_and!; [| apply elem_of_app; right; left | | done].
    + apply NoDup_app. split_and!; [done | | apply NoDup_singleton].
      intros x Hx Hx'. apply list_elem_of_singleton in Hx'. by subst.
    + intros k. rewrite elem_of_app, list_elem_of_singleton. done.
Qed.

(** X24.  get_performance_stats reports a success rate between 0 and
    100 whenever successful_tasks <= total_tasks, and rate and average
    time 0.0, without a division, when no task was counted; the counters
    are copied. *)
Theorem success_rate_range b :
  (successful_tasks (performance_stats b) ≤ total_tasks (performance_stats b))%nat →
  ∃ rate avg,
    PyDict.get "success_rate"%string (get_performance_stats b) = Some (PyNum rate) ∧
    PyDict.get "average_execution_time"%string (get_performance_stats b)
    = Some (PyNum avg) ∧
    (0 <= rate)%Q ∧ (rate <= 100)%Q ∧
    (total_tasks (performance_stats b) = 0%nat → rate = 0.0%Q ∧ avg = 0.0%Q) ∧
    PyDict.get "total_tasks"%string (get_performance_stats b)
    = Some (PyNum (inject_Z (Z.of_nat (total_tasks (performance_stats b))))).
Proof.
  intros Hle. unfold get_performance_stats. cbv zeta.
  destruct (Nat.ltb_spec 0 (total_tasks (performance_stats b))) as [Hpos|Hz].
  - eexists _, _. split_and!; [reflexivity | reflexivity | | | lia | reflexivity].
    + apply Qmult_le_0_compat; [|lra]. apply Qle_shift_div_l.
      * change 0%Q with (inject_Z 0). rewrite <- Zlt_Qlt. lia.
      * rewrite Qmult_0_l. change 0%Q with (inject_Z 0). rewrite <- Zle_Qle. lia.
    + assert (inject_Z (Z.of_nat (successful_tasks (performance_stats b)))
              / inject_Z (Z.of_nat (total_tasks (performance_stats b))) <= 1)%Q; [|lra].
      apply Qle_shift_div_r.
      * change 0%Q with (inject_Z 0). rewrite <- Zlt_Qlt. lia.
      * rewrite Qmult_1_l. rewrite <- Zle_Qle. lia.
  - eexists _, _. split_and!; [reflexivity | reflexivity | lra | lra | done | reflexivity].
Qed.

Lemma select_executor_first_max_witness :
  let w := sample_world 3 in
  let run := score_all sample_task (executors (self w)) w in
  let scores := match run.1 with Ok s => s | Raise _ => [] end in
  ∃ l1 top l2,
    scores = l1 ++ top :: l2 ∧ scores.*2 = executors (self w) ∧
    (∀ y, y ∈ l1 → (y.1 < top.1)%Q) ∧
    (∀ y, y ∈ l2 → (y.1 <= top.1)%Q) ∧
    _select_executor sample_task w = (Ok (Some top.2), run.2) ∧
    top.2 ∈ executors (self w).
Proof.
  apply (select_executor_first_max sample_task (sample_world 3)).
  - vm_compute. discriminate.
  - vm_compute. reflexivity.
Defined.



Lemma process_task_no_executor_witness :
  ∃ r w', process_task default_spsa_config sample_task (sample_world 0) = (Ok r, w') ∧
          status r = Some (PyStr "failed") ∧
          PyDict.get "error"%string r = Some (PyStr "No available executor") ∧
          self w' = self (sample_world 0) ∧
          update_calls w' = update_calls (sample_world 0) ∧
          cursor (oracle w') = cursor (oracle (sample_world 0)).
Proof.
  apply (process_task_no_executor default_spsa_config sample_task (sample_world 0)).
  reflexivity.
Defined.

Lemma update_writes_only_theta_witness :
  let run := _update_spsa_parameters default_spsa_config sample_world_ten in
  set_theta (theta (self sample_world_ten)) (self run.2)
  = set_theta (theta (self sample_world_ten)) (self sample_world_ten) ∧
  length (theta (self run.2)) = length (theta (self sample_world_ten)).
Proof.
  apply (update_writes_only_theta default_spsa_config sample_world_ten
           (_update_spsa_parameters default_spsa_config sample_world_ten).1).
  apply surjective_pairing.
Defined.

Lemma history_ok_sample_ten :
  history_ok (history (self sample_world_ten))
  ∧ history_ok (history (self sample_world_ten_failed)).
Proof. split; apply Forall_replicate; by eexists. Qed.

Lemma update_ignores_outcomes_witness :
  (_update_spsa_parameters default_spsa_config sample_world_ten).1 = Ok tt ∧
  (_update_spsa_parameters default_spsa_config sample_world_ten_failed).1 = Ok tt ∧
  theta (self (_update_spsa_parameters default_spsa_config sample_world_ten).2)
  = theta (self (_update_spsa_parameters default_spsa_config
                   sample_world_ten_failed).2) ∧
  oracle (_update_spsa_parameters default_spsa_config sample_world_ten).2
  = oracle (_update_spsa_parameters default_spsa_config sample_world_ten_failed).2.
Proof.
  apply (update_ignores_outcomes default_spsa_config sample_world_ten
           sample_world_ten_failed);
    [reflexivity | reflexivity | simpl; lia | apply history_ok_sample_ten
    | simpl; lia | apply history_ok_sample_ten].
Defined.

Lemma broker_ok_sample n : broker_ok (self (sample_world n)).
Proof.
  unfold broker_ok, sample_world, sample_executors. cbn.
  rewrite length_replicate, length_fmap, length_seq.
  split_and!; [done | | constructor | done | done | done].
  apply Forall_replicate. split; lra.
Qed.

Lemma process_task_keeps_broker_ok_witness :
  broker_ok (self (process_task default_spsa_config sample_task (sample_world 3)).2).
Proof.
  apply (process_task_keeps_broker_ok default_spsa_config sample_task (sample_world 3)
           (process_task default_spsa_config sample_task (sample_world 3)).1).
  - apply broker_ok_sample.
  - apply surjective_pairing.
Defined.


Lemma init_broker_ok_witness :
  let b := (init "broker_0" (sample_executors 4) (replay [] 0.5%Q)).1 in
  broker_ok b ∧ Forall (λ x, (-0.5 <= x)%Q ∧ (x <= 0.5)%Q) (theta b) ∧
  executors b = sample_executors 4 ∧ history b = [] ∧ neighbors b = []
  ∧ (load b == 0)%Q.
Proof.
  apply (init_broker_ok "broker_0" (sample_executors 4) (replay [] 0.5%Q)).
  intros k. unfold replay. cbn [tape]. destruct k; simpl; split; lra.
Defined.

Lemma balance_load_towards_mean_witness :
  let b := mkBroker "broker_0" (sample_executors 4) 1.0 0 [] (mkStats 0 0 0.0 0.0)
                    (replicate 4 0%Q) [1%nat] in
  let avg := mean (neighbor_loads sample_pool b) in
  let new := load (balance_load default_lvp_config sample_pool b) in
  (new == load b - (h default_lvp_config + gamma default_lvp_config) * 0.1
                   * (load b - avg))%Q ∧
  (Qmin (load b) avg <= new)%Q ∧ (new <= Qmax (load b) avg)%Q.
Proof.
  intros b. apply (balance_load_towards_mean default_lvp_config sample_pool b).
  - vm_compute. discriminate.
  - vm_compute. discriminate.
  - vm_compute. discriminate.
  - vm_compute. discriminate.
  - vm_compute. discriminate.
Defined.

Lemma add_neighbor_no_duplicate_witness :
  let b := (self (sample_world 3)) in
  NoDup (neighbors (add_neighbor 1 b)) ∧
  1%nat ∈ neighbors (add_neighbor 1 b) ∧
  (∀ k, k ∈ neighbors (add_neighbor 1 b) ↔ k ∈ neighbors b ∨ k = 1%nat) ∧
  add_neighbor 1 (add_neighbor 1 b) = add_neighbor 1 b.
Proof.
  apply (add_neighbor_no_duplicate 1 (self (sample_world 3))). apply NoDup_nil_2.
Defined.

Lemma success_rate_range_witness :
  let b := self sample_world_ten in
  ∃ rate avg,
    PyDict.get "success_rate"%string (get_performance_stats b) = Some (PyNum rate) ∧
    PyDict.get "average_execution_time"%string (get_performance_stats b)
    = Some (PyNum avg) ∧
    (0 <= rate)%Q ∧ (rate <= 100)%Q ∧
    (total_tasks (performance_stats b) = 0%nat → rate = 0.0%Q ∧ avg = 0.0%Q) ∧
    PyDict.get "total_tasks"%string (get_performance_stats b)
    = Some (PyNum (inject_Z (Z.of_nat (total_tasks (performance_stats b))))).
Proof. apply (success_rate_range (self sample_world_ten)). simpl. lia. Defined.

End ControllerStructure.
